(** * OnMind-QNA: the quiz engine and the Markdown question parser

    A shallow embedding of [QuizEngine] (js/quiz-engine.js) and
    [MarkdownParser] (js/markdown-parser.js).

    Conventions of the embedding:
    - a JavaScript string is a [list ascii] (one character per code unit;
      characters are the code units below 256);
    - an array is a [list], read with [!!] and written with [<[i:=x]>];
    - a JavaScript object used as an ordered map from option letter to
      option text is an association list in insertion order;
    - question objects live in a store ([heap]) and arrays hold their
      addresses, because the pool handed to the engine, [allQuestions] and
      [selectedQuestions] all point to the same objects;
    - [new Date()] and [Math.random()] are inputs of the operation that
      reads them;
    - a [throw] is the [inl] of a sum, carrying which [throw] it was. *)

From Stdlib Require Import ZArith List Ascii String Lia Bool Permutation.
From stdpp Require Import base tactics option list numbers sorting.
Import ListNotations.

Local Open Scope nat_scope.
Local Open Scope list_scope.

(** ** JavaScript strings *)

Module JS.

Definition str (s : string) : list ascii := list_ascii_of_string s.

Definition code (c : ascii) : nat := nat_of_ascii c.

(** [/[A-Z]/] on one character. *)
Definition isUpper (c : ascii) : bool := (65 <=? code c) && (code c <=? 90).

(** [\d] *)
Definition isDigit (c : ascii) : bool := (48 <=? code c) && (code c <=? 57).

(** Line terminators: the characters [.] refuses and at which [^] and [$]
    anchor under the [m] flag. *)
Definition isLineTerminator (c : ascii) : bool := (code c =? 10) || (code c =? 13).

(** [\s], which is also what [trim] strips: tab, line feed, vertical tab,
    form feed, carriage return, space and no-break space. *)
Definition isSpace (c : ascii) : bool :=
  ((9 <=? code c) && (code c <=? 13)) || (code c =? 32) || (code c =? 160).

Definition eqc (a b : ascii) : bool := Ascii.eqb a b.

(** [s.startsWith(p)], returning what follows the prefix. *)
Fixpoint stripPrefix (p s : list ascii) : option (list ascii) :=
  match p, s with
  | [], _ => Some s
  | a :: p', b :: s' => if eqc a b then stripPrefix p' s' else None
  | _ :: _, [] => None
  end.

Definition startsWith (p s : list ascii) : bool :=
  match stripPrefix p s with Some _ => true | None => false end.

(** [s.includes(p)] *)
Fixpoint includes (p s : list ascii) : bool :=
  startsWith p s || match s with [] => false | _ :: s' => includes p s' end.

(** The longest prefix whose characters satisfy [f], and the rest. *)
Fixpoint span (f : ascii -> bool) (s : list ascii) : list ascii * list ascii :=
  match s with
  | c :: s' => if f c then let '(a, b) := span f s' in (c :: a, b) else ([], s)
  | [] => ([], [])
  end.

Definition trimStart (s : list ascii) : list ascii := snd (span isSpace s).

Definition trim (s : list ascii) : list ascii := rev (trimStart (rev (trimStart s))).

(** [s.split('\n')] *)
Fixpoint splitLines (s : list ascii) : list (list ascii) :=
  match s with
  | [] => [[]]
  | c :: s' =>
      if code c =? 10 then [] :: splitLines s'
      else match splitLines s' with
           | l :: ls => (c :: l) :: ls
           | [] => [[c]]
           end
  end.

(** [s.padStart(n, '0')] *)
Definition padStart0 (n : nat) (s : list ascii) : list ascii :=
  repeat "0"%char (n - length s) ++ s.

(** The order of [Array.prototype.sort()] without a comparator, on
    one-character strings: by code unit. *)
Definition charLe (a b : ascii) : Prop := code a <= code b.

Global Instance charLe_dec a b : Decision (charLe a b).
Proof. unfold charLe. apply _. Defined.

(** [a.sort()]: the sorted arrangement of the array's elements. *)
Definition sort (l : list ascii) : list ascii := merge_sort charLe l.

(** [a.every((x, i) => x === b[i])] *)
Fixpoint everyEq (a b : list ascii) : bool :=
  match a with
  | [] => true
  | x :: a' =>
      match b with
      | y :: b' => eqc x y && everyEq a' b'
      | [] => false
      end
  end.

(** [o[k]] on an object holding option texts: [None] is [undefined]. *)
Fixpoint get {V} (o : list (ascii * V)) (k : ascii) : option V :=
  match o with
  | [] => None
  | (k', v) :: o' => if eqc k' k then Some v else get o' k
  end.

(** [o[k] = v]: an existing key keeps its place, a new key goes last. *)
Fixpoint set {V} (o : list (ascii * V)) (k : ascii) (v : V) : list (ascii * V) :=
  match o with
  | [] => [(k, v)]
  | (k', v') :: o' => if eqc k' k then (k', v) :: o' else (k', v') :: set o' k v
  end.

(** [Object.keys(o)] *)
Definition keys {V} (o : list (ascii * V)) : list ascii := map fst o.

(** Truthiness of a value that is a string or [undefined]. *)
Definition truthy (v : option (list ascii)) : bool :=
  match v with Some (_ :: _) => true | _ => false end.

(** What a call returned, if it returned, and what it threw, if it threw. *)
Definition returned {E A} (r : E + A) : option A :=
  match r with inr a => Some a | inl _ => None end.

Definition thrown {E A} (r : E + A) : option E :=
  match r with inl e => Some e | inr _ => None end.

End JS.

(** ** Question records *)

Module Data.

(** [extractionMetadata] of a parsed question. *)
Record Metadata := {
  questionIndex : nat;
  blockLength : nat;
  timestamp : Z;
  optionCount : nat;
  correctAnswerCount : nat;
  contentLength : nat
}.

Record Question := {
  id : list ascii;
  title : list ascii;
  content : list ascii;
  options : list (ascii * list ascii);
  correctAnswers : list ascii;
  rawBlock : list ascii;
  extractionMetadata : Metadata
}.

Definition withCorrectAnswers (q : Question) (ca : list ascii) : Question :=
  {| id := id q; title := title q; content := content q; options := options q;
     correctAnswers := ca; rawBlock := rawBlock q;
     extractionMetadata := extractionMetadata q |}.

End Data.

Import Data.

(** ** QuizEngine *)

Module QuizEngine.

Import JS.

(** The [Error]s the engine throws, one constructor per [throw]. *)
Inductive EngineError :=
| NoQuestionsAvailable      (* validateInitialQuestions: empty list *)
| NoValidQuestionsLeft      (* validateInitialQuestions: nothing survives the filter *)
| QuizNotInitialized        (* validateQuizState: no selected questions *)
| QuizAlreadyCompleted      (* validateQuizState: isCompleted *)
| IndexOutOfRange           (* submitAnswer: currentIndex past the end *)
| AnswerNotAString          (* validateAnswerFormat: falsy answer *)
| AnswerTooLong (n : nat)   (* validateAnswerFormat: more than maxAnswerLength *)
| AnswerBadFormat           (* validateAnswerFormat: not capital letters only *)
| QuestionUnavailable       (* validateAnswerForQuestion: no question *)
| AnswerNotAnOption (letter : list ascii). (* validateAnswerForQuestion *)

(** The error kinds of the specification, and the kind of each [throw]. *)
Inductive ErrorKind := EmptyPool | InvalidState | MalformedAnswer | UnknownOption.

Definition kind (e : EngineError) : ErrorKind :=
  match e with
  | NoQuestionsAvailable | NoValidQuestionsLeft => EmptyPool
  | QuizNotInitialized | QuizAlreadyCompleted | IndexOutOfRange
  | QuestionUnavailable => InvalidState
  | AnswerNotAString | AnswerTooLong _ | AnswerBadFormat => MalformedAnswer
  | AnswerNotAnOption _ => UnknownOption
  end.

(** One value of [Math.random()]: the fraction [rnum / (rnum + rgap + 1)],
    which lies in [0, 1). *)
Record Rand := { rnum : nat; rgap : nat }.

(** [Math.floor(Math.random() * n)] *)
Definition floorMul (u : Rand) (n : nat) : nat :=
  (rnum u * n) / (rnum u + rgap u + 1).

Record Engine := {
  heap : list Question;              (* the question objects, by address *)
  allQuestions : list nat;
  numberOfQuestions : Z;
  selectedQuestions : list nat;
  currentIndex : nat;
  userAnswers : list (option (list ascii));   (* None is null *)
  startTime : option Z;
  endTime : option Z;
  isCompleted : bool;
  engineErrors : list EngineError;
  validationWarnings : list nat
}.

Definition setHeap (h : list Question) (s : Engine) : Engine :=
  {| heap := h; allQuestions := allQuestions s;
     numberOfQuestions := numberOfQuestions s;
     selectedQuestions := selectedQuestions s; currentIndex := currentIndex s;
     userAnswers := userAnswers s; startTime := startTime s;
     endTime := endTime s; isCompleted := isCompleted s;
     engineErrors := engineErrors s;
     validationWarnings := validationWarnings s |}.

Definition setSelection (sel : list nat) (ans : list (option (list ascii)))
    (s : Engine) : Engine :=
  {| heap := heap s; allQuestions := allQuestions s;
     numberOfQuestions := numberOfQuestions s;
     selectedQuestions := sel; currentIndex := currentIndex s;
     userAnswers := ans; startTime := startTime s;
     endTime := endTime s; isCompleted := isCompleted s;
     engineErrors := engineErrors s;
     validationWarnings := validationWarnings s |}.

Definition setCurrentIndex (i : nat) (s : Engine) : Engine :=
  {| heap := heap s; allQuestions := allQuestions s;
     numberOfQuestions := numberOfQuestions s;
     selectedQuestions := selectedQuestions s; currentIndex := i;
     userAnswers := userAnswers s; startTime := startTime s;
     endTime := endTime s; isCompleted := isCompleted s;
     engineErrors := engineErrors s;
     validationWarnings := validationWarnings s |}.

Definition setUserAnswers (ans : list (option (list ascii))) (s : Engine) : Engine :=
  setSelection (selectedQuestions s) ans s.

Definition setStartTime (t : option Z) (s : Engine) : Engine :=
  {| heap := heap s; allQuestions := allQuestions s;
     numberOfQuestions := numberOfQuestions s;
     selectedQuestions := selectedQuestions s; currentIndex := currentIndex s;
     userAnswers := userAnswers s; startTime := t;
     endTime := endTime s; isCompleted := isCompleted s;
     engineErrors := engineErrors s;
     validationWarnings := validationWarnings s |}.

Definition setCompleted (t : Z) (s : Engine) : Engine :=
  {| heap := heap s; allQuestions := allQuestions s;
     numberOfQuestions := numberOfQuestions s;
     selectedQuestions := selectedQuestions s; currentIndex := currentIndex s;
     userAnswers := userAnswers s; startTime := startTime s;
     endTime := Some t; isCompleted := true;
     engineErrors := engineErrors s;
     validationWarnings := validationWarnings s |}.

(** [log('error', ...)] keeps the entry in [engineErrors]. *)
Definition logError (e : EngineError) (s : Engine) : Engine :=
  {| heap := heap s; allQuestions := allQuestions s;
     numberOfQuestions := numberOfQuestions s;
     selectedQuestions := selectedQuestions s; currentIndex := currentIndex s;
     userAnswers := userAnswers s; startTime := startTime s;
     endTime := endTime s; isCompleted := isCompleted s;
     engineErrors := engineErrors s ++ [e];
     validationWarnings := validationWarnings s |}.

(** The object an entry of [selectedQuestions] points to. *)
Definition questionAt (s : Engine) (i : nat) : option Question :=
  selectedQuestions s !! i ≫= fun a => heap s !! a.

(** *** Construction *)

(** [validateQuestionStructure(question, index).isValid] *)
Definition validateQuestionStructure (q : Question) : bool :=
  match id q with [] => false | _ => true end
  && match content q with [] => false | _ => true end
  && negb (length (keys (options q)) <? 2)
  && negb (length (correctAnswers q) =? 0).

(** The addresses that [validateInitialQuestions] keeps. *)
Definition validAddresses (h : list Question) : list nat :=
  List.filter (fun a => match h !! a with
                        | Some q => validateQuestionStructure q
                        | None => false
                        end) (seq 0 (length h)).

(** The loop of [selectRandomQuestions]: [n] iterations are left, [i] is
    the loop counter, [splice(randomIndex, 1)] takes the drawn address out
    of [availableQuestions]. [floorMul] is below the length, so the
    [splice] always yields an element. *)
Fixpoint drawLoop (rng : nat -> Rand) (i n : nat) (availableQuestions selected : list nat)
    : list nat :=
  match n with
  | 0 => selected
  | S n' =>
      match availableQuestions with
      | [] => selected
      | _ :: _ =>
          let randomIndex := floorMul (rng i) (length availableQuestions) in
          match availableQuestions !! randomIndex with
          | Some q => drawLoop rng (S i) n' (delete randomIndex availableQuestions)
                               (selected ++ [q])
          | None => selected
          end
      end
  end.

Definition selectRandomQuestions (rng : nat -> Rand) (s : Engine) : Engine :=
  let selected :=
    drawLoop rng 0 (Z.to_nat (numberOfQuestions s)) (allQuestions s) [] in
  setSelection selected (replicate (length selected) None) s.

(** [new QuizEngine(questions, numberOfQuestions)] *)
Definition constructor (rng : nat -> Rand) (questions : list Question)
    (numberOfQuestions : Z) : EngineError + Engine :=
  let s0 := {| heap := questions; allQuestions := seq 0 (length questions);
               numberOfQuestions :=
                 Z.min numberOfQuestions (Z.of_nat (length questions));
               selectedQuestions := []; currentIndex := 0; userAnswers := [];
               startTime := None; endTime := None; isCompleted := false;
               engineErrors := []; validationWarnings := [] |} in
  if length questions =? 0 then inl NoQuestionsAvailable
  else
    let valid := validAddresses questions in
    let invalidCount := length questions - length valid in
    if 0 <? invalidCount then
      if length valid =? 0 then inl NoValidQuestionsLeft
      else inr (selectRandomQuestions rng
             {| heap := questions; allQuestions := valid;
                numberOfQuestions := QuizEngine.numberOfQuestions s0;
                selectedQuestions := []; currentIndex := 0; userAnswers := [];
                startTime := None; endTime := None; isCompleted := false;
                engineErrors := []; validationWarnings := [invalidCount] |})
    else inr (selectRandomQuestions rng s0).

(** *** Answering *)

Definition validateQuizState (s : Engine) : option EngineError :=
  if length (selectedQuestions s) =? 0 then Some QuizNotInitialized
  else if isCompleted s then Some QuizAlreadyCompleted
  else None.

(** The test of [validateAnswerFormat]: one or more capital letters and
    nothing else. *)
Definition testLetters (answer : list ascii) : bool :=
  match answer with [] => false | _ :: _ => forallb isUpper answer end.

Definition maxAnswerLength : nat := 10.

Definition validateAnswerFormat (answer : list ascii) : option EngineError :=
  match answer with
  | [] => Some AnswerNotAString
  | _ :: _ =>
      if maxAnswerLength <? length answer then Some (AnswerTooLong (length answer))
      else if testLetters answer then None
      else Some AnswerBadFormat
  end.

(** The first letter of [answer] for which [!question.options[letter]]. *)
Fixpoint firstUnknown (o : list (ascii * list ascii)) (answer : list ascii)
    : option ascii :=
  match answer with
  | [] => None
  | letter :: rest =>
      if truthy (get o letter) then firstUnknown o rest else Some letter
  end.

(** [question.options[answer]] for an answer of at most one character. *)
Definition getByString (o : list (ascii * list ascii)) (answer : list ascii)
    : option (list ascii) :=
  match answer with [c] => get o c | _ => None end.

(** [validateAnswerForQuestion(answer, question)]; [question.options] is an
    object, hence truthy. *)
Definition validateAnswerForQuestion (answer : list ascii) (question : option Question)
    : option EngineError :=
  match question with
  | None => Some QuestionUnavailable
  | Some q =>
      if 1 <? length answer then
        match firstUnknown (options q) answer with
        | Some letter => Some (AnswerNotAnOption [letter])
        | None => None
        end
      else if truthy (getByString (options q) answer) then None
      else Some (AnswerNotAnOption answer)
  end.

(** [a[i] = x]: inside the array an update, past the end JavaScript grows
    the array and leaves holes, which read as [undefined] (here [None]). *)
Definition arraySet {A} (i : nat) (x : option A) (l : list (option A))
    : list (option A) :=
  if i <? length l then <[i := x]> l
  else l ++ replicate (i - length l) None ++ [x].

(** [isAnswerCorrect(questionIndex, userAnswer)]. The multiple-selection
    branch calls [question.correctAnswers.sort()], which sorts the array of
    the question object in place: the store is updated at its address.
    (The selection holds addresses of the store only.) *)
Definition isAnswerCorrect (questionIndex : nat) (userAnswer : list ascii)
    (s : Engine) : Engine * bool :=
  match selectedQuestions s !! questionIndex with
  | None => (s, false)
  | Some a =>
      match heap s !! a with
      | None => (s, false)
      | Some question =>
          if 1 <? length userAnswer then
            let userAnswerArray := sort userAnswer in
            let correctAnswerArray := sort (correctAnswers question) in
            (setHeap (<[a := withCorrectAnswers question correctAnswerArray]> (heap s)) s,
             (length userAnswerArray =? length correctAnswerArray)
             && everyEq userAnswerArray correctAnswerArray)
          else
            (s, match userAnswer with
                | [c] => existsb (eqc c) (correctAnswers question)
                | _ => false
                end)
      end
  end.

Record Outcome := {
  questionIndex : nat;
  answer : list ascii;
  isCorrect : bool;
  questionId : list ascii;
  timestamp : Z
}.

(** [submitAnswer(selectedAnswer)]; [now] is what [new Date()] returns. The
    [catch] logs the error and throws it again: what was assigned before the
    [throw] stays assigned. *)
Definition submitAnswer (now : Z) (selectedAnswer : list ascii) (s : Engine)
    : Engine * (EngineError + Outcome) :=
  match validateQuizState s with
  | Some e => (logError e s, inl e)
  | None =>
      if length (selectedQuestions s) <=? currentIndex s
      then (logError IndexOutOfRange s, inl IndexOutOfRange)
      else
        let s1 := match startTime s with
                  | None => setStartTime (Some now) s
                  | Some _ => s
                  end in
        match validateAnswerFormat selectedAnswer with
        | Some e => (logError e s1, inl e)
        | None =>
            let currentQuestion := questionAt s1 (currentIndex s1) in
            match validateAnswerForQuestion selectedAnswer currentQuestion with
            | Some e => (logError e s1, inl e)
            | None =>
                let s2 := setUserAnswers
                            (arraySet (currentIndex s1) (Some selectedAnswer)
                                      (userAnswers s1)) s1 in
                let '(s3, correct) :=
                  isAnswerCorrect (currentIndex s2) selectedAnswer s2 in
                (s3, inr {| questionIndex := currentIndex s3;
                            answer := selectedAnswer;
                            isCorrect := correct;
                            questionId := from_option id [] currentQuestion;
                            timestamp := now |})
            end
        end
  end.

(** *** Moving on *)

Record View := {
  question : option Question;
  questionNumber : nat;
  totalQuestions : nat;
  isLast : bool
}.

Definition getCurrentQuestion (s : Engine) : option View :=
  if length (selectedQuestions s) <=? currentIndex s then None
  else Some {| question := questionAt s (currentIndex s);
               questionNumber := currentIndex s + 1;
               totalQuestions := length (selectedQuestions s);
               isLast := S (currentIndex s) =? length (selectedQuestions s) |}.

(** [nextQuestion()] *)
Definition nextQuestion (now : Z) (s : Engine) : Engine * option View :=
  if S (currentIndex s) <? length (selectedQuestions s) then
    let s' := setCurrentIndex (S (currentIndex s)) s in
    (s', getCurrentQuestion s')
  else if S (currentIndex s) =? length (selectedQuestions s) then
    (setCompleted now s, None)
  else (s, None).

(** *** Scoring *)

Record ScoreData := {
  score : option nat;     (* None is NaN, the score of an empty selection *)
  correctCount : nat;
  scoreTotal : nat
}.

(** The loop of [calculateScore], from index [i] on, over the answers
    still to be looked at. A [null] or empty answer is falsy and skipped. *)
Fixpoint countCorrect (i : nat) (answers : list (option (list ascii)))
    (s : Engine) : Engine * nat :=
  match answers with
  | [] => (s, 0)
  | userAnswer :: rest =>
      match userAnswer with
      | Some ((_ :: _) as a) =>
          let '(s1, ok) := isAnswerCorrect i a s in
          let '(s2, n) := countCorrect (S i) rest s1 in
          (s2, if ok then S n else n)
      | _ => countCorrect (S i) rest s
      end
  end.

(** [Math.round((correctCount / total) * 100)], in exact arithmetic. *)
Definition percentage (correct total : nat) : option nat :=
  if total =? 0 then None
  else Some ((200 * correct + total) / (2 * total)).

(** [calculateScore()]: it reads [userAnswers[i]] for every index of
    [selectedQuestions]. *)
Definition calculateScore (s : Engine) : Engine * ScoreData :=
  let n := length (selectedQuestions s) in
  let answers := map (fun i => mjoin (userAnswers s !! i)) (seq 0 n) in
  let '(s', c) := countCorrect 0 answers s in
  (s', {| score := percentage c n; correctCount := c; scoreTotal := n |}).

End QuizEngine.

(** ** MarkdownParser *)

Module MarkdownParser.

Import JS.

Definition nl : ascii := ascii_of_nat 10.
Definition quote : ascii := ascii_of_nat 34.
Definition star : ascii := "*"%char.

(** The lines of a document joined by line feeds. *)
Fixpoint unlines (ls : list string) : list ascii :=
  match ls with
  | [] => []
  | [l] => str l
  | l :: ls' => str l ++ nl :: unlines ls'
  end.

(** *** The regular expressions *)

(** The optional group of two stars, which opens [optionRegex] and follows
    its letter, takes the two stars when they are there. Giving them back
    never helps: what follows in each pattern cannot match a star. *)
Definition optStars (s : list ascii) : list ascii :=
  match stripPrefix [star; star] s with Some r => r | None => s end.

(** The heading of [questionBlockRegex] at the start of [s]: the digits
    (all of them, a line feed follows) and what follows the two line
    feeds. *)
Definition matchHeading (s : list ascii) : option (list ascii * list ascii) :=
  match stripPrefix (str "## Pregunta ") s with
  | None => None
  | Some r =>
      let '(digits, r1) := span isDigit r in
      match digits with
      | [] => None
      | _ :: _ =>
          match stripPrefix [nl; nl] r1 with
          | Some r2 => Some (digits, r2)
          | None => None
          end
      end
  end.

(** The lookahead of [questionBlockRegex]: a question heading, a line
    feed and three dashes, a line feed and a hash, or the end of the
    input (there is no [m] flag). *)
Definition blockEnd (s : list ascii) : bool :=
  startsWith (str "## Pregunta") s
  || startsWith (nl :: str "---") s
  || startsWith (nl :: str "#") s
  || match s with [] => true | _ :: _ => false end.

(** The lazy group of [questionBlockRegex] followed by the lookahead: the
    shortest stretch after which [blockEnd] holds, and the rest of the
    input. *)
Fixpoint lazyBody (s : list ascii) : list ascii * list ascii :=
  if blockEnd s then ([], s)
  else match s with
       | [] => ([], [])
       | c :: s' => let '(b, r) := lazyBody s' in (c :: b, r)
       end.

(** [questionBlockRegex] at the start of [s]: [match[0]] and the rest. *)
Definition matchBlock (s : list ascii) : option (list ascii * list ascii) :=
  match matchHeading s with
  | None => None
  | Some (digits, r) =>
      let '(body, rest) := lazyBody r in
      Some (str "## Pregunta " ++ digits ++ [nl; nl] ++ body, rest)
  end.

(** [questionBlockRegex.exec] from the position where [s] starts: the
    leftmost match. *)
Fixpoint execBlock (s : list ascii) : option (list ascii * list ascii) :=
  match matchBlock s with
  | Some m => Some m
  | None => match s with [] => None | _ :: s' => execBlock s' end
  end.

(** Repeated [exec] of a global regular expression: each call resumes
    where the previous match ended ([lastIndex]). A match is never empty,
    so [length s] calls are enough. *)
Fixpoint execAll {M} (exec : list ascii -> option (M * list ascii))
    (fuel : nat) (s : list ascii) : list M :=
  match fuel with
  | 0 => []
  | S fuel' =>
      match exec s with
      | None => []
      | Some (m, rest) => m :: execAll exec fuel' rest
      end
  end.

(** Every [match[0]] of the [while] loop of [parseQuestions]. *)
Definition questionBlocks (markdownContent : list ascii) : list (list ascii) :=
  execAll execBlock (length markdownContent) markdownContent.

(** [questionNumberRegex.exec(questionBlock)[1]]: the digits of the
    leftmost heading. *)
Fixpoint execNumber (s : list ascii) : option (list ascii) :=
  let next := match s with [] => None | _ :: s' => execNumber s' end in
  match stripPrefix (str "## Pregunta ") s with
  | Some r => match fst (span isDigit r) with
              | [] => next
              | (_ :: _) as digits => Some digits
              end
  | None => next
  end.

(** The test of [extractQuestionContent] for an option line: optional
    stars, a capital letter, optional stars, a dot, from the line's start. *)
Definition optionStart (line : list ascii) : bool :=
  match optStars line with
  | c :: r => isUpper c && match optStars r with
                           | d :: _ => eqc d "."%char
                           | [] => false
                           end
  | [] => false
  end.

(** The text group of [optionRegex] and the end-of-line anchor under the
    [m] flag: the characters up to the next line terminator or the end, at
    least one. *)
Definition textToEol (s : list ascii) : option (list ascii * list ascii) :=
  let '(t, r) := span (fun c => negb (isLineTerminator c)) s in
  match t with [] => None | _ :: _ => Some (t, r) end.

(** The whitespace run of [optionRegex] after its first character, and the
    text: the greedy run takes one more whitespace character when the rest
    then matches, and stops here otherwise. *)
Fixpoint moreSpaces (s : list ascii) : option (list ascii * list ascii) :=
  match s with
  | c :: s' =>
      if isSpace c then
        match moreSpaces s' with
        | Some m => Some m
        | None => textToEol s
        end
      else textToEol s
  | [] => None
  end.

(** One or more whitespace characters, then the text up to the line's end. *)
Definition spacesThenText (s : list ascii) : option (list ascii * list ascii) :=
  match s with
  | c :: s' => if isSpace c then moreSpaces s' else None
  | [] => None
  end.

(** [optionRegex] at a line start: the letter, [match[2]] and the rest. *)
Definition matchOption (s : list ascii) : option ((ascii * list ascii) * list ascii) :=
  match optStars s with
  | c :: r =>
      if isUpper c then
        let dots := snd (span (eqc "."%char) (optStars r)) in
        match spacesThenText dots with
        | Some (text, rest) => Some ((c, text), rest)
        | None => None
        end
      else None
  | [] => None
  end.

(** [optionRegex.exec]: the leftmost match at a line start; [lineStart]
    says whether [^] holds where [s] starts. *)
Fixpoint execOption (lineStart : bool) (s : list ascii)
    : option ((ascii * list ascii) * list ascii) :=
  let next := match s with
              | [] => None
              | c :: s' => execOption (isLineTerminator c) s'
              end in
  if lineStart then
    match matchOption s with
    | Some m => Some m
    | None => next
    end
  else next.

(** Every match of [optionRegex] in a block, in order. After a match the
    search resumes behind [match[2]], which is not a line start. *)
Definition optionMatches (questionBlock : list ascii) : list (ascii * list ascii) :=
  match execOption true questionBlock with
  | None => []
  | Some (m, rest) => m :: execAll (execOption false) (length rest) rest
  end.

(** Is there a closing [mark] ahead with no line terminator before it? *)
Fixpoint closes (mark : list ascii) (s : list ascii) : bool :=
  startsWith mark s
  || match s with
     | c :: s' => negb (isLineTerminator c) && closes mark s'
     | [] => false
     end.

(** The first [replace] of [cleanOptionText]: every pair of stars that is
    closed by a later pair on the same line is removed with its closing
    pair. [inside] is set between an opening pair and its closing pair. *)
Fixpoint unbold (inside : bool) (s : list ascii) : list ascii :=
  match s with
  | [] => []
  | c :: s' =>
      match s' with
      | d :: r =>
          if eqc c star && eqc d star then
            if inside then unbold false r
            else if closes [star; star] r then unbold true r
            else c :: unbold false s'
          else c :: unbold inside s'
      | [] => [c]
      end
  end.

(** The second [replace] of [cleanOptionText], the same for single stars. *)
Fixpoint unitalic (inside : bool) (s : list ascii) : list ascii :=
  match s with
  | [] => []
  | c :: s' =>
      if eqc c star then
        if inside then unitalic false s'
        else if closes [star] s' then unitalic true s'
        else c :: unitalic false s'
      else c :: unitalic inside s'
  end.

Definition cleanOptionText (text : list ascii) : list ascii :=
  trim (unitalic false (unbold false text)).

(** The attribute at the start of [s]: the name, an equals sign, a
    non-empty value between double quotes, and a closing angle bracket
    somewhere behind it. *)
Definition attrValue (name : list ascii) (s : list ascii) : option (list ascii) :=
  match stripPrefix (name ++ ["="%char; quote]) s with
  | None => None
  | Some r =>
      let '(v, r1) := span (fun c => negb (eqc c quote)) r in
      match v, r1 with
      | _ :: _, _ :: r2 => if existsb (eqc ">"%char) r2 then Some v else None
      | _, _ => None
      end
  end.

(** Any characters but a closing angle bracket, then the attribute: the
    greedy run goes as far as it can and gives characters back until the
    rest matches. *)
Fixpoint attrGreedy (name : list ascii) (s : list ascii) : option (list ascii) :=
  match s with
  | c :: s' =>
      if eqc c ">"%char then attrValue name s
      else match attrGreedy name s' with
           | Some v => Some v
           | None => attrValue name s
           end
  | [] => attrValue name []
  end.

(** [correctAnswerRegex] and [inquireAnswerRegex]: the value of the
    attribute [name] of the leftmost [<as-button] tag that has one. *)
Fixpoint execAttr (name : list ascii) (s : list ascii) : option (list ascii) :=
  let here := match stripPrefix (str "<as-button") s with
              | Some r => attrGreedy name r
              | None => None
              end in
  match here with
  | Some v => Some v
  | None => match s with [] => None | _ :: s' => execAttr name s' end
  end.

(** *** Extraction *)

Definition extractQuestionContentLines : list (list ascii) -> list ascii :=
  fix go lines :=
    match lines with
    | [] => []
    | line :: rest =>
        if optionStart line then []
        else if includes (str "<as-button") line then []
        else line ++ nl :: go rest
    end.

Definition extractQuestionContent (questionBlock : list ascii) : list ascii :=
  trim (extractQuestionContentLines (skipn 2 (splitLines questionBlock))).

Definition extractAnswers (questionBlock : list ascii) : list (ascii * list ascii) :=
  fold_left (fun options m => set options (fst m) (cleanOptionText (trim (snd m))))
            (optionMatches questionBlock) [].

Definition extractCorrectAnswer (questionBlock : list ascii) : list ascii :=
  let fromMessage :=
    match execAttr (str "message") questionBlock with
    | Some messageValue => List.filter isUpper messageValue
    | None => []
    end in
  match execAttr (str "inquire") questionBlock with
  | Some inquireValue =>
      fold_left (fun correctAnswers char =>
                   if isUpper char && negb (existsb (eqc char) correctAnswers)
                   then correctAnswers ++ [char] else correctAnswers)
                inquireValue fromMessage
  | None => fromMessage
  end.

Inductive ExtractError :=
| NoQuestionNumber | NoQuestionContent | NoOptions | NoCorrectAnswer.

(** [extractQuestion(questionBlock, questionIndex)]; [now] is the time
    [new Date()] gives when the block is extracted. *)
Definition extractQuestion (now : Z) (questionBlock : list ascii) (questionIndex : nat)
    : ExtractError + Question :=
  match execNumber questionBlock with
  | None => inl NoQuestionNumber
  | Some questionNumber =>
      let questionContent := extractQuestionContent questionBlock in
      match questionContent with
      | [] => inl NoQuestionContent
      | _ :: _ =>
          let options := extractAnswers questionBlock in
          if length (keys options) =? 0 then inl NoOptions
          else
            let correctAnswers := extractCorrectAnswer questionBlock in
            if length correctAnswers =? 0 then inl NoCorrectAnswer
            else inr
              {| id := padStart0 3 questionNumber;
                 title := str "Pregunta " ++ questionNumber;
                 content := questionContent;
                 Data.options := options;
                 Data.correctAnswers := correctAnswers;
                 rawBlock := questionBlock;
                 extractionMetadata :=
                   {| Data.questionIndex := questionIndex;
                      blockLength := length questionBlock;
                      timestamp := now;
                      optionCount := length (keys options);
                      correctAnswerCount := length correctAnswers;
                      contentLength := length questionContent |} |}
      end
  end.

(** *** Validation *)

(** The messages of [addValidationError], with the value they report. *)
Inductive ValidationError :=
| MissingId | MissingTitle | MissingContent
| ContentTooShort (n : nat) | ContentTooLong (n : nat) | ContentBlank
| TooFewOptions (n : nat) | TooManyOptions (n : nat)
| RequiredOptionMissing (letter : ascii)
| OptionLetterInvalid (letter : ascii)
| OptionTextMissing (letter : ascii)
| OptionTextBlank (letter : ascii)
| OptionTextTooLong (letter : ascii) (n : nat)
| NoCorrectAnswers
| CorrectAnswerInvalid (a : ascii)
| CorrectAnswersDuplicated
| CorrectAnswerNotAnOption (a : ascii).

(** [validationRules] *)
Definition minContentLength : nat := 10.
Definition maxContentLength : nat := 2000.
Definition minOptions : nat := 2.
Definition maxOptions : nat := 8.
Definition requiredOptionLetters : list ascii := ["A"%char; "B"%char].
Definition maxOptionTextLength : nat := 500.

(** Each validator adds at most one error and returns [false] with it:
    [Some e] is that error, [None] is [true]. *)
Definition validateBasicStructure (q : Question) : option ValidationError :=
  match id q, title q, content q with
  | [], _, _ => Some MissingId
  | _, [], _ => Some MissingTitle
  | _, _, [] => Some MissingContent
  | _, _, _ => None
  end.

Definition validateQuestionContent (q : Question) : option ValidationError :=
  let content := content q in
  if length content <? minContentLength then Some (ContentTooShort (length content))
  else if maxContentLength <? length content then Some (ContentTooLong (length content))
  else if length (trim content) =? 0 then Some ContentBlank
  else None.

Definition validateSingleOption (letter : ascii) (text : list ascii)
    : option ValidationError :=
  if negb (isUpper letter) then Some (OptionLetterInvalid letter)
  else match text with
       | [] => Some (OptionTextMissing letter)
       | _ :: _ =>
           if length (trim text) =? 0 then Some (OptionTextBlank letter)
           else if maxOptionTextLength <? length text
                then Some (OptionTextTooLong letter (length text))
                else None
       end.

(** The first [Some] that [f] gives along [l]: a loop that returns at the
    first failure. *)
Fixpoint firstError {A} (f : A -> option ValidationError) (l : list A)
    : option ValidationError :=
  match l with
  | [] => None
  | x :: l' => match f x with Some e => Some e | None => firstError f l' end
  end.

Definition validateQuestionOptions (q : Question) : option ValidationError :=
  let options := options q in
  let optionKeys := keys options in
  if length optionKeys <? minOptions then Some (TooFewOptions (length optionKeys))
  else if maxOptions <? length optionKeys then Some (TooManyOptions (length optionKeys))
  else
    match firstError (fun requiredOption =>
                        if truthy (get options requiredOption) then None
                        else Some (RequiredOptionMissing requiredOption))
                     requiredOptionLetters with
    | Some e => Some e
    | None => firstError (fun entry => validateSingleOption (fst entry) (snd entry)) options
    end.

(** [[...new Set(a)]]: the first occurrence of each element, in order. *)
Definition uniqueOf (a : list ascii) : list ascii :=
  fold_left (fun u x => if existsb (eqc x) u then u else u ++ [x]) a [].

Definition validateCorrectAnswers (q : Question) : option ValidationError :=
  let correctAnswers := correctAnswers q in
  if length correctAnswers =? 0 then Some NoCorrectAnswers
  else
    match firstError (fun answer => if isUpper answer then None
                                    else Some (CorrectAnswerInvalid answer))
                     correctAnswers with
    | Some e => Some e
    | None =>
        if length (uniqueOf correctAnswers) =? length correctAnswers then None
        else Some CorrectAnswersDuplicated
    end.

Definition validateAnswerConsistency (q : Question) : option ValidationError :=
  firstError (fun answer => if truthy (get (options q) answer) then None
                            else Some (CorrectAnswerNotAnOption answer))
             (correctAnswers q).

(** *** The parser's state and its logs *)

Inductive LogEntry :=
| Validation (e : ValidationError)                  (* addValidationError *)
| ExtractionError (questionIndex : nat) (e : ExtractError) (* extractQuestion, catch *)
| BlockError (questionIndex : nat) (e : ExtractError)      (* parseQuestions, catch *)
| ValidationFailed (questionIndex : nat)            (* validateQuestion, warn *)
| QuestionOmitted (questionIndex : nat)             (* parseQuestions, warn *)
| QuestionsSkipped (n : nat)                        (* logParsingResults, warn *)
| NoValidProcessed                                  (* logParsingResults, error *)
| ContentNull                 (* validateMarkdownContent: falsy content *)
| ContentEmpty                (* validateMarkdownContent: blank content *)
| NoQuestionBlocks.           (* validateMarkdownContent: the regex finds nothing *)

Record ParserState := {
  validationErrors : list LogEntry;
  parsingWarnings : list LogEntry;
  processedQuestions : nat;
  skippedQuestions : nat
}.

(** [log('error', ...)] *)
Definition pushError (e : LogEntry) (st : ParserState) : ParserState :=
  {| validationErrors := validationErrors st ++ [e];
     parsingWarnings := parsingWarnings st;
     processedQuestions := processedQuestions st;
     skippedQuestions := skippedQuestions st |}.

(** [log('warn', ...)] *)
Definition pushWarning (e : LogEntry) (st : ParserState) : ParserState :=
  {| validationErrors := validationErrors st;
     parsingWarnings := parsingWarnings st ++ [e];
     processedQuestions := processedQuestions st;
     skippedQuestions := skippedQuestions st |}.

Definition countProcessed (st : ParserState) : ParserState :=
  {| validationErrors := validationErrors st;
     parsingWarnings := parsingWarnings st;
     processedQuestions := S (processedQuestions st);
     skippedQuestions := skippedQuestions st |}.

Definition countSkipped (st : ParserState) : ParserState :=
  {| validationErrors := validationErrors st;
     parsingWarnings := parsingWarnings st;
     processedQuestions := processedQuestions st;
     skippedQuestions := S (skippedQuestions st) |}.

Definition resetParsingState (st : ParserState) : ParserState :=
  {| validationErrors := []; parsingWarnings := [];
     processedQuestions := 0; skippedQuestions := 0 |}.

(** [validateQuestion(questionData, questionIndex)]: the errors of this
    question replace [validationErrors]; all five validators run. *)
Definition validateQuestion (q : Question) (questionIndex : nat) (st : ParserState)
    : ParserState * bool :=
  let errors :=
    omap (fun v => v q)
         [validateBasicStructure; validateQuestionContent; validateQuestionOptions;
          validateCorrectAnswers; validateAnswerConsistency] in
  let st1 := {| validationErrors := map Validation errors;
                parsingWarnings := parsingWarnings st;
                processedQuestions := processedQuestions st;
                skippedQuestions := skippedQuestions st |} in
  match errors with
  | [] => (st1, true)
  | _ :: _ => (pushWarning (ValidationFailed questionIndex) st1, false)
  end.

(** *** Parsing *)

Inductive ParseError :=
| InvalidMarkdownContent     (* the content is not valid for parsing *)
| NoValidQuestions.          (* no valid question was found in the file *)

Definition validateMarkdownContent (content : list ascii) (st : ParserState)
    : ParserState * bool :=
  match content with
  | [] => (pushError ContentNull st, false)
  | _ :: _ =>
      if length (trim content) =? 0 then (pushError ContentEmpty st, false)
      else match execBlock content with
           | Some _ => (st, true)
           | None => (pushError NoQuestionBlocks st, false)
           end
  end.

(** One turn of the [while] loop of [parseQuestions]. A [throw] of
    [extractQuestion] is logged there, thrown again, and caught by the loop,
    which counts the block as skipped and goes on. *)
Definition processBlock (clock : nat -> Z)
    (acc : ParserState * list Question * nat) (fullBlock : list ascii)
    : ParserState * list Question * nat :=
  let '(st, questions, count) := acc in
  let questionIndex := S count in
  match extractQuestion (clock questionIndex) fullBlock questionIndex with
  | inl e =>
      (pushError (BlockError questionIndex e)
         (countSkipped (pushError (ExtractionError questionIndex e) st)),
       questions, questionIndex)
  | inr questionData =>
      let '(st1, ok) := validateQuestion questionData questionIndex st in
      if ok then (countProcessed st1, questions ++ [questionData], questionIndex)
      else (pushWarning (QuestionOmitted questionIndex) (countSkipped st1),
            questions, questionIndex)
  end.

Definition logParsingResults (validQuestions : nat) (st : ParserState) : ParserState :=
  let st1 := if 0 <? skippedQuestions st
             then pushWarning (QuestionsSkipped (skippedQuestions st)) st else st in
  if validQuestions =? 0 then pushError NoValidProcessed st1 else st1.

(** [parseQuestions(markdownContent)]; [clock i] is the time at which the
    [i]-th block is extracted. The parser object keeps its state between
    calls: [st] is the state the call finds. ([questionBlockRegex.lastIndex]
    is 0 whenever a call starts, every path out of a call leaves it so.) *)
Definition parseQuestions (clock : nat -> Z) (markdownContent : list ascii)
    (st : ParserState) : ParserState * (ParseError + list Question) :=
  let st0 := resetParsingState st in
  let '(st1, ok) := validateMarkdownContent markdownContent st0 in
  if negb ok then (st1, inl InvalidMarkdownContent)
  else
    let '(st2, questions, questionIndex) :=
      fold_left (processBlock clock) (questionBlocks markdownContent) (st1, [], 0) in
    let st3 := logParsingResults (length questions) st2 in
    if length questions =? 0 then (st3, inl NoValidQuestions)
    else (st3, inr questions).

End MarkdownParser.

(** * Sample data *)

Module Samples.

Import JS MarkdownParser QuizEngine.

(** An empty line. *)
Definition blank : string := EmptyString.

(** The sample documents write the attribute quotes as apostrophes; the
    parser wants double quotes. *)
Definition dq (s : list ascii) : list ascii :=
  map (fun c => if eqc c "'"%char then quote else c) s.

(** A document of one question whose control marker lists C before B. *)
Definition docCB : list ascii :=
  dq (unlines [ "## Pregunta 002"; blank;
                "This question tests multiple correct answers."; blank;
                "A. First option";
                "**B**. Second option (correct)";
                "**C**. Third option (correct)";
                "D. Fourth option"; blank;
                "<as-button label='Test Answer' message='CB'></as-button>" ]%string).


(** A block in which the letter A heads two option lines. *)
Definition blockTwiceA : list ascii :=
  unlines [ "## Pregunta 7"; blank;
            "Which letter comes first?"; blank;
            "A. first";
            "B. second";
            "A. third" ]%string.

Definition freshParser : ParserState :=
  {| validationErrors := []; parsingWarnings := [];
     processedQuestions := 0; skippedQuestions := 0 |}.

Definition noMeta : Metadata :=
  {| Data.questionIndex := 1; blockLength := 0; Data.timestamp := 0;
     optionCount := 4; correctAnswerCount := 2; contentLength := 24 |}.

(** A question with the options A to D and the given correct answers. *)
Definition fourOptions (ca : list ascii) : Question :=
  {| id := str "002"; title := str "Pregunta 002";
     content := str "Which options are right?";
     options := [("A"%char, str "First option"); ("B"%char, str "Second option");
                 ("C"%char, str "Third option"); ("D"%char, str "Fourth option")];
     correctAnswers := ca; rawBlock := []; extractionMetadata := noMeta |}.

(** The pool parsed from [docCB]. *)
Definition poolCB : list Question :=
  default [] (returned (snd (parseQuestions (fun _ => 0%Z) docCB freshParser))).

(** A source of randomness that always returns 0. *)
Definition zeroRng (i : nat) : Rand := {| rnum := 0; rgap := 0 |}.

(** The session over the one-question pool with correct answers [ca]. *)
Definition sessionOf (ca : list ascii) : Engine :=
  match constructor zeroRng [fourOptions ca] 1 with
  | inr s => s
  | inl _ => {| heap := []; allQuestions := []; numberOfQuestions := 0;
                selectedQuestions := []; currentIndex := 0; userAnswers := [];
                startTime := None; endTime := None; isCompleted := false;
                engineErrors := []; validationWarnings := [] |}
  end.

(** The outcome of a call that returned. *)
Definition outcome (r : EngineError + Outcome) : Outcome :=
  match r with
  | inr o => o
  | inl _ => {| questionIndex := 0; answer := []; isCorrect := false;
                questionId := []; QuizEngine.timestamp := 0 |}
  end.

End Samples.

(** * The rest of the engine, and the application around it *)

(** ** Numbers *)

Module Double.

(** The arithmetic of JavaScript numbers, as far as the engine uses it: the
    quotient of two array lengths, its product with 100, and [Math.round].
    A finite double is [m * 2^e] with an integer [m] of at most 53 bits; the
    values met here are far from the subnormal range and from overflow. *)

(** The double nearest to [num / den] (both positive), ties to the even
    mantissa, as a mantissa and an exponent. *)
Definition nearest (num den : Z) : Z * Z :=
  let e0 := (Z.log2 num - Z.log2 den - 52)%Z in
  let scaled e := if (0 <=? e)%Z then (num, den * 2 ^ e)%Z
                  else (num * 2 ^ (- e), den)%Z in
  let e := if (fst (scaled e0) / snd (scaled e0) <? 2 ^ 52)%Z
           then (e0 - 1)%Z else e0 in
  let '(n, d) := scaled e in
  let q := (n / d)%Z in
  let r := (n mod d)%Z in
  let m := if (2 * r <? d)%Z then q
           else if (d <? 2 * r)%Z then (q + 1)%Z
           else if Z.even q then q else (q + 1)%Z in
  (m, e).

(** The value [m * 2^e] as a fraction. *)
Definition fraction (x : Z * Z) : Z * Z :=
  let '(m, e) := x in
  if (0 <=? e)%Z then (m * 2 ^ e, 1)%Z else (m, 2 ^ (- e))%Z.

(** What [Math.round] returns. *)
Inductive Rounded := NaN | Infinity | Int (z : Z).

(** [Math.round((a / b) * 100)] for two array lengths or counts. *)
Definition roundRatio100 (a b : nat) : Rounded :=
  match b, a with
  | 0, 0 => NaN
  | 0, S _ => Infinity
  | S _, 0 => Int 0
  | S _, S _ =>
      let '(n, d) := fraction (nearest (Z.of_nat a) (Z.of_nat b)) in
      let '(n', d') := fraction (nearest (100 * n) d) in
      Int ((2 * n' + d') / (2 * d'))
  end.

End Double.

(** ** QuizEngine, the remaining methods *)

Module QuizEngineOps.

Import JS QuizEngine.

(** [previousQuestion()] *)
Definition previousQuestion (s : Engine) : Engine * option View :=
  if 0 <? currentIndex s then
    let s' := setCurrentIndex (currentIndex s - 1) s in
    (s', getCurrentQuestion s')
  else (s, None).

(** [restart()] *)
Definition restart (s : Engine) : Engine :=
  {| heap := heap s; allQuestions := allQuestions s;
     numberOfQuestions := numberOfQuestions s;
     selectedQuestions := selectedQuestions s; currentIndex := 0;
     userAnswers := replicate (length (selectedQuestions s)) None;
     startTime := None; endTime := None; isCompleted := false;
     engineErrors := engineErrors s;
     validationWarnings := validationWarnings s |}.

(** [startNewQuiz(numberOfQuestions = null)]; [None] is [null]. *)
Definition startNewQuiz (rng : nat -> Rand) (count : option Z) (s : Engine) : Engine :=
  selectRandomQuestions rng
    {| heap := heap s; allQuestions := allQuestions s;
       numberOfQuestions :=
         match count with
         | Some k => Z.min k (Z.of_nat (length (allQuestions s)))
         | None => numberOfQuestions s
         end;
       selectedQuestions := selectedQuestions s; currentIndex := 0;
       userAnswers := userAnswers s;
       startTime := None; endTime := None; isCompleted := false;
       engineErrors := engineErrors s;
       validationWarnings := validationWarnings s |}.

(** The getters [progress], [isStarted] and [questionsRemaining]; the last
    one is a difference of numbers and can be negative. *)
Record Progress := {
  current : nat;
  total : nat;
  percentage : Double.Rounded
}.

Definition progress (s : Engine) : Progress :=
  {| current := currentIndex s + 1;
     total := length (selectedQuestions s);
     percentage := Double.roundRatio100 (currentIndex s + 1)
                                        (length (selectedQuestions s)) |}.

Definition isStarted (s : Engine) : bool :=
  match startTime s with Some _ => true | None => false end.

Definition questionsRemaining (s : Engine) : Z :=
  (Z.of_nat (length (selectedQuestions s)) - Z.of_nat (currentIndex s) - 1)%Z.

(** [userAnswers.filter(answer => answer !== null).length] *)
Definition answeredCount (s : Engine) : nat :=
  length (List.filter (fun a => match a with Some _ => true | None => false end)
                      (userAnswers s)).

Record Stats := {
  questionsAnswered : nat;
  statsRemaining : Z;          (* questionsRemaining *)
  correctSoFar : nat;
  currentAccuracy : Double.Rounded
}.

(** [getCurrentStats()]: its loop runs over the indices 0 to [currentIndex]
    and reads [userAnswers[i]]; it goes through [isAnswerCorrect] and so
    through the store. *)
Definition getCurrentStats (s : Engine) : Engine * Stats :=
  let answers :=
    map (fun i => mjoin (userAnswers s !! i)) (seq 0 (S (currentIndex s))) in
  let '(s', c) := countCorrect 0 answers s in
  (s', {| questionsAnswered := answeredCount s;
          statsRemaining :=
            (Z.of_nat (length (selectedQuestions s)) - Z.of_nat (answeredCount s))%Z;
          correctSoFar := c;
          currentAccuracy :=
            if 0 <? answeredCount s
            then Double.roundRatio100 c (answeredCount s)
            else Double.Int 0 |}).

(** [getResults()] *)

(** [options[letter]] inside a template string. *)
Definition optionText (o : list (ascii * list ascii)) (letter : ascii) : list ascii :=
  default (str "undefined") (get o letter).

(** [a.join(', ')] *)
Fixpoint joinComma (l : list (list ascii)) : list ascii :=
  match l with
  | [] => []
  | [x] => x
  | x :: l' => x ++ str ", " ++ joinComma l'
  end.

(** The text shown for a stored answer. *)
Definition userAnswerTextOf (q : Question) (userAnswer : option (list ascii))
    : list ascii :=
  match userAnswer with
  | Some ((_ :: _) as a) =>
      if 1 <? length a then
        joinComma (map (fun letter => letter :: str ". " ++ optionText (options q) letter) a)
      else a ++ str ". " ++ default (str "undefined") (getByString (options q) a)
  | _ => str "Sin respuesta"
  end.

Module Detail.

(** One entry of [details]; [question] is the address of the question
    object, [correctAnswers] its array as it stands when the entry is made. *)
Record t := {
  questionNumber : nat;
  question : nat;
  userAnswer : option (list ascii);
  correctAnswers : list ascii;
  isCorrect : bool;
  userAnswerText : list ascii;
  correctAnswerTexts : list (option (list ascii))
}.

End Detail.

(** The loop of [getResults] over the selection, from index [i] on. *)
Fixpoint detailsFrom (i : nat) (selected : list nat) (s : Engine)
    : Engine * list Detail.t :=
  match selected with
  | [] => (s, [])
  | a :: rest =>
      let userAnswer := mjoin (userAnswers s !! i) in
      let '(s1, ok) :=
        match userAnswer with
        | Some ((_ :: _) as ans) => isAnswerCorrect i ans s
        | _ => (s, false)
        end in
      match heap s1 !! a with
      | Some q =>
          let d := {| Detail.questionNumber := i + 1;
                      Detail.question := a;
                      Detail.userAnswer := userAnswer;
                      Detail.correctAnswers := Data.correctAnswers q;
                      Detail.isCorrect := ok;
                      Detail.userAnswerText := userAnswerTextOf q userAnswer;
                      Detail.correctAnswerTexts :=
                        map (get (options q)) (Data.correctAnswers q) |} in
          let '(s2, ds) := detailsFrom (S i) rest s1 in
          (s2, d :: ds)
      | None => (s1, [])
      end
  end.

Module Results.

Record t := {
  score : Double.Rounded;
  correctCount : nat;
  totalQuestions : nat;
  percentage : Double.Rounded;
  details : list Detail.t;
  duration : Z;
  startTime : option Z;
  endTime : option Z
}.

End Results.

Inductive ResultsError := QuizNotCompleted.

(** [Math.round((this.endTime - this.startTime) / 1000)], or 0 when one of
    the two is [null]; the times are milliseconds. *)
Definition durationOf (s : Engine) : Z :=
  match endTime s, startTime s with
  | Some e, Some b => ((e - b + 500) / 1000)%Z
  | _, _ => 0%Z
  end.

(** [getResults()]. The count of correct answers is that of
    [calculateScore]. The score is [scoreData.score], that is
    [Math.round((correctCount / total) * 100)] on these two counts, and it
    is computed here as doubles compute it: [QuizEngine.percentage] does
    the same in exact arithmetic, which gives 58 and not 57 for 23 of 40
    and for 46 of 80. *)
Definition getResults (s : Engine) : Engine * (ResultsError + Results.t) :=
  if negb (isCompleted s) then (s, inl QuizNotCompleted)
  else
    let '(s1, scoreData) := calculateScore s in
    let '(s2, details) := detailsFrom 0 (selectedQuestions s1) s1 in
    let score := Double.roundRatio100 (correctCount scoreData) (scoreTotal scoreData) in
    (s2, inr {| Results.score := score;
                Results.correctCount := correctCount scoreData;
                Results.totalQuestions := scoreTotal scoreData;
                Results.percentage := score;
                Results.details := details;
                Results.duration := durationOf s2;
                Results.startTime := QuizEngine.startTime s2;
                Results.endTime := QuizEngine.endTime s2 |}).

End QuizEngineOps.

(** ** QuizApp, the handlers that drive the engine *)

Module QuizApp.

Import JS QuizEngine QuizEngineOps.

(** What the handlers show to the user when something is thrown. *)
Inductive AppError :=
| AppNotInitialized            (* validateQuizStartConditions *)
| QuestionListEmpty            (* validateQuizStartConditions *)
| InvalidQuestionCount         (* validateQuizStartConditions: falsy or below 1 *)
| QuestionCountTooHigh         (* validateQuizStartConditions: above 100 *)
| EngineSetupError (e : EngineError)  (* handleStartQuiz: the constructor threw *)
| EngineMissing                (* no quiz engine *)
| NoCurrentQuestion            (* displayCurrentQuestion *)
| AnswerError (e : EngineError)       (* handleAnswerSubmitted: submitAnswer threw *)
| ResultsUnavailable.          (* displayResults: getResults threw *)

(** The application's state, as far as the handlers go. The question
    objects of [questions] are the objects of the engine's store: what the
    engine does to its store, it does to them. *)
Record App := {
  questions : list Question;
  isInitialized : bool;
  quizEngine : option Engine
}.

Definition withEngine (e : Engine) (app : App) : App :=
  {| questions := heap e; isInitialized := isInitialized app;
     quizEngine := Some e |}.

(** [validateQuizStartConditions(questionCount)] for a count that is an
    integer. *)
Definition validateQuizStartConditions (questionCount : Z) (app : App)
    : option AppError :=
  if negb (isInitialized app) then Some AppNotInitialized
  else if length (questions app) =? 0 then Some QuestionListEmpty
  else if (questionCount <? 1)%Z then Some InvalidQuestionCount
  else if (100 <? questionCount)%Z then Some QuestionCountTooHigh
  else None.

(** [displayCurrentQuestion()]: what it shows as an error, if anything. *)
Definition displayCurrentQuestion (app : App) : option AppError :=
  match quizEngine app with
  | None => Some EngineMissing
  | Some e =>
      match getCurrentQuestion e with
      | None => Some NoCurrentQuestion
      | Some _ => None
      end
  end.

(** [handleStartQuiz(event)] for an event whose file name is the current
    one (another file name starts an asynchronous load, which is not part
    of this call). *)
Definition handleStartQuiz (rng : nat -> Rand) (questionCount : Z) (app : App)
    : App * option AppError :=
  match validateQuizStartConditions questionCount app with
  | Some e => (app, Some e)
  | None =>
      let actualQuestionCount :=
        Z.min questionCount (Z.of_nat (length (questions app))) in
      match constructor rng (questions app) actualQuestionCount with
      | inl e => (app, Some (EngineSetupError e))
      | inr engine =>
          let app' := withEngine engine app in
          (app', displayCurrentQuestion app')
      end
  end.

(** [handleAnswerSubmitted(event)]; [now] is the time [submitAnswer] reads,
    [later] the time [nextQuestion] reads. When [nextQuestion] returns
    [null] the results are displayed, which calls [getResults]. *)
Definition handleAnswerSubmitted (now later : Z) (answer : list ascii) (app : App)
    : App * option AppError :=
  match quizEngine app with
  | None => (app, Some EngineMissing)
  | Some e =>
      let '(e1, r) := submitAnswer now answer e in
      match r with
      | inl err => (withEngine e1 app, Some (AnswerError err))
      | inr _ =>
          let '(e2, next) := nextQuestion later e1 in
          match next with
          | Some _ =>
              let app' := withEngine e2 app in
              (app', displayCurrentQuestion app')
          | None =>
              let '(e3, res) := getResults e2 in
              (withEngine e3 app,
               match res with inl _ => Some ResultsUnavailable | inr _ => None end)
          end
      end
  end.

(** [handleNewQuiz(event)] *)
Definition handleNewQuiz (rng : nat -> Rand) (app : App) : App * option AppError :=
  match quizEngine app with
  | Some e =>
      let app' := withEngine (startNewQuiz rng None e) app in
      (app', displayCurrentQuestion app')
  | None => (app, None)
  end.

(** What the user does, and the run of the handlers over it. *)
Inductive Event :=
| StartQuiz (rng : nat -> Rand) (questionCount : Z)
| AnswerSubmitted (now later : Z) (answer : list ascii)
| NewQuiz (rng : nat -> Rand).

Definition handle (ev : Event) (app : App) : App :=
  match ev with
  | StartQuiz rng n => fst (handleStartQuiz rng n app)
  | AnswerSubmitted now later a => fst (handleAnswerSubmitted now later a app)
  | NewQuiz rng => fst (handleNewQuiz rng app)
  end.

Definition run (events : list Event) (app : App) : App :=
  fold_left (fun a ev => handle ev a) events app.

End QuizApp.

(** * Notions used in the statements *)

Module EngineNotions.

Import JS QuizEngine.

(** The checks [submitAnswer] makes before it looks at the answer. *)
Definition passesStateChecks (s : Engine) : bool :=
  match validateQuizState s with
  | Some _ => false
  | None => negb (length (selectedQuestions s) <=? currentIndex s)
  end.

(** The start time is set if it was not. *)
Definition stamped (now : Z) (s : Engine) : Engine :=
  match startTime s with
  | None => setStartTime (Some now) s
  | Some _ => s
  end.

(** An answer that the format rules refuse: empty, longer than ten
    characters, or with a character that is not a capital letter. *)
Definition malformed (a : list ascii) : Prop :=
  a = [] \/ 10 < length a \/ exists c, c ∈ a /\ isUpper c = false.


(** Two question objects that differ at most in the order of their correct
    answers, and two stores of such objects. *)
Definition sameQuestion (q q' : Question) : Prop :=
  withCorrectAnswers q [] = withCorrectAnswers q' []
  /\ correctAnswers q ≡ₚ correctAnswers q'.

Definition sameStore (h h' : list Question) : Prop := Forall2 sameQuestion h h'.

(** The invariant of a running session: the current index points into the
    selection, and the selection points to questions of the store whose
    option texts are not empty. *)
Definition textsNonEmpty (q : Question) : Prop :=
  Forall (fun kv => snd kv <> []) (options q).

Definition wellFormed (s : Engine) : Prop :=
  currentIndex s < length (selectedQuestions s)
  /\ Forall (fun a => exists q, heap s !! a = Some q /\ textsNonEmpty q)
            (selectedQuestions s).

End EngineNotions.

Module ParserNotions.

Import JS MarkdownParser.

Definition mem (k : ascii) (l : list ascii) : bool := existsb (eqc k) l.

(** The letters of a list in the order of their first appearance. *)
Fixpoint firstAppearances (l : list ascii) : list ascii :=
  match l with
  | [] => []
  | x :: l' => x :: List.filter (fun y => negb (eqc x y)) (firstAppearances l')
  end.

(** The text of the last match that carries [letter]. *)
Definition lastWith (letter : ascii) (ms : list (ascii * list ascii))
    : option (list ascii) :=
  snd <$> last (List.filter (fun m => eqc (fst m) letter) ms).

(** A document has a question heading when the heading pattern matches
    somewhere in it. *)
Definition containsHeading (markdownContent : list ascii) : Prop :=
  exists before from, markdownContent = before ++ from /\ is_Some (matchHeading from).

(** Did the five validators accept the question? *)
Definition isValid (q : Question) : bool :=
  match omap (fun v => v q)
             [validateBasicStructure; validateQuestionContent;
              validateQuestionOptions; validateCorrectAnswers;
              validateAnswerConsistency] with
  | [] => true
  | _ :: _ => false
  end.

(** The record a block yields, if it is extracted and valid. *)
Definition accepted (now : Z) (questionIndex : nat) (fullBlock : list ascii)
    : option Question :=
  match extractQuestion now fullBlock questionIndex with
  | inr q => if isValid q then Some q else None
  | inl _ => None
  end.

(** The records of the blocks that are kept, in the order of the blocks;
    [count] blocks came before. *)
Fixpoint acceptedFrom (clock : nat -> Z) (count : nat) (blocks : list (list ascii))
    : list Question :=
  match blocks with
  | [] => []
  | b :: blocks' =>
      match accepted (clock (S count)) (S count) b with
      | Some q => q :: acceptedFrom clock (S count) blocks'
      | None => acceptedFrom clock (S count) blocks'
      end
  end.



End ParserNotions.

(** * Notions used in the further properties *)

Module MoreNotions.

Import JS QuizEngine QuizEngineOps Samples.

(** The stored answers that count: neither [null] nor empty. *)
Definition counts (a : option (list ascii)) : bool :=
  match a with Some (_ :: _) => true | _ => false end.

(** The calls a user of the engine can make on a session, short of starting
    over, and what they do to the session. *)
Inductive Op :=
| Submit (now : Z) (answer : list ascii)
| Next (now : Z)
| Previous
| Score
| CurrentStats
| GetResults.

Definition step (s : Engine) (op : Op) : Engine :=
  match op with
  | Submit now a => fst (submitAnswer now a s)
  | Next now => fst (nextQuestion now s)
  | Previous => fst (previousQuestion s)
  | Score => fst (calculateScore s)
  | CurrentStats => fst (getCurrentStats s)
  | GetResults => fst (getResults s)
  end.

(** Every selected address is an object of the store. *)
Definition addressesValid (s : Engine) : Prop :=
  Forall (fun a => is_Some (heap s !! a)) (selectedQuestions s).

(** Every selected question has a stored answer that is not empty. *)
Definition allAnswered (s : Engine) : Prop :=
  forall i, i < length (selectedQuestions s) ->
            exists a, userAnswers s !! i = Some (Some a) /\ a <> [].

(** The session [s] with another store and another error log. *)
Definition withStoreAndLog (h : list Question) (errors : list EngineError)
    (s : Engine) : Engine :=
  {| heap := h; allQuestions := allQuestions s;
     numberOfQuestions := numberOfQuestions s;
     selectedQuestions := selectedQuestions s; currentIndex := currentIndex s;
     userAnswers := userAnswers s; startTime := startTime s;
     endTime := endTime s; isCompleted := isCompleted s;
     engineErrors := errors;
     validationWarnings := validationWarnings s |}.

(** The two pairs of a count of correct answers and a total, up to 100
    questions, at which the product with 100 falls below the half. *)
Definition belowHalf (c n : nat) : bool :=
  ((c =? 23) && (n =? 40)) || ((c =? 46) && (n =? 80)).

(** The percentage of [c] in [n], rounded half up, or what doubles make of
    it at the two pairs above. *)
Definition expectedScore (c n : nat) : Z :=
  if belowHalf c n then 57%Z else Z.of_nat ((200 * c + n) / (2 * n)).

(** The check of all counts for all totals from 1 to [m]. *)
Definition scoresAgree (m : nat) : bool :=
  forallb (fun n =>
             forallb (fun c =>
                        match Double.roundRatio100 c n with
                        | Double.Int z => Z.eqb z (expectedScore c n)
                        | _ => false
                        end)
                     (seq 0 (S n)))
          (seq 1 m).

(** What every record of a parsed pool satisfies. *)
Definition wellFormedRecord (q : Question) : Prop :=
  id q <> [] /\ title q <> []
  /\ 10 <= length (content q) <= 2000 /\ trim (content q) <> []
  /\ 2 <= length (options q) <= 8
  /\ NoDup (keys (options q))
  /\ "A"%char ∈ keys (options q) /\ "B"%char ∈ keys (options q)
  /\ Forall (fun kv => isUpper (fst kv) = true
                       /\ trim (snd kv) <> []
                       /\ 1 <= length (snd kv) <= 500) (options q)
  /\ correctAnswers q <> []
  /\ Forall (fun a => isUpper a = true) (correctAnswers q)
  /\ NoDup (correctAnswers q)
  /\ Forall (fun a => a ∈ keys (options q)) (correctAnswers q).

(** The text made of the gaps and the blocks in turn, a gap first and a gap
    last. *)
Fixpoint weave (gaps blocks : list (list ascii)) : list ascii :=
  match gaps, blocks with
  | g :: gaps', b :: blocks' => g ++ b ++ weave gaps' blocks'
  | g :: _, [] => g
  | [], _ => []
  end.

(** A question block: the heading with its digits, two line feeds and a
    body within which none of the marks that end a block begins. *)
Definition blockShape (b : list ascii) (digits body : list ascii) : Prop :=
  b = str "## Pregunta " ++ digits ++ [MarkdownParser.nl; MarkdownParser.nl] ++ body
  /\ digits <> [] /\ Forall (fun c => isDigit c = true) digits
  /\ forall b1 b2, body = b1 ++ b2 -> b2 <> [] ->
        startsWith (str "## Pregunta") b2 = false
        /\ startsWith (MarkdownParser.nl :: str "---") b2 = false
        /\ startsWith (MarkdownParser.nl :: str "#") b2 = false.

(** Every question before the current one has a stored answer that is not
    empty. *)
Definition answeredBefore (s : Engine) : Prop :=
  forall i, i < currentIndex s ->
            exists a, userAnswers s !! i = Some (Some a) /\ a <> [].

(** A session as the application keeps it: of 1 to 100 different questions
    of the store, at one of them, with an answer to every question before
    it, and to every question once it is completed. *)
Definition running (s : Engine) : Prop :=
  1 <= length (selectedQuestions s) <= 100
  /\ currentIndex s < length (selectedQuestions s)
  /\ NoDup (selectedQuestions s)
  /\ addressesValid s
  /\ answeredBefore s
  /\ (isCompleted s = true -> allAnswered s).

(** What [startNewQuiz] needs besides, to draw again. *)
Definition redrawable (s : Engine) : Prop :=
  length (selectedQuestions s)
  = Nat.min (Z.to_nat (numberOfQuestions s)) (length (allQuestions s))
  /\ NoDup (allQuestions s)
  /\ Forall (fun a => is_Some (heap s !! a)) (allQuestions s).

(** The session that the application holds, if any, is a running one. *)
Definition holdsRunning (app : QuizApp.App) : Prop :=
  match QuizApp.quizEngine app with
  | None => True
  | Some e => running e /\ redrawable e
  end.

(** The application after its initialisation, before any quiz. *)
Definition appOf (pool : list Question) : QuizApp.App :=
  {| QuizApp.questions := pool; QuizApp.isInitialized := true;
     QuizApp.quizEngine := None |}.

(** A session over two questions, the first with two correct answers. *)
Definition sessionTwo : Engine :=
  match constructor zeroRng [fourOptions (str "BC"); fourOptions (str "A")] 2 with
  | inr s => s
  | inl _ => sessionOf []
  end.

End MoreNotions.

(** * Lists *)

Module Lists.

Lemma filter_all {A} (f : A -> bool) (l : list A) :
  (forall x, In x l -> f x = true) -> List.filter f l = l.
Proof.
  induction l as [|x l IH]; simpl; intros H; [done|].
  rewrite H by auto. f_equal. auto.
Qed.

End Lists.

Import Lists.

(** * The quiz engine: properties *)

Module QuizEngineFacts.

Import JS QuizEngine Samples EngineNotions.

(** ** Correctness of an answer *)

(** C1 (the code departs from the claim). With the correct answers B and C,
    [submitAnswer] reports the answer CB as correct and BCD as incorrect,
    but it reports the single letter B as correct too: an answer of one
    letter goes through the single-selection branch of [isAnswerCorrect],
    which only asks whether the letter is one of the correct answers. *)
Theorem submitAnswer_single_letter_of_two :
  let s := sessionOf (str "BC") in
  let verdict a := isCorrect <$> returned (snd (submitAnswer 5 (str a) s)) in
  constructor zeroRng [fourOptions (str "BC")] 1 = inr s
  /\ verdict "CB"%string = Some true
  /\ verdict "BCD"%string = Some false
  /\ verdict "B"%string = Some true.
Proof. vm_compute. auto. Qed.

(** ** Construction *)

Lemma floorMul_lt u n : 0 < n -> floorMul u n < n.
Proof.
  intros Hn. unfold floorMul.
  apply Nat.Div0.div_lt_upper_bound. nia.
Qed.

Lemma drawLoop_length rng n : forall i available selected,
  length (drawLoop rng i n available selected)
  = length selected + Nat.min n (length available).
Proof.
  induction n as [|n IH]; intros i available selected; cbn [drawLoop].
  - simpl. lia.
  - destruct available as [|a available'] eqn:E.
    + simpl. lia.
    + rewrite <- E.
      assert (Hlen : 0 < length available) by (subst; simpl; lia).
      pose proof (floorMul_lt (rng i) _ Hlen) as Hlt.
      destruct (lookup_lt_is_Some_2 available _ Hlt) as [q Hq].
      rewrite Hq, IH, length_app, length_delete by eauto.
      cbn [length]. lia.
Qed.

Lemma validAddresses_all (pool : list Question) :
  Forall (fun q => validateQuestionStructure q = true) pool ->
  validAddresses pool = seq 0 (length pool).
Proof.
  intros Hall. apply filter_all. intros a Ha.
  apply in_seq in Ha.
  destruct (lookup_lt_is_Some_2 pool a ltac:(lia)) as [q Hq]. rewrite Hq.
  rewrite Forall_forall in Hall. apply Hall.
  eapply list_elem_of_lookup_2; eauto.
Qed.

(** C2, as the code has it. The constructor caps the requested count at the
    size of the pool and has no lower bound for it: over a pool of
    structurally valid records the drawn subset has [max 0 (min requested
    |pool|)] entries, which is at least one exactly when the requested count
    is, and construction fails, with the empty-pool error, exactly when the
    pool is empty. *)
Theorem constructor_subset_size rng (pool : list Question) (requested : Z) :
  Forall (fun q => validateQuestionStructure q = true) pool ->
  match constructor rng pool requested with
  | inl e => pool = [] /\ kind e = EmptyPool
  | inr s =>
      pool <> []
      /\ Z.of_nat (length (selectedQuestions s))
         = Z.max 0 (Z.min requested (Z.of_nat (length pool)))
      /\ (1 <= Z.of_nat (length (selectedQuestions s)) <-> 1 <= requested)%Z
      /\ userAnswers s = replicate (length (selectedQuestions s)) None
  end.
Proof.
  intros Hall. unfold constructor.
  rewrite (validAddresses_all pool Hall), length_seq, Nat.sub_diag.
  destruct (Nat.eqb_spec (length pool) 0) as [H0|H0].
  - split; [by apply nil_length_inv | done].
  - change (0 <? 0) with false. cbv iota.
    unfold selectRandomQuestions; simpl.
    rewrite drawLoop_length, length_seq. simpl.
    assert (pool <> []) by (intros ->; simpl in H0; lia).
    repeat split; try done; lia.
Qed.

Lemma constructor_subset_size_witness :
  match constructor zeroRng [fourOptions (str "BC")] 5 with
  | inl e => [fourOptions (str "BC")] = [] /\ kind e = EmptyPool
  | inr s =>
      [fourOptions (str "BC")] <> []
      /\ Z.of_nat (length (selectedQuestions s)) = Z.max 0 (Z.min 5 1)
      /\ (1 <= Z.of_nat (length (selectedQuestions s)) <-> 1 <= 5)%Z
      /\ userAnswers s = replicate (length (selectedQuestions s)) None
  end.
Proof.
  apply (constructor_subset_size zeroRng [fourOptions (str "BC")] 5).
  repeat constructor.
Defined.

(** C2 as the claim states it fails: a requested count of 0 over a pool of
    one record is not raised to 1, the session is created with an empty
    subset. *)
Lemma constructor_no_lower_clamp :
  exists s, constructor zeroRng [fourOptions (str "BC")] 0 = inr s
            /\ length (selectedQuestions s) = 0
            /\ ~ (1 <= length (selectedQuestions s)).
Proof. eexists. split; [vm_compute; reflexivity|]. simpl. split; [done|lia]. Qed.

(** ** Submitting an answer *)

Lemma setHeap_id s : setHeap (heap s) s = s.
Proof. by destruct s. Qed.

(** [isAnswerCorrect] touches nothing but the store. *)
Lemma isAnswerCorrect_frame i a s :
  exists h, fst (isAnswerCorrect i a s) = setHeap h s /\ length h = length (heap s).
Proof.
  unfold isAnswerCorrect.
  destruct (selectedQuestions s !! i) as [addr|];
    [|exists (heap s); by rewrite setHeap_id].
  destruct (heap s !! addr) as [q|];
    [|exists (heap s); by rewrite setHeap_id].
  destruct (1 <? length a).
  - eexists. split; [reflexivity|]. by rewrite length_insert.
  - exists (heap s). by rewrite setHeap_id.
Qed.

(** C5, as the code has it. [submitAnswer] stamps the start time as soon as
    the state checks pass (a quiz with questions, not completed, the index in
    range) and before it validates the answer. So the start time is set by
    the first call that passes the state checks, whether or not that call
    then succeeds; a call that fails leaves the selection, the index, the
    answers, the end time, the completion flag and the store as they were
    (it is logged in [engineErrors]), and a call that succeeds on a session
    that was not started sets the start time to the time of the call. *)
Theorem submitAnswer_start_time now a s :
  let s' := fst (submitAnswer now a s) in
  let r := snd (submitAnswer now a s) in
  startTime s' = (if passesStateChecks s
                  then Some (default now (startTime s)) else startTime s)
  /\ (forall e, r = inl e ->
       s' = logError e (if passesStateChecks s then stamped now s else s)
       /\ (passesStateChecks s = true <->
           kind e = MalformedAnswer \/ kind e = UnknownOption
           \/ e = QuestionUnavailable))
  /\ (forall o, r = inr o -> passesStateChecks s = true).
Proof.
  unfold submitAnswer, passesStateChecks.
  destruct (validateQuizState s) as [e|] eqn:Hstate; simpl.
  { split; [done|]. split; [|done]. intros e' [= <-]. split; [done|].
    split; [done|]. unfold validateQuizState in Hstate.
    destruct (_ =? 0); [|destruct (isCompleted s)]; simplify_eq; simpl;
      intros [|[|]]; done. }
  destruct (length (selectedQuestions s) <=? currentIndex s) eqn:Hidx; simpl.
  { split; [done|]. split; [|done]. intros e' [= <-]. split; [done|].
    split; [done|]. simpl. intros [|[|]]; done. }
  fold (stamped now s).
  assert (Hst : startTime (stamped now s) = Some (default now (startTime s))).
  { unfold stamped. by destruct (startTime s) eqn:E. }
  destruct (validateAnswerFormat a) as [e|] eqn:Hfmt; simpl.
  { split; [done|]. split; [|done]. intros e' [= <-]. split; [done|].
    split; [|done]. intros _. left. unfold validateAnswerFormat in Hfmt.
    destruct a; [by simplify_eq|].
    destruct (_ <? _); [by simplify_eq|]. destruct (testLetters _); by simplify_eq. }
  destruct (validateAnswerForQuestion a _) as [e|] eqn:Hq; simpl.
  { split; [done|]. split; [|done]. intros e' [= <-]. split; [done|].
    split; [|done]. intros _. unfold validateAnswerForQuestion in Hq.
    destruct (questionAt _ _); [|simplify_eq; auto].
    destruct (1 <? length a).
    - destruct (firstUnknown _ _); simplify_eq; auto.
    - destruct (truthy _); simplify_eq; auto. }
  match goal with |- context [isAnswerCorrect ?i ?x ?t] =>
    destruct (isAnswerCorrect_frame i x t) as (h & Hh & _);
    destruct (isAnswerCorrect i x t) as [s3 correct] end.
  simpl in *. subst s3. simpl. split; [done|]. split; [done|]. done.
Qed.

(** C5 as the claim states it fails: on a session that was never started,
    the empty answer is refused as malformed, and yet the session now has a
    start time. *)
Lemma malformed_answer_stamps_start_time :
  let s := sessionOf (str "BC") in
  startTime s = None
  /\ (kind <$> thrown (snd (submitAnswer 5 [] s))) = Some MalformedAnswer
  /\ startTime (fst (submitAnswer 5 [] s)) = Some 5%Z
  /\ fst (submitAnswer 5 [] s) <> s.
Proof. vm_compute. repeat split; try reflexivity. discriminate. Qed.

Lemma eqc_true a b : eqc a b = true <-> a = b.
Proof. apply Ascii.eqb_eq. Qed.

Lemma validateAnswerFormat_spec a :
  match validateAnswerFormat a with
  | None => ~ malformed a
  | Some e => malformed a /\ kind e = MalformedAnswer
  end.
Proof.
  unfold validateAnswerFormat, malformed, maxAnswerLength.
  destruct a as [|c a]; [by auto|].
  destruct (Nat.ltb_spec 10 (length (c :: a))); [by auto|].
  unfold testLetters.
  destruct (forallb isUpper (c :: a)) eqn:Hall.
  - intros [?|[?|(x & Hx & Hup)]]; [done|lia|].
    rewrite forallb_forall in Hall.
    apply list_elem_of_In, Hall in Hx. congruence.
  - split; [|done]. right; right.
    apply not_true_iff_false in Hall. rewrite forallb_forall in Hall.
    destruct (existsb (fun x => negb (isUpper x)) (c :: a)) eqn:Hex.
    + apply existsb_exists in Hex as (x & Hx & Hup).
      exists x. split; [by apply list_elem_of_In|]. by destruct (isUpper x).
    + exfalso. apply Hall. intros x Hx.
      destruct (isUpper x) eqn:Hup; [done|].
      apply not_true_iff_false in Hex. exfalso. apply Hex.
      apply existsb_exists. exists x. by rewrite Hup.
Qed.





(** ** Answering the same question again *)

Local Instance charLe_trans : Transitive charLe.
Proof. unfold charLe. intros a b c. lia. Qed.

Local Instance charLe_total : Total charLe.
Proof. unfold charLe. intros a b. lia. Qed.

Local Instance charLe_antisymm : AntiSymm (=) charLe.
Proof.
  unfold charLe, code. intros a b H1 H2.
  rewrite <- (ascii_nat_embedding a), <- (ascii_nat_embedding b).
  f_equal. lia.
Qed.

(** Sorting forgets the order the array had. *)
Lemma sort_perm l l' : l ≡ₚ l' -> sort l = sort l'.
Proof.
  intros Hp. unfold sort.
  apply (Sorted_unique charLe); try apply Sorted_merge_sort; try apply _.
  by rewrite !merge_sort_Permutation.
Qed.

Lemma existsb_perm {A} (f : A -> bool) l l' :
  l ≡ₚ l' -> existsb f l = existsb f l'.
Proof.
  induction 1; simpl; try congruence.
  by destruct (f x), (f y).
Qed.

Lemma sameQuestion_refl q : sameQuestion q q.
Proof. by split. Qed.

Lemma sameStore_refl h : sameStore h h.
Proof. apply Forall_Forall2_diag, Forall_forall. intros. apply sameQuestion_refl. Qed.

Lemma sameStore_sym h h' : sameStore h h' -> sameStore h' h.
Proof.
  induction 1 as [|q q' h h' [H1 H2] _ IH]; constructor; [|done].
  by split.
Qed.

Lemma sameStore_trans h1 h2 h3 :
  sameStore h1 h2 -> sameStore h2 h3 -> sameStore h1 h3.
Proof.
  intros H12. revert h3.
  induction H12 as [|q1 q2 h1 h2 [Ha Hb] _ IH]; intros h3 H23;
    inversion H23 as [|? q3 ? h3' [Hc Hd]]; subst; constructor; [|by apply IH].
  split; [congruence|by etrans].
Qed.

Lemma sameQuestion_options q q' : sameQuestion q q' -> options q = options q'.
Proof. intros [H _]. by injection H. Qed.

Lemma sameQuestion_id q q' : sameQuestion q q' -> id q = id q'.
Proof. intros [H _]. by injection H. Qed.

Lemma sameQuestion_sorted q q' :
  sameQuestion q q' ->
  sameQuestion (withCorrectAnswers q (sort (correctAnswers q)))
               (withCorrectAnswers q' (sort (correctAnswers q'))).
Proof.
  intros [H Hp]. split; simpl.
  - destruct q, q'. simpl in *. exact H.
  - by rewrite (sort_perm _ _ Hp).
Qed.

Lemma sameQuestion_sort q :
  sameQuestion q (withCorrectAnswers q (sort (correctAnswers q))).
Proof.
  split; simpl; [by destruct q|].
  unfold sort. by rewrite merge_sort_Permutation.
Qed.

(** What [isAnswerCorrect] does to the store keeps every object, up to the
    order of its correct answers. *)
Lemma isAnswerCorrect_store i a s :
  sameStore (heap s) (heap (fst (isAnswerCorrect i a s))).
Proof.
  unfold isAnswerCorrect.
  destruct (selectedQuestions s !! i) as [addr|]; [|apply sameStore_refl].
  destruct (heap s !! addr) as [q|] eqn:Hq; [|apply sameStore_refl].
  destruct (1 <? length a); [|apply sameStore_refl]. simpl.
  rewrite <- (list_insert_id (heap s) addr q Hq) at 1.
  apply Forall2_insert; [apply sameStore_refl|apply sameQuestion_sort].
Qed.

(** The verdict of [isAnswerCorrect] does not depend on the order in which
    the store holds the correct answers. *)
Lemma isAnswerCorrect_same i a s s' :
  selectedQuestions s = selectedQuestions s' ->
  sameStore (heap s) (heap s') ->
  snd (isAnswerCorrect i a s) = snd (isAnswerCorrect i a s').
Proof.
  intros Hsel Hst. unfold isAnswerCorrect. rewrite <- Hsel.
  destruct (selectedQuestions s !! i) as [addr|]; [|done].
  destruct (heap s !! addr) as [q|] eqn:Hq.
  - destruct (Forall2_lookup_l _ _ _ _ _ Hst Hq) as (q' & -> & [H1 Hp]).
    destruct (1 <? length a); simpl.
    + by rewrite (sort_perm _ _ Hp).
    + destruct a as [|c [|]]; try done. by apply existsb_perm.
  - destruct (heap s' !! addr) as [q'|] eqn:Hq'; [|done].
    destruct (Forall2_lookup_r _ _ _ _ _ Hst Hq') as (? & ? & _). congruence.
Qed.

Lemma isAnswerCorrect_fields i a s :
  let s' := fst (isAnswerCorrect i a s) in
  selectedQuestions s' = selectedQuestions s
  /\ currentIndex s' = currentIndex s
  /\ userAnswers s' = userAnswers s
  /\ isCompleted s' = isCompleted s
  /\ startTime s' = startTime s.
Proof.
  destruct (isAnswerCorrect_frame i a s) as (h & -> & _). by simpl.
Qed.

Lemma countCorrect_same answers : forall i s s',
  selectedQuestions s = selectedQuestions s' ->
  sameStore (heap s) (heap s') ->
  snd (countCorrect i answers s) = snd (countCorrect i answers s').
Proof.
  induction answers as [|ua answers IH]; intros i s s' Hsel Hst; simpl; [done|].
  destruct ua as [[|c a]|]; try by apply IH.
  pose proof (isAnswerCorrect_same i (c :: a) s s' Hsel Hst) as Hv.
  pose proof (isAnswerCorrect_store i (c :: a) s) as H1.
  pose proof (isAnswerCorrect_store i (c :: a) s') as H2.
  destruct (isAnswerCorrect_fields i (c :: a) s) as (F1 & _).
  destruct (isAnswerCorrect_fields i (c :: a) s') as (F2 & _).
  destruct (isAnswerCorrect i (c :: a) s) as [t ok].
  destruct (isAnswerCorrect i (c :: a) s') as [t' ok'].
  simpl in *. subst ok'.
  specialize (IH (S i) t t').
  destruct (countCorrect (S i) answers t) as [u n].
  destruct (countCorrect (S i) answers t') as [u' n'].
  simpl in *. rewrite IH; [done|congruence|].
  eapply sameStore_trans; [apply sameStore_sym, H1|].
  eapply sameStore_trans; [apply Hst|apply H2].
Qed.

(** The score is a function of the selection, the stored answers and the
    store up to the order of the correct answers. *)
Lemma calculateScore_same s s' :
  selectedQuestions s = selectedQuestions s' ->
  userAnswers s = userAnswers s' ->
  sameStore (heap s) (heap s') ->
  snd (calculateScore s) = snd (calculateScore s').
Proof.
  intros Hsel Hans Hst. unfold calculateScore. rewrite <- Hsel, <- Hans.
  match goal with |- context [countCorrect 0 ?l s] =>
    pose proof (countCorrect_same l 0 s s' Hsel Hst) as Hc;
    destruct (countCorrect 0 l s) as [t c];
    destruct (countCorrect 0 l s') as [t' c'] end.
  simpl in *. by subst.
Qed.

Lemma arraySet_lookup {A} i (x : option A) l : arraySet i x l !! i = Some x.
Proof.
  unfold arraySet. destruct (Nat.ltb_spec i (length l)).
  - by apply list_lookup_insert_eq.
  - rewrite lookup_app_r by lia.
    rewrite lookup_app_r; rewrite length_replicate; [|lia].
    by replace (i - length l - (i - length l)) with 0 by lia.
Qed.


(** A successful [submitAnswer], step by step. *)
Lemma submitAnswer_success now a s s' o :
  submitAnswer now a s = (s', inr o) ->
  validateQuizState s = None
  /\ currentIndex s < length (selectedQuestions s)
  /\ validateAnswerFormat a = None
  /\ validateAnswerForQuestion a (questionAt s (currentIndex s)) = None
  /\ (s', isCorrect o) =
       isAnswerCorrect (currentIndex s) a
         (setUserAnswers (arraySet (currentIndex s) (Some a) (userAnswers s))
                         (stamped now s)).
Proof.
  unfold submitAnswer. fold (stamped now s).
  destruct (validateQuizState s); [done|].
  destruct (Nat.leb_spec (length (selectedQuestions s)) (currentIndex s)); [done|].
  destruct (validateAnswerFormat a); [done|].
  assert (Hq : questionAt (stamped now s) (currentIndex (stamped now s))
               = questionAt s (currentIndex s)).
  { unfold stamped. by destruct (startTime s). }
  assert (Hi : currentIndex (stamped now s) = currentIndex s).
  { unfold stamped. by destruct (startTime s). }
  assert (Hu : userAnswers (stamped now s) = userAnswers s).
  { unfold stamped. by destruct (startTime s). }
  rewrite Hq.
  destruct (validateAnswerForQuestion a _); [done|].
  simpl. rewrite Hi, Hu.
  destruct (isAnswerCorrect _ _ _) as [s3 correct].
  intros [= <- <-]. done.
Qed.

Lemma stamped_fields now s :
  heap (stamped now s) = heap s
  /\ selectedQuestions (stamped now s) = selectedQuestions s
  /\ currentIndex (stamped now s) = currentIndex s
  /\ userAnswers (stamped now s) = userAnswers s
  /\ isCompleted (stamped now s) = isCompleted s.
Proof. unfold stamped. by destruct (startTime s). Qed.






(** ** The invariant of a running session *)


Lemma wellFormed_same s s' :
  selectedQuestions s' = selectedQuestions s ->
  currentIndex s' = currentIndex s ->
  sameStore (heap s) (heap s') ->
  wellFormed s -> wellFormed s'.
Proof.
  intros Hsel Hidx Hst [Hi Hall]. split; [by rewrite Hsel, Hidx|].
  rewrite Hsel. eapply Forall_impl; [exact Hall|]. simpl.
  intros a (q & Hq & Ht).
  destruct (Forall2_lookup_l _ _ _ _ _ Hst Hq) as (q' & Hq' & Hs).
  exists q'. split; [done|]. unfold textsNonEmpty.
  by rewrite <- (sameQuestion_options _ _ Hs).
Qed.

Lemma drawLoop_elem rng n : forall i available selected x,
  x ∈ drawLoop rng i n available selected -> x ∈ selected \/ x ∈ available.
Proof.
  induction n as [|n IH]; intros i available selected x; cbn [drawLoop]; [by left|].
  destruct available as [|a available'] eqn:E; [by left|]. rewrite <- E.
  destruct (available !! floorMul (rng i) (length available)) as [q|] eqn:Hq;
    [|by left].
  intros [Hin|Hin]%IH.
  - apply elem_of_app in Hin as [?|Hin]; [by left|].
    apply list_elem_of_singleton in Hin as ->. right.
    eapply list_elem_of_lookup_2; eauto.
  - right. by eapply list_elem_of_delete_inv.
Qed.

(** A session built over valid records with non-empty option texts, for a
    count of at least one, satisfies the invariant. *)
Lemma constructor_wellFormed rng (pool : list Question) requested s :
  Forall (fun q => validateQuestionStructure q = true) pool ->
  Forall textsNonEmpty pool ->
  (1 <= requested)%Z ->
  constructor rng pool requested = inr s ->
  wellFormed s.
Proof.
  intros Hvalid Htexts Hreq. unfold constructor.
  rewrite (validAddresses_all pool Hvalid), length_seq, Nat.sub_diag.
  destruct (Nat.eqb_spec (length pool) 0) as [H0|H0]; [done|].
  change (0 <? 0) with false. cbv iota.
  intros [= <-]. unfold selectRandomQuestions, wellFormed. simpl. split.
  - rewrite drawLoop_length, length_seq. simpl. lia.
  - apply Forall_forall. intros a Ha.
    apply drawLoop_elem in Ha as [Ha|Ha]; [by apply elem_of_nil in Ha|].
    apply list_elem_of_In, in_seq in Ha.
    destruct (lookup_lt_is_Some_2 pool a ltac:(lia)) as [q Hq].
    exists q. split; [done|].
    rewrite Forall_forall in Htexts. apply Htexts.
    eapply list_elem_of_lookup_2; eauto.
Qed.

(** [submitAnswer] keeps the selection and the index, and keeps the store
    up to the order of the correct answers, whether it returns or throws. *)
Lemma submitAnswer_frame now a s :
  let s' := fst (submitAnswer now a s) in
  selectedQuestions s' = selectedQuestions s
  /\ currentIndex s' = currentIndex s
  /\ isCompleted s' = isCompleted s
  /\ sameStore (heap s) (heap s').
Proof.
  unfold submitAnswer. fold (stamped now s).
  destruct (stamped_fields now s) as (Hh & Hs & Hi & Hu & Hc).
  destruct (validateQuizState s); [simpl; auto using sameStore_refl|].
  destruct (_ <=? _); [simpl; auto using sameStore_refl|].
  destruct (validateAnswerFormat a);
    [simpl; rewrite Hh, Hs, Hi, Hc; auto using sameStore_refl|].
  destruct (validateAnswerForQuestion a _);
    [simpl; rewrite Hh, Hs, Hi, Hc; auto using sameStore_refl|].
  match goal with |- context [isAnswerCorrect ?i ?x ?t] =>
    pose proof (isAnswerCorrect_fields i x t) as F;
    pose proof (isAnswerCorrect_store i x t) as S;
    destruct (isAnswerCorrect i x t) as [s3 correct] end.
  simpl in *. destruct F as (F1 & F2 & _ & F4 & _).
  rewrite F1, F2, F4, Hs, Hi, Hc. rewrite Hh in S. auto.
Qed.

Lemma submitAnswer_wellFormed now a s :
  wellFormed s -> wellFormed (fst (submitAnswer now a s)).
Proof.
  destruct (submitAnswer_frame now a s) as (H1 & H2 & _ & H4).
  by apply wellFormed_same.
Qed.

Lemma nextQuestion_wellFormed now s :
  wellFormed s -> wellFormed (fst (nextQuestion now s)).
Proof.
  intros [Hi Hall]. unfold nextQuestion.
  destruct (Nat.ltb_spec (S (currentIndex s)) (length (selectedQuestions s))).
  - by split.
  - destruct (_ =? _); by split.
Qed.



(** C6 (the code departs from the claim). The pool parsed from a block
    whose control marker reads CB holds a record with the correct answers
    in the order C, B. Submitting the answer BC in a session over that pool
    sorts the record's [correctAnswers] in place: the pool's record now
    reads B, C. *)
Theorem submitAnswer_sorts_pool_record :
  let s := default (sessionOf []) (returned (constructor zeroRng poolCB 1)) in
  returned (snd (MarkdownParser.parseQuestions (fun _ => 0%Z) docCB freshParser))
    = Some poolCB
  /\ constructor zeroRng poolCB 1 = inr s
  /\ heap s = poolCB
  /\ map correctAnswers (heap s) = [str "CB"]
  /\ map correctAnswers (heap (fst (submitAnswer 5 (str "BC") s))) = [str "BC"]
  /\ heap (fst (submitAnswer 5 (str "BC") s)) <> poolCB.
Proof.
  vm_compute. repeat split; try reflexivity. discriminate.
Qed.

End QuizEngineFacts.

(** * The Markdown parser: properties *)

Module MarkdownParserFacts.

Import JS MarkdownParser Samples ParserNotions.

(** ** Options *)

Lemma eqc_refl c : eqc c c = true.
Proof. apply Ascii.eqb_refl. Qed.

Lemma eqc_eq a b : eqc a b = true -> a = b.
Proof. apply Ascii.eqb_eq. Qed.

Lemma keys_set {V} (o : list (ascii * V)) k v :
  keys (set o k v) = if mem k (keys o) then keys o else keys o ++ [k].
Proof.
  unfold mem. induction o as [|[k' v'] o IH]; simpl; [done|].
  destruct (eqc k' k) eqn:E.
  - apply eqc_eq in E as ->. by rewrite eqc_refl.
  - assert (eqc k k' = false) as ->.
    { destruct (eqc k k') eqn:E'; [|done]. apply eqc_eq in E' as ->.
      by rewrite eqc_refl in E. }
    simpl. rewrite IH. by destruct (existsb (eqc k) (keys o)).
Qed.

Lemma get_set {V} (o : list (ascii * V)) k v letter :
  get (set o k v) letter = if eqc k letter then Some v else get o letter.
Proof.
  induction o as [|[k' v'] o IH]; simpl.
  - by destruct (eqc k letter).
  - destruct (eqc k' k) eqn:E; simpl.
    + apply eqc_eq in E as ->. by destruct (eqc k letter).
    + destruct (eqc k' letter) eqn:E'; [|done].
      apply eqc_eq in E' as ->. destruct (eqc k letter) eqn:E''; [|done].
      apply eqc_eq in E'' as ->. by rewrite eqc_refl in E.
Qed.

Lemma filter_filter {A} (p q : A -> bool) l :
  List.filter p (List.filter q l) = List.filter (fun x => p x && q x) l.
Proof.
  induction l as [|x l IH]; simpl; [done|].
  destruct (q x); simpl; [|by rewrite andb_false_r].
  rewrite andb_true_r. destruct (p x); by rewrite IH.
Qed.

Lemma mem_app k l l' : mem k (l ++ l') = mem k l || mem k l'.
Proof. apply existsb_app. Qed.

(** The keys after a run of assignments: the keys there were, then the new
    letters in the order of their first appearance. *)
Lemma keys_fold {V} (f : ascii * list ascii -> V) ms : forall o,
  keys (fold_left (fun o m => set o (fst m) (f m)) ms o)
  = keys o ++ List.filter (fun k => negb (mem k (keys o)))
                          (firstAppearances (map fst ms)).
Proof.
  induction ms as [|[k t] ms IH]; intros o; simpl.
  - by rewrite app_nil_r.
  - rewrite IH, keys_set, filter_filter.
    destruct (mem k (keys o)) eqn:Hk; simpl.
    + f_equal. apply filter_ext. intros x.
      destruct (eqc k x) eqn:E; simpl; [|by rewrite andb_true_r].
      apply eqc_eq in E as ->. by rewrite Hk.
    + rewrite <- app_assoc. simpl. do 2 f_equal.
      apply filter_ext. intros x.
      rewrite mem_app. unfold mem at 2. simpl. rewrite orb_false_r.
      destruct (mem x (keys o)); simpl; [done|].
      destruct (eqc k x) eqn:E.
      * apply eqc_eq in E as ->. by rewrite eqc_refl.
      * destruct (eqc x k) eqn:E'; [|done]. apply eqc_eq in E' as ->.
        by rewrite eqc_refl in E.
Qed.

(** The value of a key after a run of assignments: that of the last
    assignment to the key. *)
Lemma get_fold {V} (f : ascii * list ascii -> V) letter ms : forall o,
  get (fold_left (fun o m => set o (fst m) (f m)) ms o) letter
  = match last (List.filter (fun m => eqc (fst m) letter) ms) with
    | Some m => Some (f m)
    | None => get o letter
    end.
Proof.
  induction ms as [|[k t] ms IH]; intros o; simpl; [done|].
  rewrite IH, get_set.
  destruct (eqc k letter); [|done].
  rewrite last_cons. by destruct (last _).
Qed.

(** C4, as the code has it. Every option line assigns its text to its
    letter, so when a letter heads several option lines of a block the
    text of the last of them is kept; the letters of the resulting mapping
    stand in the order of their first appearance. *)
Theorem extractAnswers_last_wins questionBlock letter :
  keys (extractAnswers questionBlock)
  = firstAppearances (map fst (optionMatches questionBlock))
  /\ get (extractAnswers questionBlock) letter
     = (fun text => cleanOptionText (trim text))
         <$> lastWith letter (optionMatches questionBlock).
Proof.
  unfold extractAnswers, lastWith. split.
  - rewrite (keys_fold (fun m => cleanOptionText (trim (snd m)))). simpl.
    apply filter_all. intros. done.
  - rewrite (get_fold (fun m => cleanOptionText (trim (snd m)))). simpl.
    by destruct (last _).
Qed.

(** C4 as the claim states it fails: in a block where A heads the lines
    [A. first] and [A. third], the option A carries the text [third]. *)
Lemma extractAnswers_keeps_last_text :
  optionMatches blockTwiceA
  = [("A"%char, str "first"); ("B"%char, str "second"); ("A"%char, str "third")]
  /\ extractAnswers blockTwiceA
     = [("A"%char, str "third"); ("B"%char, str "second")]
  /\ get (extractAnswers blockTwiceA) "A"%char <> Some (str "first").
Proof. vm_compute. repeat split; try reflexivity. discriminate. Qed.

(** ** Blocks *)

Lemma stripPrefix_length p : forall s r,
  stripPrefix p s = Some r -> length s = length p + length r.
Proof.
  induction p as [|a p IH]; intros s r; simpl.
  - by intros [= ->].
  - destruct s as [|b s]; [done|]. destruct (eqc a b); [|done].
    intros H%IH. simpl. lia.
Qed.

Lemma span_length f s : length (snd (span f s)) <= length s.
Proof.
  induction s as [|c s IH]; simpl; [done|].
  destruct (f c); [|simpl; lia].
  destruct (span f s). simpl in *. lia.
Qed.

Lemma lazyBody_length s : length (snd (lazyBody s)) <= length s.
Proof.
  induction s as [|c s IH]; simpl.
  - by destruct (blockEnd []).
  - destruct (blockEnd (c :: s)); [simpl; lia|].
    destruct (lazyBody s). simpl in *. lia.
Qed.

Lemma matchBlock_shorter s b rest :
  matchBlock s = Some (b, rest) -> length rest < length s.
Proof.
  unfold matchBlock, matchHeading.
  destruct (stripPrefix (str "## Pregunta ") s) as [r|] eqn:Hp; [|done].
  apply stripPrefix_length in Hp.
  pose proof (span_length isDigit r) as Hs.
  destruct (span isDigit r) as [digits r1]. simpl in Hs.
  destruct digits; [done|].
  destruct (stripPrefix [nl; nl] r1) as [r2|] eqn:Hn; [|done].
  apply stripPrefix_length in Hn.
  pose proof (lazyBody_length r2) as Hl.
  destruct (lazyBody r2) as [body rest']. simpl in *.
  intros [= _ <-]. lia.
Qed.

Lemma execBlock_shorter s : forall b rest,
  execBlock s = Some (b, rest) -> length rest < length s.
Proof.
  induction s as [|c s IH]; intros b rest; cbn [execBlock].
  - destruct (matchBlock []) as [[? ?]|] eqn:E; [|done].
    intros [= <- <-]. by apply matchBlock_shorter in E.
  - destruct (matchBlock (c :: s)) as [[? ?]|] eqn:E.
    + intros [= <- <-]. by apply matchBlock_shorter in E.
    + intros H%IH. simpl. lia.
Qed.

(** Once the fuel covers the length of the input, more fuel finds no
    further match: the list of matches is complete. *)
Lemma execAll_fuel {M} (exec : list ascii -> option (M * list ascii)) :
  (forall s m rest, exec s = Some (m, rest) -> length rest < length s) ->
  forall fuel s, length s <= fuel ->
    execAll exec fuel s = execAll exec (length s) s.
Proof.
  intros Hshort fuel. induction fuel as [fuel IH] using lt_wf_ind.
  intros s Hlen. destruct fuel as [|fuel].
  - by replace (length s) with 0 by lia.
  - simpl. destruct (exec s) as [[m rest]|] eqn:E.
    + pose proof (Hshort _ _ _ E) as Hlt.
      destruct (length s) as [|n] eqn:Hn; [lia|]. simpl. rewrite E. f_equal.
      rewrite (IH fuel) by lia. rewrite (IH n) by lia. done.
    + destruct (length s); simpl; [done|by rewrite E].
Qed.

Lemma questionBlocks_complete markdownContent fuel :
  length markdownContent <= fuel ->
  execAll execBlock fuel markdownContent = questionBlocks markdownContent.
Proof. apply execAll_fuel. intros. by eapply execBlock_shorter. Qed.

Lemma matchBlock_heading s : is_Some (matchBlock s) <-> is_Some (matchHeading s).
Proof.
  unfold matchBlock. destruct (matchHeading s) as [[digits r]|].
  - destruct (lazyBody r). split; intros _; by eexists.
  - done.
Qed.

Lemma execBlock_heading s : is_Some (execBlock s) <-> containsHeading s.
Proof.
  unfold containsHeading. induction s as [|c s IH]; cbn [execBlock].
  - destruct (matchBlock []) eqn:E.
    + split; [|by eexists]. intros _. exists [], [].
      split; [done|]. apply matchBlock_heading. by rewrite E.
    + split; [by intros [? ?]|].
      intros (before & from & Happ & Hm).
      symmetry in Happ. apply app_eq_nil in Happ as [-> ->].
      apply matchBlock_heading in Hm. rewrite E in Hm. by destruct Hm.
  - destruct (matchBlock (c :: s)) eqn:E.
    + split; [|by eexists]. intros _. exists [], (c :: s).
      split; [done|]. apply matchBlock_heading. by rewrite E.
    + rewrite IH. split.
      * intros (before & from & -> & Hm). by exists (c :: before), from.
      * intros (before & from & Happ & Hm).
        destruct before as [|c' before]; simpl in Happ.
        -- subst from. apply matchBlock_heading in Hm. rewrite E in Hm.
           by destruct Hm.
        -- injection Happ as -> ->. by exists before, from.
Qed.


(** The same for the option lines of a block. *)
Lemma optStars_length s : length (optStars s) <= length s.
Proof.
  unfold optStars. destruct (stripPrefix [star; star] s) eqn:E; [|done].
  apply stripPrefix_length in E. simpl in E. lia.
Qed.

Lemma textToEol_length s t rest :
  textToEol s = Some (t, rest) -> length rest <= length s.
Proof.
  unfold textToEol.
  pose proof (span_length (fun c => negb (isLineTerminator c)) s) as H.
  destruct (span _ s) as [t' r]. destruct t'; [done|].
  intros [= _ <-]. done.
Qed.

Lemma moreSpaces_length s : forall t rest,
  moreSpaces s = Some (t, rest) -> length rest <= length s.
Proof.
  induction s as [|c s IH]; intros t rest; cbn [moreSpaces]; [done|].
  destruct (isSpace c).
  - destruct (moreSpaces s) as [[t' rest']|].
    + intros [= <- <-]. specialize (IH _ _ eq_refl). simpl. lia.
    + apply textToEol_length.
  - apply textToEol_length.
Qed.

Lemma matchOption_shorter s m rest :
  matchOption s = Some (m, rest) -> length rest < length s.
Proof.
  unfold matchOption.
  pose proof (optStars_length s) as H1.
  destruct (optStars s) as [|c r]; [done|].
  destruct (isUpper c); [|done].
  pose proof (optStars_length r) as H2.
  pose proof (span_length (eqc "."%char) (optStars r)) as H3.
  destruct (snd (span (eqc "."%char) (optStars r))) as [|d dots]; [done|].
  cbn [spacesThenText]. destruct (isSpace d); [|done].
  destruct (moreSpaces dots) as [[t rest']|] eqn:E; [|done].
  apply moreSpaces_length in E. intros [= _ <-]. simpl in *. lia.
Qed.

Lemma execOption_shorter s : forall lineStart m rest,
  execOption lineStart s = Some (m, rest) -> length rest < length s.
Proof.
  induction s as [|c s IH]; intros lineStart m rest; cbn [execOption].
  - destruct lineStart; [|done].
    destruct (matchOption []) as [[? ?]|] eqn:E; [|done].
    intros [= <- <-]. by apply matchOption_shorter in E.
  - assert (Hnext : execOption (isLineTerminator c) s = Some (m, rest) ->
                    length rest < length (c :: s)).
    { intros H%IH. simpl. lia. }
    destruct lineStart; [|done].
    destruct (matchOption (c :: s)) as [[? ?]|] eqn:E; [|done].
    intros [= <- <-]. by apply matchOption_shorter in E.
Qed.

Lemma optionMatches_complete questionBlock m rest fuel :
  execOption true questionBlock = Some (m, rest) ->
  length rest <= fuel ->
  optionMatches questionBlock = m :: execAll (execOption false) fuel rest.
Proof.
  intros E Hfuel. unfold optionMatches. rewrite E. f_equal. symmetry.
  apply execAll_fuel; [|done]. intros. by eapply execOption_shorter.
Qed.

(** ** Blocks that are kept and blocks that are dropped *)

Lemma validateQuestion_isValid q i st : snd (validateQuestion q i st) = isValid q.
Proof. unfold validateQuestion, isValid. by destruct (omap _ _). Qed.

Lemma validateQuestion_counts q i st :
  processedQuestions (fst (validateQuestion q i st)) = processedQuestions st
  /\ skippedQuestions (fst (validateQuestion q i st)) = skippedQuestions st.
Proof. unfold validateQuestion. by destruct (omap _ _). Qed.

(** One turn of the loop: the block is kept and counted as processed, or
    dropped and counted as skipped; the loop goes on either way. *)
Lemma processBlock_step clock st questions count b :
  let '(st', questions', count') := processBlock clock (st, questions, count) b in
  count' = S count
  /\ match accepted (clock (S count)) (S count) b with
     | Some q => questions' = questions ++ [q]
                 /\ processedQuestions st' = S (processedQuestions st)
                 /\ skippedQuestions st' = skippedQuestions st
     | None => questions' = questions
               /\ processedQuestions st' = processedQuestions st
               /\ skippedQuestions st' = S (skippedQuestions st)
     end.
Proof.
  unfold processBlock, accepted.
  destruct (extractQuestion _ b (S count)) as [e|q]; [done|].
  pose proof (validateQuestion_isValid q (S count) st) as Hv.
  destruct (validateQuestion_counts q (S count) st) as [Hp Hs].
  destruct (validateQuestion q (S count) st) as [st1 ok]. simpl in *. subst ok.
  destruct (isValid q); simpl; repeat split; congruence.
Qed.

Lemma fold_processBlock clock blocks : forall st questions count,
  let '(st', questions', count') :=
    fold_left (processBlock clock) blocks (st, questions, count) in
  count' = count + length blocks
  /\ questions' = questions ++ acceptedFrom clock count blocks
  /\ processedQuestions st'
     = processedQuestions st + length (acceptedFrom clock count blocks)
  /\ processedQuestions st' + skippedQuestions st'
     = processedQuestions st + skippedQuestions st + length blocks.
Proof.
  induction blocks as [|b blocks IH]; intros st questions count;
    cbn [fold_left acceptedFrom].
  - rewrite app_nil_r. simpl. repeat split; lia.
  - pose proof (processBlock_step clock st questions count b) as Hstep.
    destruct (processBlock clock (st, questions, count) b) as [[st1 qs1] c1].
    destruct Hstep as [-> Hstep].
    specialize (IH st1 qs1 (S count)).
    destruct (fold_left _ blocks _) as [[st' qs'] c'].
    destruct IH as (-> & -> & Hp & Hsum).
    destruct (accepted _ _ b) as [q|]; destruct Hstep as (-> & Hp1 & Hs1).
    + rewrite <- app_assoc. simpl. repeat split; lia.
    + simpl. repeat split; lia.
Qed.

Lemma logParsingResults_counts n st :
  processedQuestions (logParsingResults n st) = processedQuestions st
  /\ skippedQuestions (logParsingResults n st) = skippedQuestions st.
Proof.
  unfold logParsingResults.
  destruct (0 <? skippedQuestions st), (n =? 0); by simpl.
Qed.

(** The whole of [parseQuestions], once the document passed the check. *)
Lemma parseQuestions_blocks clock markdownContent st :
  snd (validateMarkdownContent markdownContent (resetParsingState st)) = true ->
  let st' := fst (parseQuestions clock markdownContent st) in
  let pool := acceptedFrom clock 0 (questionBlocks markdownContent) in
  snd (parseQuestions clock markdownContent st)
  = (if length pool =? 0 then inl NoValidQuestions else inr pool)
  /\ processedQuestions st' = length pool
  /\ processedQuestions st' + skippedQuestions st'
     = length (questionBlocks markdownContent).
Proof.
  intros Hok. unfold parseQuestions.
  assert (Hst : processedQuestions
                  (fst (validateMarkdownContent markdownContent (resetParsingState st))) = 0
                /\ skippedQuestions
                  (fst (validateMarkdownContent markdownContent (resetParsingState st))) = 0).
  { unfold validateMarkdownContent. destruct markdownContent; [done|].
    destruct (_ =? 0); [done|]. by destruct (execBlock _). }
  destruct (validateMarkdownContent _ _) as [st1 ok]. simpl in Hok, Hst. subst ok.
  simpl.
  pose proof (fold_processBlock clock (questionBlocks markdownContent) st1 [] 0) as H.
  destruct (fold_left _ _ _) as [[st2 questions] count].
  destruct H as (_ & -> & Hp & Hsum). simpl in *.
  destruct (logParsingResults_counts
              (length (acceptedFrom clock 0 (questionBlocks markdownContent))) st2)
    as [Hp3 Hs3].
  destruct Hst as [Hp0 Hs0].
  destruct (_ =? 0); simpl; repeat split; lia.
Qed.

(** ** The check of the whole document *)


Lemma parseQuestions_invalid clock markdownContent st :
  snd (validateMarkdownContent markdownContent (resetParsingState st)) = false ->
  snd (parseQuestions clock markdownContent st) = inl InvalidMarkdownContent
  /\ processedQuestions (fst (parseQuestions clock markdownContent st)) = 0
  /\ skippedQuestions (fst (parseQuestions clock markdownContent st)) = 0.
Proof.
  unfold parseQuestions, validateMarkdownContent.
  destruct markdownContent as [|c s]; [done|].
  destruct (_ =? 0); [done|]. by destruct (execBlock _).
Qed.



(** ** Dropped blocks *)





(** ** Two runs on the same text *)







End MarkdownParserFacts.

(** * From the parser to the engine *)

Module EndToEnd.

Import JS MarkdownParser ParserNotions EngineNotions.

Lemma firstError_None {A} (f : A -> option ValidationError) l :
  firstError f l = None -> Forall (fun x => f x = None) l.
Proof.
  induction l as [|x l IH]; simpl; [by constructor|].
  destruct (f x) eqn:E; [done|]. intros H. constructor; auto.
Qed.

(** A record that passes the parser's validation passes the structure
    check of the engine and has no empty option text. *)
Lemma isValid_engine q :
  isValid q = true ->
  QuizEngine.validateQuestionStructure q = true /\ textsNonEmpty q.
Proof.
  unfold isValid. cbn [omap list_omap].
  destruct (validateBasicStructure q) eqn:Hb; [done|].
  destruct (validateQuestionContent q) eqn:Hc; [done|].
  destruct (validateQuestionOptions q) eqn:Ho; [done|].
  destruct (validateCorrectAnswers q) eqn:Ha; [done|].
  destruct (validateAnswerConsistency q) eqn:Hk; [done|]. intros _.
  unfold validateBasicStructure in Hb.
  unfold validateQuestionOptions, minOptions in Ho.
  unfold validateCorrectAnswers in Ha.
  unfold QuizEngine.validateQuestionStructure, textsNonEmpty.
  destruct (id q); [done|]. destruct (title q); [done|].
  destruct (content q); [done|].
  destruct (length (keys (options q)) <? 2); [done|].
  destruct (length (correctAnswers q) =? 0); [done|].
  split; [done|].
  destruct (maxOptions <? _); [done|].
  destruct (firstError _ requiredOptionLetters); [done|].
  apply firstError_None in Ho.
  eapply Forall_impl; [exact Ho|]. intros [k v]. simpl.
  unfold validateSingleOption. destruct (negb (isUpper k)); [done|].
  by destruct v.
Qed.

Lemma acceptedFrom_valid clock blocks : forall count,
  Forall (fun q => isValid q = true) (acceptedFrom clock count blocks).
Proof.
  induction blocks as [|b blocks IH]; intros count; simpl; [by constructor|].
  unfold accepted.
  destruct (extractQuestion _ b (S count)) as [e|q]; [apply IH|].
  destruct (isValid q) eqn:Hv; [|apply IH]. constructor; [done|apply IH].
Qed.

(** Over a pool that [parseQuestions] returned, the constructor succeeds
    for every count of at least one, and the session it builds satisfies
    the session invariant. *)
Lemma parsed_pool_session clock markdownContent st pool rng requested :
  snd (parseQuestions clock markdownContent st) = inr pool ->
  (1 <= requested)%Z ->
  exists s, QuizEngine.constructor rng pool requested = inr s /\ wellFormed s.
Proof.
  intros Hparse Hreq.
  destruct (snd (validateMarkdownContent markdownContent (resetParsingState st)))
    eqn:Hok.
  - destruct (MarkdownParserFacts.parseQuestions_blocks clock markdownContent st Hok)
      as (Hr & _ & _).
    rewrite Hr in Hparse.
    pose proof (acceptedFrom_valid clock (questionBlocks markdownContent) 0) as Hv.
    set (p := acceptedFrom clock 0 (questionBlocks markdownContent)) in *.
    destruct (Nat.eqb_spec (length p) 0) as [H0|H0]; [done|].
    injection Hparse as <-.
    assert (Hs : Forall (fun q => QuizEngine.validateQuestionStructure q = true) p).
    { eapply Forall_impl; [exact Hv|]. intros q Hq. by apply isValid_engine. }
    assert (Ht : Forall textsNonEmpty p).
    { eapply Forall_impl; [exact Hv|]. intros q Hq. by apply isValid_engine. }
    destruct (QuizEngine.constructor rng p requested) as [e|s] eqn:Hc.
    + exfalso. revert Hc. unfold QuizEngine.constructor.
      rewrite (QuizEngineFacts.validAddresses_all p Hs), length_seq, Nat.sub_diag.
      destruct (Nat.eqb_spec (length p) 0); [lia|].
      change (0 <? 0) with false. done.
    + exists s. split; [done|].
      by eapply QuizEngineFacts.constructor_wellFormed.
  - destruct (MarkdownParserFacts.parseQuestions_invalid clock markdownContent st Hok)
      as (Hr & _). congruence.
Qed.

End EndToEnd.

(** * The quiz engine: further properties *)

Module QuizEngineMore.

Import JS QuizEngine QuizEngineOps Samples EngineNotions MoreNotions QuizEngineFacts.

(** ** Construction over any pool *)

Lemma validAddresses_length pool : length (validAddresses pool) <= length pool.
Proof.
  unfold validAddresses.
  etrans; [apply List.filter_length_le|]. by rewrite length_seq.
Qed.

Lemma validAddresses_spec pool a :
  a ∈ validAddresses pool
  <-> exists q, pool !! a = Some q /\ validateQuestionStructure q = true.
Proof.
  unfold validAddresses. rewrite list_elem_of_In, filter_In, in_seq. split.
  - intros [Hlt Hv]. destruct (pool !! a) as [q|]; [|done]. by exists q.
  - intros (q & Hq & Hv). rewrite Hq. split; [|done].
    apply lookup_lt_Some in Hq. lia.
Qed.

Lemma validAddresses_NoDup pool : NoDup (validAddresses pool).
Proof.
  unfold validAddresses. apply NoDup_ListNoDup, List.NoDup_filter, seq_NoDup.
Qed.

Lemma filter_full {A} (f : A -> bool) l :
  length (List.filter f l) = length l -> List.filter f l = l.
Proof.
  induction l as [|x l IH]; simpl; [done|].
  destruct (f x); simpl.
  - intros [= H]. by rewrite IH.
  - pose proof (List.filter_length_le f l). lia.
Qed.

Lemma validAddresses_full pool :
  length (validAddresses pool) = length pool ->
  validAddresses pool = seq 0 (length pool).
Proof.
  intros H. apply filter_full. unfold validAddresses in H.
  by rewrite H, length_seq.
Qed.

(** X1. Whatever the pool holds, the constructor keeps the structurally
    valid records and draws from them: it fails on an empty pool and on a
    pool without a valid record, and otherwise selects as many questions as
    the count capped at the size of the pool allows and the valid records
    provide, logging one warning when records were left out. *)
Theorem constructor_filters_invalid rng (pool : list Question) (requested : Z) :
  match constructor rng pool requested with
  | inl e =>
      (pool = [] /\ e = NoQuestionsAvailable)
      \/ (pool <> [] /\ validAddresses pool = [] /\ e = NoValidQuestionsLeft)
  | inr s =>
      validAddresses pool <> []
      /\ heap s = pool
      /\ allQuestions s = validAddresses pool
      /\ length (selectedQuestions s)
         = Nat.min (Z.to_nat (Z.min requested (Z.of_nat (length pool))))
                   (length (validAddresses pool))
      /\ validationWarnings s
         = (if length (validAddresses pool) <? length pool
            then [length pool - length (validAddresses pool)] else [])
  end.
Proof.
  unfold constructor.
  pose proof (validAddresses_length pool) as Hle.
  destruct (Nat.eqb_spec (length pool) 0) as [H0|H0].
  { left. split; [by apply nil_length_inv|done]. }
  assert (Hne : pool <> []) by (intros ->; simpl in H0; lia).
  destruct (Nat.ltb_spec 0 (length pool - length (validAddresses pool))) as [Hinv|Hinv].
  - destruct (Nat.eqb_spec (length (validAddresses pool)) 0) as [Hv|Hv].
    { right. split; [done|]. split; [by apply nil_length_inv|done]. }
    unfold selectRandomQuestions. simpl. rewrite drawLoop_length. simpl.
    destruct (Nat.ltb_spec (length (validAddresses pool)) (length pool)); [|lia].
    repeat split; try done. intros E. by rewrite E in Hv.
  - assert (Hall : length (validAddresses pool) = length pool) by lia.
    pose proof (validAddresses_full pool Hall) as Hseq.
    unfold selectRandomQuestions. simpl. rewrite drawLoop_length. simpl.
    destruct (Nat.ltb_spec (length (validAddresses pool)) (length pool)); [lia|].
    rewrite Hall, length_seq. repeat split; try done.
    intros E. rewrite E in Hall. simpl in Hall. lia.
Qed.

(** ** The selection *)

Lemma drawLoop_NoDup rng n : forall i available selected,
  NoDup (selected ++ available) -> NoDup (drawLoop rng i n available selected).
Proof.
  induction n as [|n IH]; intros i available selected Hnd; cbn [drawLoop].
  - by apply NoDup_app in Hnd as [? _].
  - destruct available as [|a available'] eqn:E.
    { by apply NoDup_app in Hnd as [? _]. }
    rewrite <- E in *.
    destruct (available !! floorMul (rng i) (length available)) as [q|] eqn:Hq.
    + apply IH. rewrite <- app_assoc. simpl.
      by rewrite <- (delete_Permutation available _ q Hq).
    + by apply NoDup_app in Hnd as [? _].
Qed.

Lemma drawLoop_valid rng pool n :
  NoDup (drawLoop rng 0 n (validAddresses pool) [])
  /\ Forall (fun a => exists q, pool !! a = Some q
                               /\ validateQuestionStructure q = true)
            (drawLoop rng 0 n (validAddresses pool) []).
Proof.
  split; [apply drawLoop_NoDup; simpl; apply validAddresses_NoDup|].
  apply Forall_forall. intros a Ha.
  apply drawLoop_elem in Ha as [Ha|Ha]; [by apply elem_of_nil in Ha|].
  by apply validAddresses_spec.
Qed.

(** X2. The questions of a session are drawn without repetition: no
    question object is selected twice, every selected address is a
    structurally valid record of the pool, and the session starts at the
    first question, not completed, not started, with every answer [null]. *)
Theorem selection_without_repetition rng (pool : list Question) requested s :
  constructor rng pool requested = inr s ->
  NoDup (selectedQuestions s)
  /\ Forall (fun a => exists q, pool !! a = Some q
                               /\ validateQuestionStructure q = true)
            (selectedQuestions s)
  /\ currentIndex s = 0 /\ isCompleted s = false /\ startTime s = None
  /\ userAnswers s = replicate (length (selectedQuestions s)) None.
Proof.
  unfold constructor.
  pose proof (validAddresses_length pool) as Hle.
  destruct (length pool =? 0); [done|].
  destruct (Nat.ltb_spec 0 (length pool - length (validAddresses pool))) as [Hinv|Hinv].
  - destruct (length (validAddresses pool) =? 0); [done|].
    intros [= <-]. unfold selectRandomQuestions. simpl.
    destruct (drawLoop_valid rng pool
                (Z.to_nat (Z.min requested (Z.of_nat (length pool))))) as [H1 H2].
    by repeat split.
  - intros [= <-]. unfold selectRandomQuestions. simpl.
    rewrite <- (validAddresses_full pool) by lia.
    destruct (drawLoop_valid rng pool
                (Z.to_nat (Z.min requested (Z.of_nat (length pool))))) as [H1 H2].
    by repeat split.
Qed.

Lemma selection_without_repetition_witness :
  NoDup (selectedQuestions (sessionOf (str "BC")))
  /\ Forall (fun a => exists q, [fourOptions (str "BC")] !! a = Some q
                               /\ validateQuestionStructure q = true)
            (selectedQuestions (sessionOf (str "BC")))
  /\ currentIndex (sessionOf (str "BC")) = 0
  /\ isCompleted (sessionOf (str "BC")) = false
  /\ startTime (sessionOf (str "BC")) = None
  /\ userAnswers (sessionOf (str "BC"))
     = replicate (length (selectedQuestions (sessionOf (str "BC")))) None.
Proof.
  apply (selection_without_repetition zeroRng [fourOptions (str "BC")] 1).
  vm_compute. reflexivity.
Defined.

(** ** The verdict on an answer *)

Lemma everyEq_eq a : forall b, length a = length b -> everyEq a b = true <-> a = b.
Proof.
  induction a as [|x a IH]; intros [|y b]; simpl; try done.
  intros [= Hlen]. rewrite andb_true_iff, (IH b Hlen), eqc_true.
  split; [by intros [-> ->]|by intros [= -> ->]].
Qed.

Lemma sort_eq_perm a b : sort a = sort b <-> a ≡ₚ b.
Proof.
  split; [|apply sort_perm]. unfold sort. intros E.
  rewrite <- (merge_sort_Permutation charLe a), E.
  apply merge_sort_Permutation.
Qed.

(** X3. The verdict of [isAnswerCorrect]. An answer of two or more letters
    is correct exactly when its letters are the correct answers in some
    order, each as often as it is listed; an answer of one letter is correct
    exactly when that letter is one of the correct answers, however many
    there are; an index outside the selection gives [false]. *)
Theorem isAnswerCorrect_verdict i (ans : list ascii) s :
  match questionAt s i with
  | Some q =>
      snd (isAnswerCorrect i ans s) = true
      <-> (if 1 <? length ans then ans ≡ₚ correctAnswers q
           else exists c, ans = [c] /\ c ∈ correctAnswers q)
  | None => snd (isAnswerCorrect i ans s) = false
  end.
Proof.
  unfold questionAt, isAnswerCorrect.
  destruct (selectedQuestions s !! i) as [a|]; simpl; [|done].
  destruct (heap s !! a) as [q|]; [|done].
  destruct (1 <? length ans) eqn:Hlen; simpl.
  - rewrite <- sort_eq_perm.
    destruct (Nat.eqb_spec (length (sort ans)) (length (sort (correctAnswers q))))
      as [Hl|Hl]; simpl.
    + by apply everyEq_eq.
    + split; [done|]. intros E. by rewrite E in Hl.
  - destruct ans as [|c [|d r]].
    + split; [done|]. by intros (c & ? & _).
    + rewrite existsb_exists. split.
      * intros (x & Hx & ->%eqc_true). exists x. split; [done|].
        by apply list_elem_of_In.
      * intros (x & [= ->] & Hx). exists x. split; [by apply list_elem_of_In|].
        by apply eqc_true.
    + simpl in Hlen. discriminate.
Qed.

(** ** Scoring *)

Lemma countCorrect_frame answers : forall i s,
  let s' := fst (countCorrect i answers s) in
  selectedQuestions s' = selectedQuestions s
  /\ currentIndex s' = currentIndex s
  /\ userAnswers s' = userAnswers s
  /\ isCompleted s' = isCompleted s
  /\ startTime s' = startTime s
  /\ endTime s' = endTime s
  /\ allQuestions s' = allQuestions s
  /\ numberOfQuestions s' = numberOfQuestions s
  /\ engineErrors s' = engineErrors s
  /\ sameStore (heap s) (heap s').
Proof.
  induction answers as [|ua answers IH]; intros i s; simpl.
  { repeat split. apply sameStore_refl. }
  destruct ua as [[|c a]|]; try apply IH.
  destruct (isAnswerCorrect_frame i (c :: a) s) as (h & Hh & _).
  pose proof (isAnswerCorrect_store i (c :: a) s) as Hs.
  destruct (isAnswerCorrect i (c :: a) s) as [s1 ok]. simpl in *. subst s1.
  specialize (IH (S i) (setHeap h s)).
  destruct (countCorrect (S i) answers (setHeap h s)) as [s2 n]. simpl in *.
  destruct IH as (-> & -> & -> & -> & -> & -> & -> & -> & -> & IH).
  repeat split. by eapply sameStore_trans.
Qed.

Lemma countCorrect_le answers : forall i s,
  snd (countCorrect i answers s) <= length (List.filter counts answers).
Proof.
  induction answers as [|ua answers IH]; intros i s; simpl; [done|].
  destruct ua as [[|c a]|]; simpl; try apply IH.
  destruct (isAnswerCorrect i (c :: a) s) as [s1 ok].
  specialize (IH (S i) s1).
  destruct (countCorrect (S i) answers s1) as [s2 n]. simpl in *.
  destruct ok; lia.
Qed.

(** The answers read at the indices [k, k + n) that count are among the
    stored answers from [k] on that are not [null]. *)
Lemma read_counts_le (ua : list (option (list ascii))) n : forall k,
  length (List.filter counts (map (fun i => mjoin (ua !! i)) (seq k n)))
  <= length (List.filter (fun a => match a with Some _ => true | None => false end)
                         (drop k ua)).
Proof.
  induction n as [|n IH]; intros k; simpl; [lia|].
  specialize (IH (S k)).
  destruct (ua !! k) as [x|] eqn:Hk; simpl.
  - rewrite (drop_S ua x k Hk). simpl. destruct x as [[|? ?]|]; simpl; lia.
  - rewrite (drop_ge ua k) by by apply lookup_ge_None.
    rewrite (drop_ge ua (S k)) in IH by (apply lookup_ge_None in Hk; lia).
    simpl in *. lia.
Qed.

Lemma read_counts_length (ua : list (option (list ascii))) n k :
  length (List.filter counts (map (fun i => mjoin (ua !! i)) (seq k n))) <= n.
Proof.
  etrans; [apply List.filter_length_le|]. by rewrite length_map, length_seq.
Qed.

(** X4. [calculateScore] counts at most the answered questions: the number
    of correct answers is bounded by the number of stored answers and by
    the number of selected questions, which is the total it reports; and it
    leaves the session as it was, the store up to the order of the correct
    answers. *)
Theorem calculateScore_bounds s :
  let s' := fst (calculateScore s) in
  let d := snd (calculateScore s) in
  scoreTotal d = length (selectedQuestions s)
  /\ correctCount d <= scoreTotal d
  /\ correctCount d <= answeredCount s
  /\ selectedQuestions s' = selectedQuestions s
  /\ currentIndex s' = currentIndex s
  /\ userAnswers s' = userAnswers s
  /\ isCompleted s' = isCompleted s
  /\ startTime s' = startTime s
  /\ endTime s' = endTime s
  /\ sameStore (heap s) (heap s').
Proof.
  unfold calculateScore.
  set (answers := map (fun i => mjoin (userAnswers s !! i))
                      (seq 0 (length (selectedQuestions s)))).
  pose proof (countCorrect_frame answers 0 s) as F.
  pose proof (countCorrect_le answers 0 s) as L.
  pose proof (read_counts_le (userAnswers s) (length (selectedQuestions s)) 0) as L1.
  pose proof (read_counts_length (userAnswers s) (length (selectedQuestions s)) 0) as L2.
  fold answers in L1, L2.
  destruct (countCorrect 0 answers s) as [s' c]. simpl in *.
  destruct F as (F1 & F2 & F3 & F4 & F5 & F6 & _ & _ & _ & F10).
  unfold answeredCount. rewrite drop_0 in L1. repeat split; try done; lia.
Qed.

(** X5. [getCurrentStats] counts, among the questions up to the current
    one, at most the answered ones: the correct answers so far never exceed
    the answered questions, answered and remaining questions add up to the
    number of selected questions, and the session is left as it was, the
    store up to the order of the correct answers. *)
Theorem getCurrentStats_bounds s :
  let s' := fst (getCurrentStats s) in
  let st := snd (getCurrentStats s) in
  correctSoFar st <= questionsAnswered st
  /\ correctSoFar st <= S (currentIndex s)
  /\ (Z.of_nat (questionsAnswered st) + statsRemaining st
      = Z.of_nat (length (selectedQuestions s)))%Z
  /\ selectedQuestions s' = selectedQuestions s
  /\ currentIndex s' = currentIndex s
  /\ userAnswers s' = userAnswers s
  /\ isCompleted s' = isCompleted s
  /\ sameStore (heap s) (heap s').
Proof.
  unfold getCurrentStats.
  set (answers := map (fun i => mjoin (userAnswers s !! i))
                      (seq 0 (S (currentIndex s)))).
  pose proof (countCorrect_frame answers 0 s) as F.
  pose proof (countCorrect_le answers 0 s) as L.
  pose proof (read_counts_le (userAnswers s) (S (currentIndex s)) 0) as L1.
  pose proof (read_counts_length (userAnswers s) (S (currentIndex s)) 0) as L2.
  fold answers in L1, L2.
  destruct (countCorrect 0 answers s) as [s' c]. cbn [fst snd] in F, L.
  cbn [fst snd correctSoFar questionsAnswered statsRemaining].
  destruct F as (F1 & F2 & F3 & F4 & _ & _ & _ & _ & _ & F10).
  unfold answeredCount in *. rewrite drop_0 in L1.
  repeat split; try done; lia.
Qed.

(** ** What a submission stores *)

Lemma arraySet_lookup_ne {A} i j (x : option A) l :
  j <> i -> j < length l -> arraySet i x l !! j = l !! j.
Proof.
  intros Hne Hj. unfold arraySet. destruct (i <? length l).
  - by apply list_lookup_insert_ne.
  - by apply lookup_app_l.
Qed.

Lemma arraySet_length {A} i (x : option A) l :
  length (arraySet i x l) = Nat.max (length l) (S i).
Proof.
  unfold arraySet. destruct (Nat.ltb_spec i (length l)).
  - rewrite length_insert. lia.
  - rewrite !length_app, length_replicate. simpl. lia.
Qed.

(** X6. A submission that is accepted stores the submitted string at the
    current index and touches no other stored answer; the verdict it
    returns is the verdict the engine gives for that stored answer
    afterwards, when it scores. *)
Theorem submitAnswer_stores now a s s' o :
  submitAnswer now a s = (s', inr o) ->
  userAnswers s' !! currentIndex s = Some (Some a)
  /\ (forall j, j <> currentIndex s -> j < length (userAnswers s) ->
                userAnswers s' !! j = userAnswers s !! j)
  /\ length (userAnswers s') = Nat.max (length (userAnswers s)) (S (currentIndex s))
  /\ currentIndex s' = currentIndex s
  /\ a <> []
  /\ isCorrect o = snd (isAnswerCorrect (currentIndex s) a s').
Proof.
  intros H. apply submitAnswer_success in H as (_ & _ & Hfmt & _ & E).
  set (u := setUserAnswers _ (stamped now s)) in E.
  pose proof (isAnswerCorrect_fields (currentIndex s) a u) as F.
  pose proof (isAnswerCorrect_store (currentIndex s) a u) as S.
  pose proof (isAnswerCorrect_same (currentIndex s) a u s') as V.
  rewrite <- E in F, S, V. simpl in F, S, V.
  destruct F as (F1 & F2 & F3 & _).
  destruct (stamped_fields now s) as (_ & _ & Hi & _).
  rewrite F3. split; [apply arraySet_lookup|].
  split; [intros j Hne Hj; by apply arraySet_lookup_ne|].
  split; [apply arraySet_length|]. split; [congruence|].
  split; [by intros ->|].
  apply V; [by rewrite F1|done].
Qed.

Lemma submitAnswer_stores_witness :
  let s := sessionOf (str "BC") in
  let s' := fst (submitAnswer 5 (str "CB") s) in
  let o := outcome (snd (submitAnswer 5 (str "CB") s)) in
  userAnswers s' !! currentIndex s = Some (Some (str "CB"))
  /\ (forall j, j <> currentIndex s -> j < length (userAnswers s) ->
                userAnswers s' !! j = userAnswers s !! j)
  /\ length (userAnswers s') = Nat.max (length (userAnswers s)) (S (currentIndex s))
  /\ currentIndex s' = currentIndex s
  /\ str "CB" <> []
  /\ isCorrect o = snd (isAnswerCorrect (currentIndex s) (str "CB") s').
Proof.
  apply (submitAnswer_stores 5 (str "CB") (sessionOf (str "BC"))
           (fst (submitAnswer 5 (str "CB") (sessionOf (str "BC"))))
           (outcome (snd (submitAnswer 5 (str "CB") (sessionOf (str "BC")))))).
  vm_compute. reflexivity.
Defined.

(** ** Moving between questions *)

Lemma setCurrentIndex_id s : setCurrentIndex (currentIndex s) s = s.
Proof. by destruct s. Qed.

Lemma setCurrentIndex_twice i j s :
  setCurrentIndex i (setCurrentIndex j s) = setCurrentIndex i s.
Proof. done. Qed.

(** X7. Going forward and back returns to where the session was. From a
    question that is not the last, [nextQuestion] followed by
    [previousQuestion] gives back the session unchanged and the view of the
    question it stood on; and from the question reached by [nextQuestion],
    [previousQuestion] followed by [nextQuestion] gives back that session.
    None of the two completes the quiz or stamps a time. *)
Theorem next_previous_round_trip now s :
  S (currentIndex s) < length (selectedQuestions s) ->
  let s1 := fst (nextQuestion now s) in
  currentIndex s1 = S (currentIndex s)
  /\ snd (nextQuestion now s) = getCurrentQuestion s1
  /\ previousQuestion s1 = (s, getCurrentQuestion s)
  /\ nextQuestion now (fst (previousQuestion s1)) = (s1, getCurrentQuestion s1).
Proof.
  intros Hlt. unfold nextQuestion.
  destruct (Nat.ltb_spec (S (currentIndex s)) (length (selectedQuestions s))); [|lia].
  cbn [fst snd]. split; [done|]. split; [done|].
  assert (Hp : previousQuestion (setCurrentIndex (S (currentIndex s)) s)
               = (s, getCurrentQuestion s)).
  { unfold previousQuestion. cbn [currentIndex setCurrentIndex].
    change (0 <? S (currentIndex s)) with true. cbv iota.
    rewrite setCurrentIndex_twice.
    replace (S (currentIndex s) - 1) with (currentIndex s) by lia.
    by rewrite setCurrentIndex_id. }
  split; [exact Hp|]. rewrite Hp. cbn [fst].
  destruct (Nat.ltb_spec (S (currentIndex s)) (length (selectedQuestions s))); [|lia].
  done.
Qed.

Lemma next_previous_round_trip_witness :
  let s1 := fst (nextQuestion 9 sessionTwo) in
  currentIndex s1 = S (currentIndex sessionTwo)
  /\ snd (nextQuestion 9 sessionTwo) = getCurrentQuestion s1
  /\ previousQuestion s1 = (sessionTwo, getCurrentQuestion sessionTwo)
  /\ nextQuestion 9 (fst (previousQuestion s1)) = (s1, getCurrentQuestion s1).
Proof.
  apply (next_previous_round_trip 9 sessionTwo). vm_compute. lia.
Defined.

(** ** What no call changes *)

Lemma detailsFrom_frame selected : forall i s,
  let s' := fst (detailsFrom i selected s) in
  selectedQuestions s' = selectedQuestions s
  /\ currentIndex s' = currentIndex s
  /\ userAnswers s' = userAnswers s
  /\ isCompleted s' = isCompleted s
  /\ startTime s' = startTime s
  /\ endTime s' = endTime s
  /\ allQuestions s' = allQuestions s
  /\ numberOfQuestions s' = numberOfQuestions s
  /\ sameStore (heap s) (heap s').
Proof.
  induction selected as [|a rest IH]; intros i s; cbn [detailsFrom].
  { repeat split. apply sameStore_refl. }
  set (ua := mjoin (userAnswers s !! i)).
  assert (Hst : exists h, (match ua with
                           | Some ((_ :: _) as ans) => isAnswerCorrect i ans s
                           | _ => (s, false)
                           end).1 = setHeap h s /\ sameStore (heap s) h).
  { destruct ua as [[|c r]|]; try (exists (heap s); split;
      [by rewrite setHeap_id|apply sameStore_refl]).
    destruct (isAnswerCorrect_frame i (c :: r) s) as (h & Hh & _).
    exists h. split; [done|].
    pose proof (isAnswerCorrect_store i (c :: r) s) as Hs. by rewrite Hh in Hs. }
  destruct Hst as (h & Hh & Hs).
  destruct (match ua with Some ((_ :: _) as ans) => _ | _ => _ end) as [s1 ok].
  simpl in Hh. subst s1.
  destruct (heap (setHeap h s) !! a) as [q|]; [|by repeat split].
  specialize (IH (S i) (setHeap h s)).
  destruct (detailsFrom (S i) rest (setHeap h s)) as [s2 ds]. simpl in *.
  destruct IH as (-> & -> & -> & -> & -> & -> & -> & -> & IH).
  repeat split. by eapply sameStore_trans.
Qed.

Lemma getResults_frame s :
  let s' := fst (getResults s) in
  selectedQuestions s' = selectedQuestions s
  /\ currentIndex s' = currentIndex s
  /\ userAnswers s' = userAnswers s
  /\ isCompleted s' = isCompleted s
  /\ startTime s' = startTime s
  /\ endTime s' = endTime s
  /\ allQuestions s' = allQuestions s
  /\ numberOfQuestions s' = numberOfQuestions s
  /\ sameStore (heap s) (heap s').
Proof.
  unfold getResults. destruct (isCompleted s) eqn:Hc; simpl;
    [|repeat split; try done; apply sameStore_refl].
  unfold calculateScore.
  match goal with |- context [countCorrect 0 ?l s] =>
    pose proof (countCorrect_frame l 0 s) as F;
    destruct (countCorrect 0 l s) as [s1 c] end.
  simpl in F. destruct F as (F1 & F2 & F3 & F4 & F5 & F6 & F7 & F8 & _ & F10).
  pose proof (detailsFrom_frame (selectedQuestions s1) 0 s1) as G.
  destruct (detailsFrom 0 (selectedQuestions s1) s1) as [s2 ds].
  simpl in *. destruct G as (G1 & G2 & G3 & G4 & G5 & G6 & G7 & G8 & G9).
  repeat split; try congruence. by eapply sameStore_trans.
Qed.

Lemma submitAnswer_static now a s :
  let s' := fst (submitAnswer now a s) in
  allQuestions s' = allQuestions s
  /\ numberOfQuestions s' = numberOfQuestions s.
Proof.
  unfold submitAnswer. fold (stamped now s).
  assert (Hs : allQuestions (stamped now s) = allQuestions s
               /\ numberOfQuestions (stamped now s) = numberOfQuestions s).
  { unfold stamped. by destruct (startTime s). }
  destruct (validateQuizState s); [done|].
  destruct (_ <=? _); [done|].
  destruct (validateAnswerFormat a); [done|].
  destruct (validateAnswerForQuestion a _); [done|].
  match goal with |- context [isAnswerCorrect ?i ?x ?t] =>
    destruct (isAnswerCorrect_frame i x t) as (h & Hh & _);
    destruct (isAnswerCorrect i x t) as [s3 correct] end.
  simpl in *. by subst s3.
Qed.

(** Whatever is called on a session, its selection, the questions it draws
    from and their number stay, and the store stays up to the order of the
    correct answers. *)
Lemma step_static op s :
  selectedQuestions (step s op) = selectedQuestions s
  /\ allQuestions (step s op) = allQuestions s
  /\ numberOfQuestions (step s op) = numberOfQuestions s
  /\ sameStore (heap s) (heap (step s op)).
Proof.
  destruct op as [now a|now| | | |]; cbn [step].
  - destruct (submitAnswer_frame now a s) as (H1 & _ & _ & H4).
    destruct (submitAnswer_static now a s) as (H5 & H6). done.
  - unfold nextQuestion. destruct (_ <? _); [|destruct (_ =? _)];
      repeat split; apply sameStore_refl.
  - unfold previousQuestion. destruct (_ <? _);
      repeat split; apply sameStore_refl.
  - unfold calculateScore.
    match goal with |- context [countCorrect 0 ?l s] =>
      pose proof (countCorrect_frame l 0 s) as F;
      destruct (countCorrect 0 l s) as [s1 c] end.
    simpl in *. by destruct F as (F1 & _ & _ & _ & _ & _ & F7 & F8 & _ & F10).
  - unfold getCurrentStats.
    match goal with |- context [countCorrect 0 ?l s] =>
      pose proof (countCorrect_frame l 0 s) as F;
      destruct (countCorrect 0 l s) as [s1 c] end.
    simpl in *. by destruct F as (F1 & _ & _ & _ & _ & _ & F7 & F8 & _ & F10).
  - by destruct (getResults_frame s) as (F1 & _ & _ & _ & _ & _ & F7 & F8 & F9).
Qed.

Lemma step_completed op s :
  isCompleted s = true ->
  isCompleted (step s op) = true /\ userAnswers (step s op) = userAnswers s.
Proof.
  intros Hc. destruct op as [now a|now| | | |]; cbn [step].
  - unfold submitAnswer, validateQuizState. rewrite Hc.
    by destruct (_ =? 0).
  - unfold nextQuestion. destruct (_ <? _); [|destruct (_ =? _)]; by simpl.
  - unfold previousQuestion. destruct (_ <? _); by simpl.
  - unfold calculateScore.
    match goal with |- context [countCorrect 0 ?l s] =>
      pose proof (countCorrect_frame l 0 s) as F;
      destruct (countCorrect 0 l s) as [s1 c] end.
    simpl in *. destruct F as (_ & _ & F3 & F4 & _). by rewrite F4.
  - unfold getCurrentStats.
    match goal with |- context [countCorrect 0 ?l s] =>
      pose proof (countCorrect_frame l 0 s) as F;
      destruct (countCorrect 0 l s) as [s1 c] end.
    simpl in *. destruct F as (_ & _ & F3 & F4 & _). by rewrite F4.
  - destruct (getResults_frame s) as (_ & _ & F3 & F4 & _). by rewrite F4.
Qed.

(** X8. A completed quiz stays completed. Whatever is called on a completed
    session (submitting, moving forward or back, scoring, reading the
    statistics or the results), it remains completed, its stored answers
    and its selection remain, [calculateScore] keeps giving the same
    result, and every further [submitAnswer] fails with InvalidState. *)
Theorem completed_is_final s (ops : list Op) :
  isCompleted s = true ->
  let s' := fold_left step ops s in
  isCompleted s' = true
  /\ selectedQuestions s' = selectedQuestions s
  /\ userAnswers s' = userAnswers s
  /\ sameStore (heap s) (heap s')
  /\ snd (calculateScore s') = snd (calculateScore s)
  /\ forall now a, (kind <$> thrown (snd (submitAnswer now a s'))) = Some InvalidState.
Proof.
  intros Hc.
  assert (H : isCompleted (fold_left step ops s) = true
              /\ selectedQuestions (fold_left step ops s) = selectedQuestions s
              /\ userAnswers (fold_left step ops s) = userAnswers s
              /\ sameStore (heap s) (heap (fold_left step ops s))).
  { revert s Hc. induction ops as [|op ops IH]; intros s Hc; simpl.
    - repeat split; [done|apply sameStore_refl].
    - destruct (step_completed op s Hc) as [Hc1 Hu1].
      destruct (step_static op s) as (Hs1 & _ & _ & Hh1).
      destruct (IH (step s op) Hc1) as (H1 & H2 & H3 & H4).
      repeat split; try congruence. by eapply sameStore_trans. }
  destruct H as (H1 & H2 & H3 & H4). simpl.
  split; [done|]. split; [done|]. split; [done|]. split; [done|]. split.
  - apply calculateScore_same; [done|done|by apply sameStore_sym].
  - intros now a. unfold submitAnswer, validateQuizState. rewrite H1.
    by destruct (_ =? 0).
Qed.

Lemma completed_is_final_witness :
  let s := fst (nextQuestion 9 (fst (submitAnswer 5 (str "B") (sessionOf (str "BC"))))) in
  let s' := fold_left step [Submit 10 (str "A"); Previous; Next 11; Score] s in
  isCompleted s' = true
  /\ selectedQuestions s' = selectedQuestions s
  /\ userAnswers s' = userAnswers s
  /\ sameStore (heap s) (heap s')
  /\ snd (calculateScore s') = snd (calculateScore s)
  /\ forall now a, (kind <$> thrown (snd (submitAnswer now a s'))) = Some InvalidState.
Proof.
  apply (completed_is_final
           (fst (nextQuestion 9 (fst (submitAnswer 5 (str "B") (sessionOf (str "BC"))))))
           [Submit 10 (str "A"); Previous; Next 11; Score]).
  vm_compute. reflexivity.
Defined.

(** ** Starting over *)

Lemma constructor_filters_invalid_heap rng (pool : list Question) requested :
  match constructor rng pool requested with
  | inr s => heap s = pool
  | inl _ => True
  end.
Proof.
  unfold constructor. destruct (_ =? 0); [done|].
  destruct (0 <? _); [|done]. by destruct (_ =? 0).
Qed.

Lemma constructor_fields rng (pool : list Question) requested s :
  constructor rng pool requested = inr s ->
  allQuestions s = validAddresses pool
  /\ numberOfQuestions s = Z.min requested (Z.of_nat (length pool))
  /\ length (selectedQuestions s)
     = Nat.min (Z.to_nat (numberOfQuestions s)) (length (allQuestions s))
  /\ currentIndex s = 0 /\ isCompleted s = false
  /\ startTime s = None /\ endTime s = None
  /\ userAnswers s = replicate (length (selectedQuestions s)) None.
Proof.
  unfold constructor.
  pose proof (validAddresses_length pool) as Hle.
  destruct (length pool =? 0); [done|].
  destruct (Nat.ltb_spec 0 (length pool - length (validAddresses pool))) as [Hinv|Hinv].
  - destruct (length (validAddresses pool) =? 0); [done|].
    intros [= <-]. unfold selectRandomQuestions. simpl.
    rewrite drawLoop_length. by repeat split.
  - intros [= <-]. unfold selectRandomQuestions. simpl.
    rewrite drawLoop_length. rewrite (validAddresses_full pool) by lia.
    by repeat split.
Qed.

Lemma countCorrect_heap_only answers : forall i s,
  exists h, fst (countCorrect i answers s) = setHeap h s.
Proof.
  induction answers as [|ua answers IH]; intros i s; simpl.
  { exists (heap s). by rewrite setHeap_id. }
  destruct ua as [[|c a]|]; try apply IH.
  destruct (isAnswerCorrect_frame i (c :: a) s) as (h & Hh & _).
  destruct (isAnswerCorrect i (c :: a) s) as [s1 ok]. simpl in Hh. subst s1.
  destruct (IH (S i) (setHeap h s)) as (h' & Hh').
  destruct (countCorrect (S i) answers (setHeap h s)) as [s2 n].
  simpl in *. subst s2. by exists h'.
Qed.

Lemma detailsFrom_heap_only selected : forall i s,
  exists h, fst (detailsFrom i selected s) = setHeap h s.
Proof.
  induction selected as [|a rest IH]; intros i s; cbn [detailsFrom].
  { exists (heap s). by rewrite setHeap_id. }
  set (ua := mjoin (userAnswers s !! i)).
  assert (Hst : exists h, (match ua with
                           | Some ((_ :: _) as ans) => isAnswerCorrect i ans s
                           | _ => (s, false)
                           end).1 = setHeap h s).
  { destruct ua as [[|c r]|]; try (exists (heap s); by rewrite setHeap_id).
    destruct (isAnswerCorrect_frame i (c :: r) s) as (h & Hh & _). by exists h. }
  destruct Hst as (h & Hh).
  destruct (match ua with Some ((_ :: _) as ans) => _ | _ => _ end) as [s1 ok].
  simpl in Hh. subst s1.
  destruct (heap (setHeap h s) !! a) as [q|]; [|by exists h].
  destruct (IH (S i) (setHeap h s)) as (h' & Hh').
  destruct (detailsFrom (S i) rest (setHeap h s)) as [s2 ds].
  simpl in *. subst s2. by exists h'.
Qed.

(** Every call changes the store and the error log at most, apart from the
    index, the answers, the times and the completion flag. *)
Lemma step_warnings op s : validationWarnings (step s op) = validationWarnings s.
Proof.
  destruct op as [now a|now| | | |]; cbn [step].
  - unfold submitAnswer. fold (stamped now s).
    assert (Hs : validationWarnings (stamped now s) = validationWarnings s).
    { unfold stamped. by destruct (startTime s). }
    destruct (validateQuizState s); [done|].
    destruct (_ <=? _); [done|].
    destruct (validateAnswerFormat a); [done|].
    destruct (validateAnswerForQuestion a _); [done|].
    match goal with |- context [isAnswerCorrect ?i ?x ?t] =>
      destruct (isAnswerCorrect_frame i x t) as (h & Hh & _);
      destruct (isAnswerCorrect i x t) as [s3 correct] end.
    simpl in *. by subst s3.
  - unfold nextQuestion. destruct (_ <? _); [|destruct (_ =? _)]; done.
  - unfold previousQuestion. by destruct (_ <? _).
  - unfold calculateScore.
    match goal with |- context [countCorrect 0 ?l s] =>
      destruct (countCorrect_heap_only l 0 s) as (h & Hh);
      destruct (countCorrect 0 l s) as [s1 c] end.
    simpl in *. by subst s1.
  - unfold getCurrentStats.
    match goal with |- context [countCorrect 0 ?l s] =>
      destruct (countCorrect_heap_only l 0 s) as (h & Hh);
      destruct (countCorrect 0 l s) as [s1 c] end.
    simpl in *. by subst s1.
  - unfold getResults. destruct (isCompleted s); [|done]. simpl.
    unfold calculateScore.
    match goal with |- context [countCorrect 0 ?l s] =>
      destruct (countCorrect_heap_only l 0 s) as (h & Hh);
      destruct (countCorrect 0 l s) as [s1 c] end.
    simpl in Hh. subst s1.
    match goal with |- context [detailsFrom 0 ?l ?t] =>
      destruct (detailsFrom_heap_only l 0 t) as (h' & Hh');
      destruct (detailsFrom 0 l t) as [s2 ds] end.
    simpl in *. by subst s2.
Qed.

Lemma run_static ops : forall s,
  selectedQuestions (fold_left step ops s) = selectedQuestions s
  /\ allQuestions (fold_left step ops s) = allQuestions s
  /\ numberOfQuestions (fold_left step ops s) = numberOfQuestions s
  /\ validationWarnings (fold_left step ops s) = validationWarnings s
  /\ sameStore (heap s) (heap (fold_left step ops s)).
Proof.
  induction ops as [|op ops IH]; intros s; simpl.
  { repeat split. apply sameStore_refl. }
  destruct (step_static op s) as (H1 & H2 & H3 & H4).
  pose proof (step_warnings op s) as H5.
  destruct (IH (step s op)) as (I1 & I2 & I3 & I4 & I5).
  repeat split; try congruence. by eapply sameStore_trans.
Qed.

(** X9. [restart] undoes whatever was called on a session since it was
    constructed: it gives back the session the constructor built, with the
    same selection, at the first question, without answers and times, not
    completed. Only the store, whose records may have had their correct
    answers sorted, and the error log are not brought back. *)
Theorem restart_undoes rng (pool : list Question) requested s (ops : list Op) :
  constructor rng pool requested = inr s ->
  let s0 := fold_left step ops s in
  restart s0 = withStoreAndLog (heap s0) (engineErrors s0) s
  /\ sameStore pool (heap s0).
Proof.
  intros Hc.
  destruct (constructor_fields rng pool requested s Hc)
    as (_ & _ & _ & Hi & Hd & Hst & Het & Hu).
  destruct (run_static ops s) as (R1 & R2 & R3 & R4 & R5).
  assert (Hh : heap s = pool).
  { pose proof (constructor_filters_invalid_heap rng pool requested) as H.
    rewrite Hc in H. exact H. }
  simpl. split; [|by rewrite <- Hh].
  unfold restart, withStoreAndLog.
  rewrite R1, R2, R3, R4, Hi, Hd, Hst, Het, <- Hu. done.
Qed.

Lemma restart_undoes_witness :
  let s0 := fold_left step [Submit 5 (str "CB"); Next 9; GetResults]
                      (sessionOf (str "CB")) in
  restart s0 = withStoreAndLog (heap s0) (engineErrors s0) (sessionOf (str "CB"))
  /\ sameStore [fourOptions (str "CB")] (heap s0).
Proof.
  apply (restart_undoes zeroRng [fourOptions (str "CB")] 1 (sessionOf (str "CB"))
           [Submit 5 (str "CB"); Next 9; GetResults]).
  vm_compute. reflexivity.
Defined.

(** X10. [startNewQuiz()] draws again from the same questions: whatever was
    called on the session before, the new selection has as many questions
    as the one the constructor drew, again without repetition and among the
    structurally valid records, and the session stands at the first
    question, without answers and times, not completed. The store is not
    reset. With a count, the new selection has that many questions, capped
    at the number of valid records and not below zero. *)
Theorem startNewQuiz_redraws rng (pool : list Question) requested s
    (ops : list Op) rng' :
  constructor rng pool requested = inr s ->
  let s0 := fold_left step ops s in
  let s' := startNewQuiz rng' None s0 in
  length (selectedQuestions s') = length (selectedQuestions s)
  /\ NoDup (selectedQuestions s')
  /\ Forall (fun a => exists q, pool !! a = Some q
                               /\ validateQuestionStructure q = true)
            (selectedQuestions s')
  /\ currentIndex s' = 0 /\ isCompleted s' = false
  /\ startTime s' = None /\ endTime s' = None
  /\ userAnswers s' = replicate (length (selectedQuestions s')) None
  /\ heap s' = heap s0
  /\ forall k,
       Z.of_nat (length (selectedQuestions (startNewQuiz rng' (Some k) s0)))
       = Z.max 0 (Z.min k (Z.of_nat (length (validAddresses pool)))).
Proof.
  intros Hc.
  destruct (constructor_fields rng pool requested s Hc) as (Ha & Hn & Hl & _).
  destruct (run_static ops s) as (R1 & R2 & R3 & _ & _).
  simpl. unfold startNewQuiz, selectRandomQuestions. simpl.
  rewrite R2, R3, Ha.
  destruct (drawLoop_valid rng' pool (Z.to_nat (numberOfQuestions s))) as [N1 N2].
  split; [rewrite drawLoop_length, Hl, Ha; simpl; lia|].
  repeat split; try done.
  intros k. rewrite drawLoop_length. simpl. lia.
Qed.

Lemma startNewQuiz_redraws_witness :
  let s0 := fold_left step [Submit 5 (str "CB"); Next 9] sessionTwo in
  let s' := startNewQuiz zeroRng None s0 in
  length (selectedQuestions s') = length (selectedQuestions sessionTwo)
  /\ NoDup (selectedQuestions s')
  /\ Forall (fun a => exists q,
               [fourOptions (str "BC"); fourOptions (str "A")] !! a = Some q
               /\ validateQuestionStructure q = true)
            (selectedQuestions s')
  /\ currentIndex s' = 0 /\ isCompleted s' = false
  /\ startTime s' = None /\ endTime s' = None
  /\ userAnswers s' = replicate (length (selectedQuestions s')) None
  /\ heap s' = heap s0
  /\ forall k,
       Z.of_nat (length (selectedQuestions (startNewQuiz zeroRng (Some k) s0)))
       = Z.max 0 (Z.min k (Z.of_nat (length (validAddresses
                    [fourOptions (str "BC"); fourOptions (str "A")])))).
Proof.
  apply (startNewQuiz_redraws zeroRng [fourOptions (str "BC"); fourOptions (str "A")]
           2 sessionTwo [Submit 5 (str "CB"); Next 9] zeroRng).
  vm_compute. reflexivity.
Defined.

(** ** The results *)

Lemma sameStore_is_Some h h' a :
  sameStore h h' -> is_Some (h !! a) -> is_Some (h' !! a).
Proof.
  intros Hs [q Hq].
  destruct (Forall2_lookup_l _ _ _ _ _ Hs Hq) as (q' & Hq' & _). by exists q'.
Qed.

(** The loop of [getResults] and the loop of [calculateScore] agree: the
    entries of the one that are marked correct are as many as the other
    counts, on any two sessions with the same selection and answers and the
    same store up to the order of the correct answers. *)
Lemma detailsFrom_countCorrect selected : forall i s t,
  selectedQuestions s = selectedQuestions t ->
  userAnswers s = userAnswers t ->
  sameStore (heap s) (heap t) ->
  Forall (fun a => is_Some (heap s !! a)) selected ->
  let ds := snd (detailsFrom i selected s) in
  map Detail.question ds = selected
  /\ map Detail.questionNumber ds = seq (S i) (length selected)
  /\ map Detail.userAnswer ds
     = map (fun j => mjoin (userAnswers s !! j)) (seq i (length selected))
  /\ length (List.filter Detail.isCorrect ds)
     = snd (countCorrect i (map (fun j => mjoin (userAnswers t !! j))
                                (seq i (length selected))) t).
Proof.
  induction selected as [|a rest IH]; intros i s t Hsel Hua Hst Hval;
    cbn [detailsFrom length seq map countCorrect]; [done|].
  rewrite <- Hua.
  apply Forall_cons in Hval as [Ha Hrest].
  set (ua := mjoin (userAnswers s !! i)).
  assert (Hcase :
    exists s1 t1 ok,
      (match ua with
       | Some ((_ :: _) as ans) => isAnswerCorrect i ans s
       | _ => (s, false) end) = (s1, ok)
      /\ (match ua with
          | Some ((_ :: _) as ans) =>
              let '(t1, ok1) := isAnswerCorrect i ans t in
              let '(t2, n) :=
                countCorrect (S i) (map (fun j => mjoin (userAnswers s !! j))
                                        (seq (S i) (length rest))) t1 in
              (t2, if ok1 then S n else n)
          | _ => countCorrect (S i) (map (fun j => mjoin (userAnswers s !! j))
                                         (seq (S i) (length rest))) t
          end).2
         = (if ok then S else fun n => n)
             (countCorrect (S i) (map (fun j => mjoin (userAnswers s !! j))
                                      (seq (S i) (length rest))) t1).2
      /\ selectedQuestions s1 = selectedQuestions t1
      /\ userAnswers s1 = userAnswers s
      /\ userAnswers t1 = userAnswers s
      /\ sameStore (heap s) (heap s1)
      /\ sameStore (heap s1) (heap t1)).
  { destruct ua as [[|c r]|].
    1,3: exists s, t, false; by repeat split; try apply sameStore_refl.
    pose proof (isAnswerCorrect_same i (c :: r) s t Hsel Hst) as Hv.
    pose proof (isAnswerCorrect_fields i (c :: r) s) as Fs.
    pose proof (isAnswerCorrect_fields i (c :: r) t) as Ft.
    pose proof (isAnswerCorrect_store i (c :: r) s) as Ss.
    pose proof (isAnswerCorrect_store i (c :: r) t) as St.
    destruct (isAnswerCorrect i (c :: r) s) as [s1 ok].
    destruct (isAnswerCorrect i (c :: r) t) as [t1 ok1].
    simpl in *. subst ok1.
    destruct Fs as (F1 & _ & F3 & _). destruct Ft as (G1 & _ & G3 & _).
    exists s1, t1, ok. split; [done|]. split.
    { destruct (countCorrect _ _ t1). by destruct ok. }
    repeat split; try congruence.
    eapply sameStore_trans; [apply sameStore_sym, Ss|].
    eapply sameStore_trans; [exact Hst|exact St]. }
  destruct Hcase as (s1 & t1 & ok & E1 & E2 & Hsel1 & Hu1 & Hu2 & Hs1 & Hst1).
  rewrite E1, E2.
  destruct (sameStore_is_Some _ _ a Hs1 Ha) as [q Hq]. rewrite Hq.
  assert (Hrest1 : Forall (fun a => is_Some (heap s1 !! a)) rest).
  { eapply Forall_impl; [exact Hrest|]. intros x. by apply sameStore_is_Some. }
  specialize (IH (S i) s1 t1 Hsel1 (eq_trans Hu1 (eq_sym Hu2)) Hst1 Hrest1).
  destruct (detailsFrom (S i) rest s1) as [s2 ds]. cbn [snd] in IH |- *.
  destruct IH as (I1 & I2 & I3 & I4).
  rewrite Hu1 in I3. rewrite Hu2 in I4.
  cbn [map Detail.question Detail.questionNumber Detail.userAnswer
       List.filter Detail.isCorrect].
  rewrite I1, I2, I3. replace (i + 1) with (S i) by lia.
  split; [done|]. split; [done|]. split; [done|].
  destruct ok; simpl; by rewrite I4.
Qed.

(** X11. [getResults] throws while the quiz is not completed and returns
    otherwise. The report has one entry per selected question, in the
    order of the selection and numbered from 1, with the stored answer of
    that question; the entries marked correct are as many as the correct
    count it reports, the total is the number of selected questions, and
    the duration is the rounded number of seconds between the start and the
    end, or 0 when the quiz was never started. The call leaves the session
    as it was, the store up to the order of the correct answers. *)
Theorem getResults_report s :
  addressesValid s ->
  match snd (getResults s) with
  | inl _ => isCompleted s = false /\ fst (getResults s) = s
  | inr r =>
      isCompleted s = true
      /\ Results.totalQuestions r = length (selectedQuestions s)
      /\ map Detail.question (Results.details r) = selectedQuestions s
      /\ map Detail.questionNumber (Results.details r)
         = seq 1 (length (selectedQuestions s))
      /\ map Detail.userAnswer (Results.details r)
         = map (fun j => mjoin (userAnswers s !! j))
               (seq 0 (length (selectedQuestions s)))
      /\ length (List.filter Detail.isCorrect (Results.details r))
         = Results.correctCount r
      /\ Results.correctCount r <= Results.totalQuestions r
      /\ Results.duration r = durationOf s
      /\ userAnswers (fst (getResults s)) = userAnswers s
      /\ sameStore (heap s) (heap (fst (getResults s)))
  end.
Proof.
  intros Hval.
  pose proof (getResults_frame s) as F.
  unfold getResults in *. destruct (isCompleted s) eqn:Hc; simpl; [|done].
  simpl in F. unfold calculateScore in *.
  set (answers := map (fun i => mjoin (userAnswers s !! i))
                      (seq 0 (length (selectedQuestions s)))) in *.
  pose proof (countCorrect_frame answers 0 s) as C.
  pose proof (countCorrect_le answers 0 s) as L.
  pose proof (read_counts_length (userAnswers s) (length (selectedQuestions s)) 0) as L2.
  fold answers in L2.
  destruct (countCorrect 0 answers s) as [s1 c] eqn:Ecc. cbn [fst snd] in C, L.
  destruct C as (C1 & _ & C3 & _ & _ & _ & _ & _ & _ & C10).
  assert (Hval1 : Forall (fun a => is_Some (heap s1 !! a)) (selectedQuestions s1)).
  { rewrite C1. eapply Forall_impl; [exact Hval|].
    intros x. by apply sameStore_is_Some. }
  pose proof (detailsFrom_countCorrect (selectedQuestions s1) 0 s1 s
                C1 C3 (sameStore_sym _ _ C10) Hval1) as D.
  destruct (detailsFrom 0 (selectedQuestions s1) s1) as [s2 ds].
  cbn [fst snd] in *. rewrite C1, C3 in D. fold answers in D. rewrite Ecc in D.
  destruct D as (D1 & D2 & D3 & D4).
  destruct F as (_ & _ & F3 & _ & F5 & F6 & _ & _ & F9).
  simpl. repeat split; try done; try lia.
  unfold durationOf. by rewrite F5, F6.
Qed.

Lemma getResults_report_witness :
  let s := fold_left step [Submit 5 (str "CB"); Next 9] (sessionOf (str "CB")) in
  match snd (getResults s) with
  | inl _ => isCompleted s = false /\ fst (getResults s) = s
  | inr r =>
      isCompleted s = true
      /\ Results.totalQuestions r = length (selectedQuestions s)
      /\ map Detail.question (Results.details r) = selectedQuestions s
      /\ map Detail.questionNumber (Results.details r)
         = seq 1 (length (selectedQuestions s))
      /\ map Detail.userAnswer (Results.details r)
         = map (fun j => mjoin (userAnswers s !! j))
               (seq 0 (length (selectedQuestions s)))
      /\ length (List.filter Detail.isCorrect (Results.details r))
         = Results.correctCount r
      /\ Results.correctCount r <= Results.totalQuestions r
      /\ Results.duration r = durationOf s
      /\ userAnswers (fst (getResults s)) = userAnswers s
      /\ sameStore (heap s) (heap (fst (getResults s)))
  end.
Proof.
  apply (getResults_report
           (fold_left step [Submit 5 (str "CB"); Next 9] (sessionOf (str "CB")))).
  vm_compute. repeat constructor. eexists. reflexivity.
Defined.

(** ** The score, as doubles compute it *)

Lemma scoresAgree_100 : scoresAgree 100 = true.
Proof. vm_compute. reflexivity. Qed.

Lemma scoresAgree_spec m :
  scoresAgree m = true ->
  forall c n, 1 <= n <= m -> c <= n ->
  Double.roundRatio100 c n = Double.Int (expectedScore c n).
Proof.
  unfold scoresAgree. intros H c n Hn Hc.
  pose proof (proj1 (forallb_forall _ _) H n) as H1. cbv beta in H1.
  assert (In n (seq 1 m)) as Hin by (apply in_seq; lia).
  pose proof (proj1 (forallb_forall _ _) (H1 Hin) c) as H2. cbv beta in H2.
  assert (In c (seq 0 (S n))) as Hic by (apply in_seq; lia).
  specialize (H2 Hic).
  destruct (Double.roundRatio100 c n); try discriminate.
  apply Z.eqb_eq in H2. by rewrite H2.
Qed.

Lemma roundRatio100_upto_100 c n :
  1 <= n <= 100 -> c <= n ->
  Double.roundRatio100 c n = Double.Int (expectedScore c n).
Proof. exact (scoresAgree_spec 100 scoresAgree_100 c n). Qed.

Lemma getResults_counts s r :
  snd (getResults s) = inr r ->
  Results.totalQuestions r = length (selectedQuestions s)
  /\ Results.correctCount r <= Results.totalQuestions r
  /\ Results.score r
     = Double.roundRatio100 (Results.correctCount r) (Results.totalQuestions r)
  /\ Results.percentage r = Results.score r.
Proof.
  unfold getResults, calculateScore.
  destruct (isCompleted s); simpl; [|done].
  set (answers := map (fun i => mjoin (userAnswers s !! i))
                      (seq 0 (length (selectedQuestions s)))).
  pose proof (countCorrect_le answers 0 s) as L.
  pose proof (read_counts_length (userAnswers s) (length (selectedQuestions s)) 0) as L2.
  fold answers in L2.
  destruct (countCorrect 0 answers s) as [s1 c]. cbn [fst snd] in L.
  destruct (detailsFrom 0 (selectedQuestions s1) s1) as [s2 ds].
  simpl. intros [= <-]. simpl. repeat split; lia.
Qed.

(** X12. The score of the report, for a quiz of 1 to 100 questions (the
    sizes that the application lets a user start): it is the percentage of
    correct answers rounded half up, a whole number from 0 to 100, except
    that 23 of 40 and 46 of 80 give 57, not 58, since the product of the
    quotient with 100 falls just below 57.5 in double arithmetic. *)
Theorem getResults_score s r :
  snd (getResults s) = inr r ->
  1 <= length (selectedQuestions s) <= 100 ->
  let c := Results.correctCount r in
  let n := Results.totalQuestions r in
  Results.score r
  = Double.Int (if belowHalf c n then 57%Z
                else Z.of_nat ((200 * c + n) / (2 * n)))
  /\ Results.percentage r = Results.score r
  /\ (0 <= expectedScore c n <= 100)%Z
  /\ (expectedScore c n = 100%Z <-> c = n)
  /\ (expectedScore c n = 0%Z <-> 200 * c < n).
Proof.
  intros Hr Hn.
  destruct (getResults_counts s r Hr) as (Ht & Hc & Hs & Hp).
  simpl. rewrite <- Ht in Hn.
  set (c := Results.correctCount r) in *. set (n := Results.totalQuestions r) in *.
  split; [rewrite Hs; by apply roundRatio100_upto_100|]. split; [done|].
  clearbody c n. unfold expectedScore.
  destruct (belowHalf c n) eqn:Hb.
  { unfold belowHalf in Hb.
    apply orb_true_iff in Hb as [Hb|Hb]; apply andb_true_iff in Hb as [H1 H2];
      apply Nat.eqb_eq in H1, H2; lia. }
  assert (Hq : (200 * c + n) / (2 * n) <= 100).
  { apply Nat.lt_succ_r, Nat.Div0.div_lt_upper_bound. lia. }
  split; [lia|]. split.
  - split.
    + intros H. assert (100 <= (200 * c + n) / (2 * n)) as H' by lia.
      destruct (Nat.eq_dec c n) as [|Hne]; [done|].
      assert ((200 * c + n) / (2 * n) < 100); [|lia].
      apply Nat.Div0.div_lt_upper_bound. lia.
    + intros ->. f_equal.
      replace (200 * n + n) with (n + 100 * (2 * n)) by lia.
      rewrite Nat.div_add by lia. rewrite Nat.div_small; lia.
  - split.
    + intros H. assert ((200 * c + n) / (2 * n) = 0) as H' by lia.
      apply Nat.div_small_iff in H'; lia.
    + intros H. rewrite Nat.div_small; lia.
Qed.

Lemma getResults_score_witness :
  let s := fold_left step [Submit 5 (str "CB"); Next 9] (sessionOf (str "CB")) in
  exists r, snd (getResults s) = inr r
  /\ Results.score r = Double.Int 100
  /\ Results.score r
     = Double.Int (if belowHalf (Results.correctCount r) (Results.totalQuestions r)
                   then 57%Z
                   else Z.of_nat ((200 * Results.correctCount r
                                   + Results.totalQuestions r)
                                  / (2 * Results.totalQuestions r))).
Proof.
  eexists. split; [vm_compute; reflexivity|]. split; [vm_compute; reflexivity|].
  refine (proj1 (getResults_score
            (fold_left step [Submit 5 (str "CB"); Next 9] (sessionOf (str "CB")))
            _ _ _)).
  - vm_compute. reflexivity.
  - vm_compute. split; lia.
Defined.

End QuizEngineMore.

(** * The application's handlers *)

Module QuizAppFacts.

Import JS QuizEngine QuizEngineOps QuizApp Samples EngineNotions MoreNotions.
Import QuizEngineFacts QuizEngineMore.

Lemma running_frame s s' :
  selectedQuestions s' = selectedQuestions s ->
  currentIndex s' = currentIndex s ->
  userAnswers s' = userAnswers s ->
  isCompleted s' = isCompleted s ->
  sameStore (heap s) (heap s') ->
  running s -> running s'.
Proof.
  intros E1 E2 E3 E4 Hst (R1 & R2 & R3 & R4 & R5 & R6).
  unfold running, addressesValid, answeredBefore, allAnswered in *.
  rewrite E1, E2, E3, E4. repeat split; try done; try lia.
  eapply Forall_impl; [exact R4|]. intros a. by apply sameStore_is_Some.
Qed.

Lemma redrawable_frame s s' :
  selectedQuestions s' = selectedQuestions s ->
  allQuestions s' = allQuestions s ->
  numberOfQuestions s' = numberOfQuestions s ->
  sameStore (heap s) (heap s') ->
  redrawable s -> redrawable s'.
Proof.
  intros E1 E2 E3 Hst (R1 & R2 & R3). unfold redrawable.
  rewrite E1, E2, E3. repeat split; try done.
  eapply Forall_impl; [exact R3|]. intros a. by apply sameStore_is_Some.
Qed.

(** A fresh selection drawn from the valid addresses. *)
Lemma selectRandomQuestions_running rng s :
  1 <= Nat.min (Z.to_nat (numberOfQuestions s)) (length (allQuestions s)) <= 100 ->
  NoDup (allQuestions s) ->
  Forall (fun a => is_Some (heap s !! a)) (allQuestions s) ->
  currentIndex s = 0 -> isCompleted s = false ->
  running (selectRandomQuestions rng s) /\ redrawable (selectRandomQuestions rng s).
Proof.
  intros Hn Hnd Hval Hi Hc.
  unfold running, redrawable, addressesValid, answeredBefore, allAnswered,
    selectRandomQuestions. simpl. rewrite Hi, Hc, drawLoop_length. simpl.
  assert (Hd : NoDup (drawLoop rng 0 (Z.to_nat (numberOfQuestions s))
                               (allQuestions s) [])).
  { by apply drawLoop_NoDup. }
  assert (Hv : Forall (fun a => is_Some (heap s !! a))
                 (drawLoop rng 0 (Z.to_nat (numberOfQuestions s))
                           (allQuestions s) [])).
  { apply Forall_forall. intros a Ha.
    apply drawLoop_elem in Ha as [Ha|Ha]; [by apply elem_of_nil in Ha|].
    by eapply Forall_forall in Hval. }
  repeat split; try done; try lia.
Qed.

Lemma validAddresses_store pool :
  Forall (fun a => is_Some (pool !! a)) (validAddresses pool).
Proof.
  apply Forall_forall. intros a Ha.
  apply validAddresses_spec in Ha as (q & Hq & _). by exists q.
Qed.

Lemma constructor_running rng (pool : list Question) requested s :
  (1 <= requested <= 100)%Z ->
  constructor rng pool requested = inr s ->
  running s /\ redrawable s /\ heap s = pool
  /\ Z.of_nat (length (selectedQuestions s)) = Z.min requested
       (Z.of_nat (length (validAddresses pool)))
  /\ userAnswers s = replicate (length (selectedQuestions s)) None
  /\ startTime s = None /\ currentIndex s = 0 /\ isCompleted s = false.
Proof.
  intros Hn Hc.
  pose proof (constructor_filters_invalid_heap rng pool requested) as Hh.
  pose proof (constructor_fields rng pool requested s Hc)
    as (Ha & Hq & Hl & Hi & Hd & Hst & _ & Hu).
  rewrite Hc in Hh.
  pose proof (validAddresses_length pool) as Hle.
  assert (Hne : validAddresses pool <> []).
  { revert Hc. unfold constructor.
    destruct (length pool =? 0) eqn:E0; [done|].
    apply Nat.eqb_neq in E0.
    destruct (Nat.ltb_spec 0 (length pool - length (validAddresses pool))).
    - destruct (Nat.eqb_spec (length (validAddresses pool)) 0) as [|Hv]; [done|].
      intros _ E. by rewrite E in Hv.
    - intros _ E. rewrite E in *. simpl in *. lia. }
  assert (Hl1 : 1 <= length (validAddresses pool)).
  { destruct (validAddresses pool); [done|simpl; lia]. }
  assert (R : running s /\ redrawable s).
  { revert Hc. unfold constructor.
    destruct (length pool =? 0) eqn:E0; [done|].
    apply Nat.eqb_neq in E0.
    destruct (Nat.ltb_spec 0 (length pool - length (validAddresses pool))).
    - destruct (Nat.eqb_spec (length (validAddresses pool)) 0) as [|Hv]; [done|].
      intros [= <-]. apply selectRandomQuestions_running; simpl; try done;
        try lia; [apply validAddresses_NoDup|apply validAddresses_store].
    - assert (Hall : length (validAddresses pool) = length pool) by lia.
      pose proof (validAddresses_full pool Hall) as Hseq.
      intros [= <-]. apply selectRandomQuestions_running; simpl; try done;
        rewrite <- Hseq;
        [lia|apply validAddresses_NoDup|apply validAddresses_store]. }
  destruct R as [R1 R2].
  split; [done|]. split; [done|]. split; [done|]. split; [|done].
  rewrite Hl, Ha, Hq. lia.
Qed.

Lemma startNewQuiz_running rng s :
  running s -> redrawable s ->
  running (startNewQuiz rng None s) /\ redrawable (startNewQuiz rng None s).
Proof.
  intros (R1 & _) (D1 & D2 & D3). unfold startNewQuiz.
  apply selectRandomQuestions_running; simpl; try done. lia.
Qed.

Lemma submitAnswer_rejected now a s s' err :
  submitAnswer now a s = (s', inl err) -> userAnswers s' = userAnswers s.
Proof.
  unfold submitAnswer.
  destruct (validateQuizState s); [by intros [= <- _]|].
  destruct (_ <=? _); [by intros [= <- _]|].
  destruct (validateAnswerFormat a); [intros [= <- _]; by destruct (startTime s)|].
  destruct (validateAnswerForQuestion _ _);
    [intros [= <- _]; by destruct (startTime s)|].
  by destruct (isAnswerCorrect _ _ _).
Qed.

Lemma submitAnswer_stored now a s s' o :
  submitAnswer now a s = (s', inr o) ->
  userAnswers s' = arraySet (currentIndex s) (Some a) (userAnswers s)
  /\ a <> [] /\ isCompleted s = false.
Proof.
  intros H. destruct (submitAnswer_success now a s s' o H) as (V & L & F & _ & E).
  pose proof (isAnswerCorrect_fields (currentIndex s) a
                (setUserAnswers (arraySet (currentIndex s) (Some a) (userAnswers s))
                                (stamped now s))) as (_ & _ & U & _).
  rewrite <- E in U. cbn [fst] in U. split.
  { rewrite U. unfold stamped. by destruct (startTime s). }
  split.
  - pose proof (validateAnswerFormat_spec a) as M. rewrite F in M.
    intros ->. apply M. by left.
  - unfold validateQuizState in V. destruct (_ =? 0); [done|].
    by destruct (isCompleted s).
Qed.

(** Storing the answer to the current question extends the answered part
    by this question. *)
Lemma arraySet_answered (ua : list (option (list ascii))) cur a i :
  a <> [] ->
  (forall j, j < cur -> exists b, ua !! j = Some (Some b) /\ b <> []) ->
  i < S cur ->
  exists b, arraySet cur (Some a) ua !! i = Some (Some b) /\ b <> [].
Proof.
  intros Ha Hb Hi. destruct (Nat.eq_dec i cur) as [->|Hne].
  - exists a. by rewrite arraySet_lookup.
  - destruct (Hb i) as (b & Hl & Hn); [lia|].
    exists b. split; [|done]. rewrite arraySet_lookup_ne; [done|done|].
    by eapply lookup_lt_Some.
Qed.

Lemma handleAnswerSubmitted_running now later a app :
  holdsRunning app ->
  holdsRunning (fst (handleAnswerSubmitted now later a app))
  /\ snd (handleAnswerSubmitted now later a app)
     = match quizEngine app with
       | None => Some EngineMissing
       | Some e =>
           match snd (submitAnswer now a e) with
           | inl x => Some (AnswerError x)
           | inr _ => None
           end
       end.
Proof.
  unfold holdsRunning, handleAnswerSubmitted.
  destruct (quizEngine app) as [e|] eqn:He.
  2: { intros _. simpl. by rewrite He. }
  intros [R D].
  pose proof (submitAnswer_frame now a e) as (F1 & F2 & F3 & F4).
  pose proof (submitAnswer_static now a e) as (S1 & S2).
  destruct (submitAnswer now a e) as [e1 [err|o]] eqn:Es; cbn [fst snd] in *.
  - pose proof (submitAnswer_rejected _ _ _ _ _ Es) as U. simpl.
    split; [|done].
    split; [by eapply (running_frame e)|by eapply (redrawable_frame e)].
  - destruct (submitAnswer_stored _ _ _ _ _ Es) as (U & Ha & Hc).
    destruct R as (R1 & R2 & R3 & R4 & R5 & R6).
    assert (R4' : addressesValid e1).
    { unfold addressesValid. rewrite F1.
      eapply Forall_impl; [exact R4|]. intros x. by apply sameStore_is_Some. }
    unfold addressesValid in R4'. rewrite F1 in R4'.
    assert (D' : redrawable e1) by (by eapply (redrawable_frame e)).
    assert (A : forall i, i < S (currentIndex e) ->
                exists b, userAnswers e1 !! i = Some (Some b) /\ b <> []).
    { intros i Hi. rewrite U. by apply arraySet_answered. }
    unfold nextQuestion. rewrite F1, F2.
    destruct (Nat.ltb_spec (S (currentIndex e)) (length (selectedQuestions e)))
      as [Hlt|Hge].
    + unfold getCurrentQuestion. simpl. rewrite F1.
      destruct (Nat.leb_spec (length (selectedQuestions e)) (S (currentIndex e)));
        [lia|]. simpl.
      unfold displayCurrentQuestion, getCurrentQuestion. simpl. rewrite F1.
      destruct (Nat.leb_spec (length (selectedQuestions e)) (S (currentIndex e)));
        [lia|].
      split; [|done]. split; [|done].
      unfold running, addressesValid, answeredBefore, allAnswered. simpl.
      rewrite F1, F3, Hc. repeat split; try done; lia.
    + destruct (Nat.eqb_spec (S (currentIndex e)) (length (selectedQuestions e)))
        as [Heq|Hne]; [|lia].
      pose proof (getResults_frame (setCompleted later e1))
        as (G1 & G2 & G3 & G4 & _ & _ & G7 & G8 & G9).
      assert (Rc : running (setCompleted later e1)).
      { unfold running, addressesValid, answeredBefore, allAnswered. simpl.
        rewrite F1, F2. repeat split; try done; try lia.
        - intros i Hi. apply A. lia.
        - intros _ i Hi. apply A. lia. }
      assert (Hres : exists r, snd (getResults (setCompleted later e1)) = inr r).
      { unfold getResults. simpl. destruct (calculateScore _).
        destruct (detailsFrom _ _ _). by eexists. }
      destruct Hres as [r Hr].
      destruct (getResults (setCompleted later e1)) as [e3 res].
      cbn [fst snd] in *. subst res. simpl.
      split; [|done]. split.
      * by eapply (running_frame (setCompleted later e1)).
      * eapply (redrawable_frame (setCompleted later e1)); try done.
Qed.

Lemma handleNewQuiz_running rng app :
  holdsRunning app ->
  holdsRunning (fst (handleNewQuiz rng app))
  /\ snd (handleNewQuiz rng app) = None.
Proof.
  unfold holdsRunning, handleNewQuiz.
  destruct (quizEngine app) as [e|] eqn:He; [|by simpl; rewrite He].
  intros [R D]. cbn [fst snd].
  destruct (startNewQuiz_running rng e R D) as [R' D'].
  set (e' := startNewQuiz rng None e) in *.
  unfold displayCurrentQuestion, getCurrentQuestion.
  cbn [quizEngine withEngine]. split; [done|].
  destruct R' as (R1 & R2 & _).
  destruct (Nat.leb_spec (length (selectedQuestions e')) (currentIndex e'));
    [lia|done].
Qed.

Lemma handleStartQuiz_running rng count app :
  holdsRunning app -> holdsRunning (fst (handleStartQuiz rng count app)).
Proof.
  unfold handleStartQuiz, validateQuizStartConditions.
  destruct (negb (isInitialized app)); [done|].
  destruct (length (questions app) =? 0) eqn:E0; [done|].
  destruct (Z.ltb_spec count 1); [done|].
  destruct (Z.ltb_spec 100 count); [done|].
  apply Nat.eqb_neq in E0.
  destruct (constructor rng (questions app) _) as [err|e] eqn:Ec; [done|].
  intros _. unfold holdsRunning. simpl.
  apply constructor_running in Ec as (R & D & _); [done|lia].
Qed.

Lemma run_running events : forall app,
  holdsRunning app -> holdsRunning (run events app).
Proof.
  unfold run. induction events as [|ev events IH]; intros app H; simpl; [done|].
  apply IH. destruct ev as [rng n|now later a|rng]; simpl.
  - by apply handleStartQuiz_running.
  - by apply handleAnswerSubmitted_running.
  - by apply handleNewQuiz_running.
Qed.

Lemma expectedScore_range c n :
  1 <= n -> c <= n -> (0 <= expectedScore c n <= 100)%Z.
Proof.
  intros Hn Hc. unfold expectedScore. destruct (belowHalf c n); [lia|].
  assert ((200 * c + n) / (2 * n) < 101); [|lia].
  apply Nat.Div0.div_lt_upper_bound. lia.
Qed.


(** X14. Whatever the user does in the interface (start a quiz, submit
    answers, ask for a new quiz), starting without a session, the session
    that the application holds is of 1 to 100 different questions of the
    store and stands at one of them; every question before the current one
    has a non-empty answer, and a completed session has one for every
    question. The results of a completed session are available, and their
    score is a whole number from 0 to 100, never [NaN]. *)
Theorem sessions_of_the_application events app :
  quizEngine app = None ->
  match quizEngine (run events app) with
  | None => True
  | Some e =>
      running e
      /\ (isCompleted e = true ->
          allAnswered e
          /\ exists r, snd (getResults e) = inr r
             /\ Results.totalQuestions r = length (selectedQuestions e)
             /\ exists z, Results.score r = Double.Int z /\ (0 <= z <= 100)%Z)
  end.
Proof.
  intros Hnone.
  assert (H : holdsRunning (run events app)).
  { apply run_running. unfold holdsRunning. by rewrite Hnone. }
  unfold holdsRunning in H.
  destruct (quizEngine (run events app)) as [e|]; [|done].
  destruct H as [R _]. split; [done|]. intros Hc.
  pose proof R as (R1 & _ & _ & _ & _ & R6). split; [by apply R6|].
  assert (Hres : exists r, snd (getResults e) = inr r).
  { unfold getResults. rewrite Hc. simpl. destruct (calculateScore _).
    destruct (detailsFrom _ _ _). by eexists. }
  destruct Hres as [r Hr]. exists r. split; [done|].
  destruct (getResults_counts e r Hr) as (Ht & Hle & Hs & _).
  split; [done|]. exists (expectedScore (Results.correctCount r)
                                        (Results.totalQuestions r)).
  split.
  - rewrite Hs. apply roundRatio100_upto_100; [lia|done].
  - apply expectedScore_range; [lia|done].
Qed.

Lemma sessions_of_the_application_witness :
  match quizEngine (run [StartQuiz zeroRng 5; AnswerSubmitted 5 9 (str "CB")]
                        (appOf [fourOptions (str "BC")])) with
  | None => True
  | Some e =>
      running e
      /\ (isCompleted e = true ->
          allAnswered e
          /\ exists r, snd (getResults e) = inr r
             /\ Results.totalQuestions r = length (selectedQuestions e)
             /\ exists z, Results.score r = Double.Int z /\ (0 <= z <= 100)%Z)
  end.
Proof.
  apply (sessions_of_the_application
           [StartQuiz zeroRng 5; AnswerSubmitted 5 9 (str "CB")]
           (appOf [fourOptions (str "BC")])).
  reflexivity.
Defined.

(** X15. What submitting an answer from the interface reports, after
    whatever the user did before: the engine's error when [submitAnswer]
    rejects the answer, the missing engine when no quiz was started, and
    nothing otherwise. So a current question or the results of the quiz
    are never missing when they are to be displayed. *)
Theorem handleAnswerSubmitted_reports events app now later a :
  quizEngine app = None ->
  snd (handleAnswerSubmitted now later a (run events app))
  = match quizEngine (run events app) with
    | None => Some EngineMissing
    | Some e =>
        match snd (submitAnswer now a e) with
        | inl x => Some (AnswerError x)
        | inr _ => None
        end
    end.
Proof.
  intros Hnone. apply handleAnswerSubmitted_running, run_running.
  unfold holdsRunning. by rewrite Hnone.
Qed.

Lemma handleAnswerSubmitted_reports_witness :
  snd (handleAnswerSubmitted 5 9 (str "CB")
         (run [StartQuiz zeroRng 5] (appOf [fourOptions (str "BC")])))
  = match quizEngine (run [StartQuiz zeroRng 5] (appOf [fourOptions (str "BC")])) with
    | None => Some EngineMissing
    | Some e =>
        match snd (submitAnswer 5 (str "CB") e) with
        | inl x => Some (AnswerError x)
        | inr _ => None
        end
    end.
Proof.
  apply (handleAnswerSubmitted_reports [StartQuiz zeroRng 5]
           (appOf [fourOptions (str "BC")]) 5%Z 9%Z (str "CB")).
  reflexivity.
Defined.

End QuizAppFacts.

(** * The parser: further properties *)

Module MarkdownParserMore.

Import JS MarkdownParser Samples ParserNotions MoreNotions MarkdownParserFacts.

(** ** Strings *)

Lemma stripPrefix_app p : forall s r, stripPrefix p s = Some r -> s = p ++ r.
Proof.
  induction p as [|a p IH]; intros s r; simpl; [by intros [= ->]|].
  destruct s as [|b s]; [done|]. destruct (eqc a b) eqn:E; [|done].
  apply eqc_eq in E as ->. intros H%IH. by rewrite H.
Qed.

Lemma stripPrefix_same p r : stripPrefix p (p ++ r) = Some r.
Proof. induction p as [|a p IH]; simpl; [done|]. by rewrite eqc_refl. Qed.

Lemma startsWith_app p s r : startsWith p s = true -> startsWith p (s ++ r) = true.
Proof.
  unfold startsWith. revert s. induction p as [|a p IH]; intros s; simpl; [done|].
  destruct s as [|b s]; [done|]. simpl. destruct (eqc a b); [apply IH|done].
Qed.

Lemma span_app f s : forall a b,
  span f s = (a, b) ->
  s = a ++ b /\ Forall (fun c => f c = true) a
  /\ match b with [] => True | c :: _ => f c = false end.
Proof.
  induction s as [|c s IH]; intros a b; simpl.
  - intros [= <- <-]. by repeat split.
  - destruct (f c) eqn:E.
    + destruct (span f s) as [a' b']. intros [= <- <-].
      destruct (IH a' b' eq_refl) as (-> & Ha & Hb).
      split; [done|]. split; [by constructor|done].
    + intros [= <- <-]. by repeat split.
Qed.

Lemma span_same f a : forall b,
  Forall (fun c => f c = true) a ->
  match b with [] => True | c :: _ => f c = false end ->
  span f (a ++ b) = (a, b).
Proof.
  induction a as [|c a IH]; intros b Ha Hb; simpl.
  - destruct b as [|c b]; [done|]. simpl. by rewrite Hb.
  - apply Forall_cons in Ha as [Hc Ha]. by rewrite Hc, IH.
Qed.

(** ** Blocks *)

Lemma matchHeading_shape s digits r :
  matchHeading s = Some (digits, r) ->
  s = str "## Pregunta " ++ digits ++ [nl; nl] ++ r
  /\ digits <> [] /\ Forall (fun c => isDigit c = true) digits.
Proof.
  unfold matchHeading.
  destruct (stripPrefix (str "## Pregunta ") s) as [r0|] eqn:E0; [|done].
  apply stripPrefix_app in E0.
  destruct (span isDigit r0) as [ds r1] eqn:E1.
  apply span_app in E1 as (-> & Hd & _).
  destruct ds as [|d ds]; [done|].
  destruct (stripPrefix [nl; nl] r1) as [r2|] eqn:E2; [|done].
  apply stripPrefix_app in E2. intros [= <- <-].
  split; [by rewrite E0, E2|]. by split.
Qed.

Lemma lazyBody_shape s : forall body rest,
  lazyBody s = (body, rest) ->
  s = body ++ rest
  /\ forall b1 b2, body = b1 ++ b2 -> b2 <> [] -> blockEnd (b2 ++ rest) = false.
Proof.
  induction s as [|c s IH]; intros body rest.
  - simpl. destruct (blockEnd []); intros [= <- <-]; (split; [done|]);
      intros b1 b2 Hb; by destruct b1, b2.
  - cbn [lazyBody]. destruct (blockEnd (c :: s)) eqn:E.
    + intros [= <- <-]. split; [done|]. intros b1 b2 Hb; by destruct b1, b2.
    + destruct (lazyBody s) as [b r]. intros [= <- <-].
      destruct (IH b r eq_refl) as [-> Hin]. split; [done|].
      intros b1 b2 Hb Hne. destruct b1 as [|c1 b1].
      * simpl in Hb. by rewrite <- Hb.
      * simpl in Hb. injection Hb as _ Hb. by eapply Hin.
Qed.

Lemma blockEnd_marks b2 rest :
  blockEnd (b2 ++ rest) = false ->
  startsWith (str "## Pregunta") b2 = false
  /\ startsWith (nl :: str "---") b2 = false
  /\ startsWith (nl :: str "#") b2 = false.
Proof.
  unfold blockEnd. intros H.
  apply orb_false_iff in H as [H _].
  apply orb_false_iff in H as [H H3]. apply orb_false_iff in H as [H1 H2].
  repeat split.
  - destruct (startsWith (str "## Pregunta") b2) eqn:E; [|done].
    by rewrite (startsWith_app _ _ rest E) in H1.
  - destruct (startsWith (nl :: str "---") b2) eqn:E; [|done].
    by rewrite (startsWith_app _ _ rest E) in H2.
  - destruct (startsWith (nl :: str "#") b2) eqn:E; [|done].
    by rewrite (startsWith_app _ _ rest E) in H3.
Qed.

Lemma matchBlock_shape s b rest :
  matchBlock s = Some (b, rest) ->
  s = b ++ rest /\ exists digits body, blockShape b digits body.
Proof.
  unfold matchBlock.
  destruct (matchHeading s) as [[digits r]|] eqn:Eh; [|done].
  apply matchHeading_shape in Eh as (-> & Hne & Hd).
  destruct (lazyBody r) as [body rest'] eqn:El.
  apply lazyBody_shape in El as [-> Hin]. intros [= <- <-]. split.
  - simpl. by rewrite <- app_assoc.
  - exists digits, body. split; [done|]. split; [done|]. split; [done|].
    intros b1 b2 Hb Hn. eapply blockEnd_marks. by eapply Hin.
Qed.

Lemma execBlock_shape s : forall b rest,
  execBlock s = Some (b, rest) ->
  (exists gap, s = gap ++ b ++ rest) /\ exists digits body, blockShape b digits body.
Proof.
  induction s as [|c s IH]; intros b rest; cbn [execBlock].
  - destruct (matchBlock []) as [[b' r']|] eqn:E; [|done].
    intros [= <- <-]. apply matchBlock_shape in E as [E ?]. split; [|done].
    exists []. done.
  - destruct (matchBlock (c :: s)) as [[b' r']|] eqn:E.
    + intros [= <- <-]. apply matchBlock_shape in E as [E ?]. split; [|done].
      exists []. done.
    + intros H. destruct (IH b rest H) as [[gap ->] ?]. split; [|done].
      by exists (c :: gap).
Qed.

Lemma execAll_shape fuel : forall s,
  length s <= fuel ->
  (exists gaps, length gaps = S (length (execAll execBlock fuel s))
                /\ s = weave gaps (execAll execBlock fuel s)
                /\ exists g, last gaps = Some g /\ execBlock g = None)
  /\ Forall (fun b => exists digits body, blockShape b digits body)
            (execAll execBlock fuel s).
Proof.
  induction fuel as [|fuel IH]; intros s Hfuel; cbn [execAll].
  - destruct s; [|simpl in Hfuel; lia].
    split; [|by constructor]. exists [[]]. split; [done|]. split; [done|].
    by exists [].
  - destruct (execBlock s) as [[b rest]|] eqn:E.
    + pose proof (execBlock_shorter _ _ _ E) as Hlt.
      apply execBlock_shape in E as [[gap ->] Hb].
      destruct (IH rest) as [(gaps & Hl & Hw & g & Hg & Hn) Hf]; [lia|]. split.
      * exists (gap :: gaps). split; [simpl; lia|].
        split; [cbn [weave]; by rewrite <- Hw|].
        exists g. split; [|done]. destruct gaps; [done|]. by rewrite last_cons, Hg.
      * by constructor.
    + split; [|by constructor]. exists [s]. split; [done|]. split; [done|].
      by exists s.
Qed.

(** X16. The question blocks that [parseQuestions] finds are stretches of
    the document that follow one another in the order of the document and
    do not overlap: the document is made of the blocks and of the gaps
    before, between and after them. No question heading is left in the
    gap after the last block. *)
Theorem blocks_tile_the_document markdownContent :
  exists gaps,
    length gaps = S (length (questionBlocks markdownContent))
    /\ markdownContent = weave gaps (questionBlocks markdownContent)
    /\ exists g, last gaps = Some g /\ ~ containsHeading g.
Proof.
  destruct (execAll_shape (length markdownContent) markdownContent)
    as [(gaps & Hl & Hw & g & Hg & Hn) _]; [done|].
  exists gaps. split; [done|]. split; [done|]. exists g. split; [done|].
  intros H%execBlock_heading. rewrite Hn in H. by destruct H.
Qed.

Lemma isDigit_nl : isDigit nl = false.
Proof. reflexivity. Qed.

Lemma execNumber_block b digits body :
  blockShape b digits body -> execNumber b = Some digits.
Proof.
  intros (-> & Hne & Hd & _).
  assert (H : forall r, execNumber (str "## Pregunta " ++ r)
              = match fst (span isDigit r) with
                | [] => execNumber (tl (str "## Pregunta " ++ r))
                | (_ :: _) as ds => Some ds
                end).
  { intros r. change (str "## Pregunta " ++ r)
      with ("#"%char :: (tl (str "## Pregunta ") ++ r)).
    cbn [execNumber tl].
    change ("#"%char :: (tl (str "## Pregunta ") ++ r))
      with (str "## Pregunta " ++ r).
    by rewrite stripPrefix_same. }
  rewrite H, (span_same isDigit digits ([nl; nl] ++ body) Hd isDigit_nl).
  simpl. by destruct digits.
Qed.

(** X17. Every question block begins with a question heading: the digits
    of its number, two line feeds, and then a body within which no mark
    that ends a block begins (another heading, a line feed before three
    dashes or before a hash). The number that [extractQuestion] reads is
    the one of this heading, so it never fails for the lack of a number. *)
Theorem blocks_begin_with_their_heading markdownContent :
  Forall (fun b =>
            exists digits body,
              blockShape b digits body
              /\ execNumber b = Some digits
              /\ forall now i, extractQuestion now b i <> inl NoQuestionNumber)
         (questionBlocks markdownContent).
Proof.
  eapply Forall_impl; [by apply execAll_shape|].
  intros b (digits & body & Hs). exists digits, body.
  pose proof (execNumber_block b digits body Hs) as Hn.
  split; [done|]. split; [done|].
  intros now i. unfold extractQuestion. rewrite Hn.
  destruct (extractQuestionContent b); [done|].
  destruct (_ =? 0); [done|]. by destruct (_ =? 0).
Qed.

(** ** The records of a pool *)

Lemma existsb_eqc_elem x (u : list ascii) : existsb (eqc x) u = true <-> x ∈ u.
Proof.
  rewrite existsb_exists. split.
  - intros (y & Hy & E). apply eqc_eq in E as ->. by apply list_elem_of_In.
  - intros H. exists x. split; [by apply list_elem_of_In|apply eqc_refl].
Qed.

Lemma firstAppearances_NoDup l : NoDup (firstAppearances l).
Proof.
  induction l as [|x l IH]; cbn [firstAppearances]; [constructor|].
  constructor.
  - intros H. apply list_elem_of_In, filter_In in H as [_ H].
    by rewrite eqc_refl in H.
  - by apply NoDup_ListNoDup, List.NoDup_filter, NoDup_ListNoDup.
Qed.

Lemma extractAnswers_keys questionBlock :
  keys (extractAnswers questionBlock)
  = firstAppearances (map fst (optionMatches questionBlock)).
Proof.
  unfold extractAnswers.
  rewrite (keys_fold (fun m => cleanOptionText (trim (snd m)))). simpl.
  apply Lists.filter_all. intros. done.
Qed.

(** The array of the distinct elements is as long as the array only when
    the array has no repetition. *)
Lemma uniqueOf_step_length a : forall u,
  length (fold_left (fun u x => if existsb (eqc x) u then u else u ++ [x]) a u)
  <= length u + length a.
Proof.
  induction a as [|x a IH]; intros u; simpl; [lia|].
  destruct (existsb (eqc x) u).
  - specialize (IH u). lia.
  - specialize (IH (u ++ [x])). rewrite length_app in IH. simpl in IH. lia.
Qed.

Lemma uniqueOf_step_NoDup a : forall u,
  NoDup u ->
  length (fold_left (fun u x => if existsb (eqc x) u then u else u ++ [x]) a u)
  = length u + length a ->
  NoDup (u ++ a).
Proof.
  induction a as [|x a IH]; intros u Hu; simpl.
  - intros _. by rewrite app_nil_r.
  - destruct (existsb (eqc x) u) eqn:E.
    + pose proof (uniqueOf_step_length a u). lia.
    + intros Hl. replace (u ++ x :: a) with ((u ++ [x]) ++ a)
        by (by rewrite <- app_assoc).
      apply IH.
      * apply NoDup_app. split; [done|]. split; [|apply NoDup_singleton].
        intros y Hy ->%list_elem_of_singleton.
        apply existsb_eqc_elem in Hy. by rewrite Hy in E.
      * rewrite length_app. simpl. lia.
Qed.

Lemma uniqueOf_NoDup a : length (uniqueOf a) = length a -> NoDup a.
Proof. intros H. apply (uniqueOf_step_NoDup a []); [constructor|done]. Qed.

Lemma truthy_get_elem (o : list (ascii * list ascii)) c :
  truthy (get o c) = true -> c ∈ keys o.
Proof.
  induction o as [|[k v] o IH]; simpl; [done|].
  destruct (eqc k c) eqn:E.
  - apply eqc_eq in E as ->. intros _. apply list_elem_of_here.
  - intros H. apply list_elem_of_further. by apply IH.
Qed.

Lemma trim_nonempty (t : list ascii) : (length (trim t) =? 0) = false -> trim t <> [].
Proof. intros H E. by rewrite E in H. Qed.

Lemma isValid_record q :
  isValid q = true -> NoDup (keys (options q)) -> wellFormedRecord q.
Proof.
  unfold isValid. cbn [omap list_omap].
  destruct (validateBasicStructure q) eqn:Hb; [done|].
  destruct (validateQuestionContent q) eqn:Hc; [done|].
  destruct (validateQuestionOptions q) eqn:Ho; [done|].
  destruct (validateCorrectAnswers q) eqn:Ha; [done|].
  destruct (validateAnswerConsistency q) eqn:Hk; [done|]. intros _ Hnd.
  unfold validateBasicStructure in Hb.
  unfold validateQuestionContent, minContentLength, maxContentLength in Hc.
  unfold validateQuestionOptions, minOptions, maxOptions, requiredOptionLetters in Ho.
  unfold validateCorrectAnswers in Ha.
  unfold validateAnswerConsistency in Hk.
  unfold wellFormedRecord.
  split; [by destruct (id q)|].
  split; [destruct (id q); [done|]; by destruct (title q)|].
  destruct (Nat.ltb_spec (length (content q)) 10); [done|].
  destruct (Nat.ltb_spec 2000 (length (content q))); [done|].
  destruct (length (trim (content q)) =? 0) eqn:Ht; [done|].
  split; [lia|]. split; [by apply trim_nonempty|].
  unfold keys in Ho. rewrite length_map in Ho.
  destruct (Nat.ltb_spec (length (options q)) 2); [done|].
  destruct (Nat.ltb_spec 8 (length (options q))); [done|].
  split; [lia|]. split; [done|].
  cbn [firstError] in Ho.
  destruct (truthy (get (options q) "A")) eqn:HA; [|done].
  destruct (truthy (get (options q) "B")) eqn:HB; [|done].
  split; [by apply truthy_get_elem|]. split; [by apply truthy_get_elem|].
  apply EndToEnd.firstError_None in Ho. split.
  { eapply Forall_impl; [exact Ho|]. intros [k v]. simpl.
    unfold validateSingleOption, maxOptionTextLength.
    destruct (isUpper k); [|done]. simpl. destruct v as [|c v]; [done|].
    destruct (length (trim (c :: v)) =? 0) eqn:Hv; [done|].
    destruct (Nat.ltb_spec 500 (length (c :: v))); [done|]. intros _.
    split; [done|]. split; [by apply trim_nonempty|]. simpl in *. lia. }
  destruct (length (correctAnswers q) =? 0) eqn:Hl; [done|].
  split; [intros E; by rewrite E in Hl|].
  destruct (firstError _ (correctAnswers q)) eqn:Hu; [done|].
  apply EndToEnd.firstError_None in Hu.
  destruct (Nat.eqb_spec (length (uniqueOf (correctAnswers q)))
                         (length (correctAnswers q))) as [Hq|]; [|done].
  split.
  { eapply Forall_impl; [exact Hu|]. intros a. simpl. by destruct (isUpper a). }
  split; [by apply uniqueOf_NoDup|].
  apply EndToEnd.firstError_None in Hk.
  eapply Forall_impl; [exact Hk|]. intros a. simpl.
  destruct (truthy (get (options q) a)) eqn:E; [|done]. intros _.
  by apply truthy_get_elem.
Qed.

Lemma extractQuestion_fields now b i q :
  extractQuestion now b i = inr q ->
  rawBlock q = b
  /\ content q = extractQuestionContent b
  /\ options q = extractAnswers b
  /\ correctAnswers q = extractCorrectAnswer b
  /\ exists digits, execNumber b = Some digits
       /\ id q = padStart0 3 digits /\ title q = str "Pregunta " ++ digits.
Proof.
  unfold extractQuestion.
  destruct (execNumber b) as [digits|]; [|done].
  destruct (extractQuestionContent b) eqn:Ec; [done|].
  destruct (_ =? 0); [done|]. destruct (_ =? 0); [done|].
  intros [= <-]. simpl. repeat split; try done. by exists digits.
Qed.

Lemma acceptedFrom_extracted clock blocks : forall count,
  map rawBlock (acceptedFrom clock count blocks) `sublist_of` blocks
  /\ Forall (fun q => isValid q = true
                      /\ exists now i, extractQuestion now (rawBlock q) i = inr q)
            (acceptedFrom clock count blocks).
Proof.
  induction blocks as [|b blocks IH]; intros count; cbn [acceptedFrom].
  { split; [constructor|by constructor]. }
  destruct (IH (S count)) as [I1 I2]. unfold accepted.
  destruct (extractQuestion _ b (S count)) as [e|q] eqn:E.
  { split; [by apply sublist_cons|done]. }
  destruct (isValid q) eqn:Hv.
  - pose proof (extractQuestion_fields _ _ _ _ E) as (Hr & _).
    split; [simpl; rewrite Hr; by apply sublist_skip|].
    constructor; [|done]. split; [done|]. rewrite Hr. by eexists _, _.
  - split; [by apply sublist_cons|done].
Qed.

Lemma parseQuestions_pool clock markdownContent st pool :
  snd (parseQuestions clock markdownContent st) = inr pool ->
  pool = acceptedFrom clock 0 (questionBlocks markdownContent) /\ pool <> [].
Proof.
  intros Hparse.
  destruct (snd (validateMarkdownContent markdownContent (resetParsingState st)))
    eqn:Hok.
  - destruct (parseQuestions_blocks clock markdownContent st Hok) as (Hr & _ & _).
    rewrite Hr in Hparse.
    destruct (acceptedFrom clock 0 (questionBlocks markdownContent)); [done|].
    simpl in Hparse. by injection Hparse as <-.
  - destruct (parseQuestions_invalid clock markdownContent st Hok) as (Hr & _).
    congruence.
Qed.

(** X18. Every record of a pool that [parseQuestions] returns is well
    formed: an id and a title; a content of 10 to 2000 characters that is
    not blank; 2 to 8 options, among them A and B, with different capital
    letters and texts of 1 to 500 characters that are not blank; one or
    more correct answers, capital letters without repetition, each the
    letter of an option. *)
Theorem parsed_records_are_well_formed clock markdownContent st pool :
  snd (parseQuestions clock markdownContent st) = inr pool ->
  pool <> [] /\ Forall wellFormedRecord pool.
Proof.
  intros [-> Hne]%parseQuestions_pool. split; [done|].
  destruct (acceptedFrom_extracted clock (questionBlocks markdownContent) 0)
    as [_ H].
  eapply Forall_impl; [exact H|]. intros q (Hv & now & i & He).
  apply isValid_record; [done|].
  apply extractQuestion_fields in He as (_ & _ & -> & _).
  rewrite extractAnswers_keys. apply firstAppearances_NoDup.
Qed.

Lemma parsed_records_are_well_formed_witness :
  exists pool,
    snd (parseQuestions (fun _ => 0%Z) docCB freshParser) = inr pool
    /\ pool <> [] /\ Forall wellFormedRecord pool.
Proof.
  eexists. split; [vm_compute; reflexivity|].
  apply (parsed_records_are_well_formed (fun _ => 0%Z) docCB freshParser).
  vm_compute. reflexivity.
Defined.

(** X19. The records of a pool come from the question blocks in the order
    of the document, one record from one block and no block twice, and a
    record holds what the extraction functions read in its own block: the
    id is the number of the block's heading, padded with zeros to three
    digits and not renumbered. *)
Theorem parsed_records_follow_the_blocks clock markdownContent st pool :
  snd (parseQuestions clock markdownContent st) = inr pool ->
  map rawBlock pool `sublist_of` questionBlocks markdownContent
  /\ Forall (fun q =>
               content q = extractQuestionContent (rawBlock q)
               /\ options q = extractAnswers (rawBlock q)
               /\ correctAnswers q = extractCorrectAnswer (rawBlock q)
               /\ exists digits body,
                    blockShape (rawBlock q) digits body
                    /\ id q = padStart0 3 digits
                    /\ title q = str "Pregunta " ++ digits)
            pool.
Proof.
  intros [-> Hne]%parseQuestions_pool.
  destruct (acceptedFrom_extracted clock (questionBlocks markdownContent) 0)
    as [Hs H].
  split; [done|].
  destruct (execAll_shape (length markdownContent) markdownContent)
    as [_ Hb]; [done|]. fold (questionBlocks markdownContent) in Hb.
  apply Forall_forall. intros q Hq.
  pose proof (proj1 (Forall_forall _ _) H q Hq) as (_ & now & i & He).
  apply extractQuestion_fields in He as (_ & Hc & Ho & Ha & digits & Hn & Hi & Ht).
  split; [done|]. split; [done|]. split; [done|].
  assert (Hin : rawBlock q ∈ questionBlocks markdownContent).
  { eapply elem_of_sublist; [|exact Hs]. apply list_elem_of_fmap. by exists q. }
  pose proof (proj1 (Forall_forall _ _) Hb _ Hin) as (digits' & body & Hshape).
  pose proof (execNumber_block _ _ _ Hshape) as Hn'.
  rewrite Hn in Hn'. injection Hn' as ->.
  by exists digits', body.
Qed.

Lemma parsed_records_follow_the_blocks_witness :
  exists pool,
    snd (parseQuestions (fun _ => 0%Z) docCB freshParser) = inr pool
    /\ map rawBlock pool `sublist_of` questionBlocks docCB.
Proof.
  eexists. split; [vm_compute; reflexivity|].
  refine (proj1 (parsed_records_follow_the_blocks
                   (fun _ => 0%Z) docCB freshParser _ _)).
  vm_compute. reflexivity.
Defined.

(** ** The correct answers of a block *)

Lemma inquire_fold (v : list ascii) : forall acc,
  exists extra,
    fold_left (fun correctAnswers char =>
                 if isUpper char && negb (existsb (eqc char) correctAnswers)
                 then correctAnswers ++ [char] else correctAnswers) v acc
    = acc ++ extra
    /\ NoDup extra
    /\ forall c, c ∈ extra <-> c ∈ List.filter isUpper v /\ c ∉ acc.
Proof.
  induction v as [|x v IH]; intros acc; cbn [fold_left List.filter].
  { exists []. split; [by rewrite app_nil_r|]. split; [constructor|].
    intros c. split; [by intros ?%elem_of_nil|by intros [?%elem_of_nil _]]. }
  destruct (isUpper x) eqn:Hu; cbn [andb].
  - destruct (existsb (eqc x) acc) eqn:Hx; cbn [negb].
    + destruct (IH acc) as (extra & He & Hn & Hm). exists extra.
      split; [done|]. split; [done|]. intros c. rewrite Hm.
      apply existsb_eqc_elem in Hx. split.
      * intros [H1 H2]. split; [by apply list_elem_of_further|done].
      * intros [H1 H2]. split; [|done].
        apply elem_of_cons in H1 as [->|H1]; [done|done].
    + destruct (IH (acc ++ [x])) as (extra & He & Hn & Hm). exists (x :: extra).
      assert (Hx' : x ∉ acc).
      { intros H%existsb_eqc_elem. by rewrite H in Hx. }
      split; [by rewrite He, <- app_assoc|]. split.
      * constructor; [|done]. intros H%Hm. destruct H as [_ H]. apply H.
        apply elem_of_app. right. apply list_elem_of_here.
      * intros c. rewrite !elem_of_cons, Hm, elem_of_app, list_elem_of_singleton.
        split.
        -- intros [->|[H1 H2]]; [by split; [left|]|]. split; [by right|]. tauto.
        -- intros [[->|H1] H2]; [by left|].
           destruct (eqc c x) eqn:E; [apply eqc_eq in E; by left|].
           right. split; [done|]. intros [? | ->]; [done|]. by rewrite eqc_refl in E.
  - destruct (IH acc) as (extra & He & Hn & Hm). by exists extra.
Qed.

(** X20. The correct answers of a block are the capital letters of the
    [message] attribute, as often and in the order in which they stand
    there, followed by the capital letters of the [inquire] attribute that
    are not among them, each once. So a letter can only be repeated when
    the [message] attribute repeats it. *)
Theorem extractCorrectAnswer_letters questionBlock :
  let upper name := match execAttr (str name) questionBlock with
                    | Some value => List.filter isUpper value
                    | None => []
                    end in
  exists extra,
    extractCorrectAnswer questionBlock = upper "message"%string ++ extra
    /\ NoDup extra
    /\ (forall c, c ∈ extra <-> c ∈ upper "inquire"%string /\ c ∉ upper "message"%string)
    /\ Forall (fun c => isUpper c = true) (extractCorrectAnswer questionBlock)
    /\ (NoDup (upper "message"%string) -> NoDup (extractCorrectAnswer questionBlock)).
Proof.
  cbv zeta. unfold extractCorrectAnswer.
  set (m := match execAttr (str "message") questionBlock with
            | Some v => List.filter isUpper v
            | None => []
            end).
  assert (Hm : Forall (fun c => isUpper c = true) m).
  { subst m. destruct (execAttr _ _); [|constructor].
    apply Forall_forall. intros c Hc. by apply list_elem_of_In, filter_In in Hc as [_ ?]. }
  assert (H : exists extra,
             match execAttr (str "inquire") questionBlock with
             | Some inquireValue =>
                 fold_left (fun correctAnswers char =>
                              if isUpper char && negb (existsb (eqc char) correctAnswers)
                              then correctAnswers ++ [char] else correctAnswers)
                           inquireValue m
             | None => m
             end = m ++ extra
             /\ NoDup extra
             /\ forall c, c ∈ extra
                  <-> c ∈ match execAttr (str "inquire") questionBlock with
                          | Some value => List.filter isUpper value
                          | None => []
                          end /\ c ∉ m).
  { destruct (execAttr (str "inquire") questionBlock) as [v|]; [apply inquire_fold|].
    exists []. split; [by rewrite app_nil_r|]. split; [constructor|].
    intros c. split; [by intros ?%elem_of_nil|by intros [?%elem_of_nil _]]. }
  destruct H as (extra & He & Hn & Hx). exists extra.
  split; [done|]. split; [done|]. split; [done|]. rewrite He. split.
  - apply Forall_app. split; [done|]. apply Forall_forall. intros c Hc.
    apply Hx in Hc as [Hc _]. destruct (execAttr (str "inquire") questionBlock);
      [|by apply elem_of_nil in Hc].
    by apply list_elem_of_In, filter_In in Hc as [_ ?].
  - intros Hnd. apply NoDup_app. split; [done|]. split; [|done].
    intros c Hc Hc'. apply Hx in Hc' as [_ Hc']. done.
Qed.

(** ** Emphasis marks in an option text *)

Lemma eqc_star c (x : list ascii) : star ∉ c :: x -> eqc c star = false /\ star ∉ x.
Proof.
  intros H. split.
  - destruct (eqc c star) eqn:E; [|done]. apply eqc_eq in E as ->.
    exfalso. apply H, list_elem_of_here.
  - intros Hx. by apply H, list_elem_of_further.
Qed.

Lemma unbold_plain x : forall inside, star ∉ x -> unbold inside x = x.
Proof.
  induction x as [|c x IH]; intros inside Hx; [done|].
  apply eqc_star in Hx as [Hc Hx]. cbn [unbold].
  destruct x as [|d r]; [done|]. rewrite Hc. cbn [andb]. by rewrite IH.
Qed.

Lemma unitalic_plain x : forall inside, star ∉ x -> unitalic inside x = x.
Proof.
  induction x as [|c x IH]; intros inside Hx; [done|].
  apply eqc_star in Hx as [Hc Hx]. cbn [unitalic]. rewrite Hc. by rewrite IH.
Qed.

Lemma closes_end mark x :
  Forall (fun c => isLineTerminator c = false) x -> closes mark (x ++ mark) = true.
Proof.
  induction 1 as [|c x Hc _ IH].
  - simpl. destruct mark; unfold closes, startsWith;
      [done|]. fold closes. rewrite <- (app_nil_r (a :: mark)) at 2.
    by rewrite stripPrefix_same.
  - cbn [app closes]. rewrite Hc, IH. apply orb_true_r.
Qed.

Lemma unbold_closing x : star ∉ x -> unbold true (x ++ [star; star]) = x.
Proof.
  induction x as [|c x IH]; intros Hx; [done|].
  apply eqc_star in Hx as [Hc Hx]. cbn [app unbold].
  destruct (x ++ [star; star]) as [|d r] eqn:E.
  { by destruct x. }
  rewrite Hc. cbn [andb]. by rewrite IH.
Qed.

Lemma unbold_single x : forall inside,
  star ∉ x -> unbold inside (x ++ [star]) = x ++ [star].
Proof.
  induction x as [|c x IH]; intros inside Hx; [done|].
  apply eqc_star in Hx as [Hc Hx]. cbn [app unbold].
  destruct (x ++ [star]) as [|d r] eqn:E.
  { by destruct x. }
  rewrite Hc. cbn [andb]. by rewrite IH.
Qed.

Lemma unitalic_closing x : star ∉ x -> unitalic true (x ++ [star]) = x.
Proof.
  induction x as [|c x IH]; intros Hx; [done|].
  apply eqc_star in Hx as [Hc Hx]. cbn [app unitalic]. rewrite Hc. by rewrite IH.
Qed.

Lemma unbold_star_plain c r :
  eqc c star = false ->
  unbold false (star :: c :: r) = star :: unbold false (c :: r).
Proof.
  intros Hc.
  change (unbold false (star :: c :: r))
    with (if eqc star star && eqc c star
          then (if closes [star; star] r then unbold true r
                else star :: unbold false (c :: r))
          else star :: unbold false (c :: r)).
  by rewrite Hc, andb_false_r.
Qed.

Lemma unitalic_star s :
  unitalic false (star :: s)
  = if closes [star] s then unitalic true s else star :: unitalic false s.
Proof. cbn [unitalic]. by rewrite eqc_refl. Qed.

(** X21. [cleanOptionText] on a text [x] of one line without stars:
    the text itself is only trimmed, and so is the text between two pairs
    of stars or between two stars, the marks being removed. *)
Theorem cleanOptionText_removes_marks x :
  star ∉ x ->
  Forall (fun c => isLineTerminator c = false) x ->
  cleanOptionText x = trim x
  /\ cleanOptionText ([star; star] ++ x ++ [star; star]) = trim x
  /\ cleanOptionText ([star] ++ x ++ [star]) = trim x.
Proof.
  intros Hx Hl. unfold cleanOptionText. split; [|split].
  - by rewrite unbold_plain, unitalic_plain.
  - cbn [app unbold]. rewrite eqc_refl. cbn [andb].
    rewrite (closes_end [star; star] x Hl), unbold_closing by done.
    by rewrite unitalic_plain.
  - destruct x as [|c x]; [reflexivity|].
    pose proof Hx as [Hc Hx']%eqc_star.
    change ([star] ++ (c :: x) ++ [star]) with (star :: c :: (x ++ [star])).
    rewrite unbold_star_plain by done.
    change (c :: x ++ [star]) with ((c :: x) ++ [star]).
    rewrite unbold_single by done.
    rewrite unitalic_star, (closes_end [star] (c :: x) Hl).
    by rewrite unitalic_closing.
Qed.

Lemma cleanOptionText_removes_marks_witness :
  cleanOptionText (str " the cat ") = trim (str " the cat ")
  /\ cleanOptionText ([star; star] ++ str " the cat " ++ [star; star])
     = trim (str " the cat ")
  /\ cleanOptionText ([star] ++ str " the cat " ++ [star]) = trim (str " the cat ").
Proof.
  apply (cleanOptionText_removes_marks (str " the cat ")).
  - intros H. repeat (apply elem_of_cons in H as [H|H]; [discriminate H|]).
    by apply elem_of_nil in H.
  - repeat constructor.
Defined.

End MarkdownParserMore.

(** * From the document to the quiz *)

Module EndToEndMore.

Import JS Samples EngineNotions ParserNotions MoreNotions.



End EndToEndMore.
